(** * Equation-balance verification engine of chemistry-master

    A shallow embedding of [parseFormula] (src/utils.tsx) and of
    [getCharge], [handleCoefficientChange] and [checkAnswer]
    (src/components/EquationBalancer.tsx), with the properties the
    specification states about them.

    Conventions of the embedding.
    - A JavaScript string is a [string]: a sequence of bytes (UTF-8).  Every
      character the code inspects (letters, digits, parentheses, [^], [.],
      [+], [-]) is ASCII, and no ASCII byte occurs inside a multi-byte UTF-8
      sequence, so scanning bytes and scanning UTF-16 code units skip the
      same unrecognised text.
    - A JavaScript number is a [number]: an integer (every finite number
      the code computes is one), an infinity or NaN.  Sums and products are
      rounded as IEEE 754 doubles are: exact up to 2^53 in magnitude, to
      the nearest representable integer beyond.  The two zeros are one:
      the code never divides, and every other operation it uses treats
      them alike.
    - A [Record<string, number>] whose keys are element symbols is an
      association list in insertion order, which is the order in which
      [Object.entries] and [Object.keys] enumerate such keys (none of them
      is an array index, none is inherited from [Object.prototype]).
    - A call either returns a value or throws a [TypeError]: a [completion]. *)

From stdpp Require Import gmap strings list pretty.
From Stdlib Require Import ZArith Ascii String Lia.

Set Warnings "-clear-no-such-hyp".

Local Open Scope Z_scope.

(** ** JavaScript primitives used by the code *)

Module Js.

Inductive completion (A : Type) : Type :=
| Normal (value : A)
| Throw_TypeError.
Arguments Normal {A} value.
Arguments Throw_TypeError {A}.

Definition bind {A B} (c : completion A) (k : A → completion B) : completion B :=
  match c with
  | Normal a => k a
  | Throw_TypeError => Throw_TypeError
  end.

(** Character classes of the regular expressions: [\d], [[A-Z]], [[a-z]]. *)
Definition between (lo hi : N) (c : ascii) : bool :=
  ((lo <=? N_of_ascii c) && (N_of_ascii c <=? hi))%N.
Definition is_digit : ascii → bool := between 48 57.
Definition is_upper : ascii → bool := between 65 90.
Definition is_lower : ascii → bool := between 97 122.
Definition is_sign (c : ascii) : bool :=
  bool_decide (c = "+"%char) || bool_decide (c = "-"%char).

(** The longest prefix of characters satisfying [p] (a greedy [p*]), and
    the rest of the input. *)
Fixpoint span (p : ascii → bool) (s : string) : string * string :=
  match s with
  | String c s' =>
      if p c then let '(run, rest) := span p s' in (String c run, rest)
      else (EmptyString, s)
  | EmptyString => (EmptyString, EmptyString)
  end.

(** [a || b] on strings: the empty string is falsy. *)
Definition or_else (a b : string) : string :=
  match a with EmptyString => b | _ => a end.

Definition truthy (a : string) : bool :=
  match a with EmptyString => false | _ => true end.

(** *** Numbers *)

Inductive number : Type :=
| Fin (value : Z)
| Infinity (negative : bool)
| NaN.

(** [Number.MAX_SAFE_INTEGER] *)
Definition MAX_SAFE_INTEGER : Z := 2 ^ 53 - 1.

(** The number nearest to an integer: the integer itself up to 2^53 in
    magnitude; beyond that the nearest integer with a significand of 53
    bits, the one with the even significand when two are as near; an
    infinity when that reaches 2^1024. *)
Definition nearest (z : Z) : number :=
  let a := Z.abs z in
  if a <? 2 ^ 53 then Fin z
  else
    let e := Z.log2 a - 52 in
    let q := a / 2 ^ e in
    let r := a mod 2 ^ e in
    let half := 2 ^ (e - 1) in
    let q' := if (half <? r) || ((r =? half) && Z.odd q) then q + 1 else q in
    let v := q' * 2 ^ e in
    if 2 ^ 1024 <=? v then Infinity (z <? 0) else Fin (Z.sgn z * v).

(** [a + b] and [a * b] *)
Definition nadd (a b : number) : number :=
  match a, b with
  | NaN, _ | _, NaN => NaN
  | Infinity s, Infinity t => if Bool.eqb s t then Infinity s else NaN
  | Infinity s, Fin _ | Fin _, Infinity s => Infinity s
  | Fin x, Fin y => nearest (x + y)
  end.

Definition nmul (a b : number) : number :=
  match a, b with
  | NaN, _ | _, NaN => NaN
  | Infinity s, Infinity t => Infinity (xorb s t)
  | Infinity s, Fin y | Fin y, Infinity s =>
      if y =? 0 then NaN else Infinity (xorb s (y <? 0))
  | Fin x, Fin y => nearest (x * y)
  end.

(** [a % 2]: the remainder has the sign of the dividend. *)
Definition nrem2 (a : number) : number :=
  match a with
  | Fin x => Fin (Z.rem x 2)
  | _ => NaN
  end.

(** [a !== b]: NaN differs from every number, itself included. *)
Definition strict_ne (a b : number) : bool :=
  match a, b with
  | Fin x, Fin y => negb (x =? y)
  | Infinity s, Infinity t => negb (Bool.eqb s t)
  | _, _ => true
  end.

(** [a > 0] *)
Definition positive (a : number) : bool :=
  match a with
  | Fin x => 0 <? x
  | Infinity s => negb s
  | NaN => false
  end.

(** [a || 0] on a number that may be missing: [undefined], 0 and NaN are
    falsy. *)
Definition or_zero (a : option number) : number :=
  match a with
  | Some (Fin 0) | Some NaN | None => Fin 0
  | Some a => a
  end.

(** *** Number::toString

    A safe integer is written in decimal.  A larger integer [a] is written
    with the fewest digits that still denote it: [k] digits [s] followed
    by zeros up to [n] digits in all, such that [s * 10^(n-k)] is nearest
    to [a] among the numbers; the one closest to [a] when there are
    several, and in exponent notation when [n] is more than 21. *)
Definition candidates (a k : Z) : list (Z * Z * Z) :=
  let d := Z.of_nat (String.length (pretty a)) in
  n ← [d; d + 1];
  if n - k <? 0 then []
  else
    let scale := 10 ^ (n - k) in
    s ← [a / scale; a / scale + 1];
    if (10 ^ (k - 1) <=? s) && (s <? 10 ^ k)
       && match nearest (s * scale) with Fin v => v =? a | _ => false end
    then [(k, n, s)] else [].

Definition closer (a : Z) (x y : Z * Z * Z) : Z * Z * Z :=
  let '(k, n, s) := x in
  let '(k', n', s') := y in
  let dx := Z.abs (s * 10 ^ (n - k) - a) in
  let dy := Z.abs (s' * 10 ^ (n' - k') - a) in
  if dx <? dy then x else if dy <? dx then y else if Z.even s then x else y.

Fixpoint shortest_from (fuel : nat) (a k : Z) : option (Z * Z * Z) :=
  match fuel with
  | O => None
  | S fuel' =>
      match candidates a k with
      | [] => shortest_from fuel' a (k + 1)
      | c :: cs => Some (foldr (closer a) c cs)
      end
  end.

Definition zeros (n : nat) : string := String.concat EmptyString (replicate n "0").

Definition large_toString (a : Z) : string :=
  match shortest_from 17 a 1 with
  | None => pretty a
  | Some (k, n, s) =>
      if n <=? 21 then pretty s +:+ zeros (Z.to_nat (n - k))
      else
        match pretty s with
        | String c rest =>
            String c (match rest with EmptyString => EmptyString | _ => "." +:+ rest end)
            +:+ "e+" +:+ pretty (n - 1)
        | EmptyString => EmptyString
        end
  end.

Definition toString (x : number) : string :=
  match x with
  | Fin z =>
      if Z.abs z <=? MAX_SAFE_INTEGER then pretty z
      else (if z <? 0 then "-" else EmptyString) +:+ large_toString (Z.abs z)
  | Infinity false => "Infinity"
  | Infinity true => "-Infinity"
  | NaN => "NaN"
  end.

(** *** parseInt

    [parseInt(s, 10)]: leading white space is skipped, then an optional
    sign, then the digits are read; without a digit the result is NaN.
    The digits denote an integer, and the result is the number nearest to
    it (for more than 20 significant digits ECMAScript also allows an
    approximation; engines round the exact value). *)
Definition digit_value (c : ascii) : Z := Z.of_N (N_of_ascii c) - 48.

Definition starts_with_digit (s : string) : bool :=
  match s with
  | String c _ => is_digit c
  | EmptyString => false
  end.

Fixpoint parseInt_from (acc : Z) (s : string) : Z :=
  match s with
  | String c s' => if is_digit c then parseInt_from (10 * acc + digit_value c) s' else acc
  | EmptyString => acc
  end.

Definition bytes (l : list N) : string :=
  String.string_of_list_ascii (ascii_of_N <$> l).

(** The white space and line terminators, in UTF-8: tab, line feed,
    vertical tab, form feed, carriage return, space, U+00A0, U+1680,
    U+2000 to U+200A, U+2028, U+2029, U+202F, U+205F, U+3000, U+FEFF. *)
Definition white_space : list string :=
  bytes <$> ([[9]; [10]; [11]; [12]; [13]; [32]; [194; 160]; [225; 154; 128]]
             ++ ((λ b, [226; 128; b]) <$> [128; 129; 130; 131; 132; 133; 134; 135; 136; 137; 138])
             ++ [[226; 128; 168]; [226; 128; 169]; [226; 128; 175]; [226; 129; 159];
                 [227; 128; 128]; [239; 187; 191]])%N.

Fixpoint strip (prefix s : string) : option string :=
  match prefix, s with
  | EmptyString, _ => Some s
  | String a prefix', String b s' => if bool_decide (a = b) then strip prefix' s' else None
  | String _ _, EmptyString => None
  end.

Fixpoint trim_start (fuel : nat) (s : string) : string :=
  match fuel with
  | O => s
  | S fuel' =>
      match omap (λ w, strip w s) white_space with
      | rest :: _ => trim_start fuel' rest
      | [] => s
      end
  end.

Definition parseInt10 (s : string) : number :=
  let s := trim_start (String.length s) s in
  let '(negative, s) :=
    match s with
    | String c s' =>
        if bool_decide (c = "-"%char) then (true, s')
        else if bool_decide (c = "+"%char) then (false, s')
        else (false, s)
    | EmptyString => (false, s)
    end in
  if starts_with_digit s
  then nearest ((if negative then -1 else 1) * parseInt_from 0 s)
  else NaN.

(** [s.split(sep)] for a one-character separator: always at least one
    part, one more than the number of separators. *)
Fixpoint split (sep : ascii) (s : string) : list string :=
  match s with
  | EmptyString => [EmptyString]
  | String c s' =>
      if bool_decide (c = sep) then EmptyString :: split sep s'
      else match split sep s' with
           | part :: parts => String c part :: parts
           | [] => [String c EmptyString]
           end
  end.

(** [s.replace(/c/g, '')] for a single literal character [c]. *)
Fixpoint remove_all (c : ascii) (s : string) : string :=
  match s with
  | EmptyString => EmptyString
  | String x s' => if bool_decide (x = c) then remove_all c s' else String x (remove_all c s')
  end.

(** [Array.from(new Set(l))]: duplicates dropped, first occurrences kept
    in order. *)
Fixpoint uniq_from (seen l : list string) : list string :=
  match l with
  | [] => []
  | x :: l' => if bool_decide (x ∈ seen) then uniq_from seen l'
               else x :: uniq_from (x :: seen) l'
  end.
Definition uniq : list string → list string := uniq_from [].

(** [l.join(sep)]. *)
Fixpoint join (sep : string) (l : list string) : string :=
  match l with
  | [] => EmptyString
  | [x] => x
  | x :: l' => x +:+ sep +:+ join sep l'
  end.

End Js.
Export Js.

(** ** Atom counts: [Record<string, number>] *)

(** A record with string keys, in insertion order. *)
Fixpoint get {V : Type} (el : string) (m : list (string * V)) : option V :=
  match m with
  | [] => None
  | (k, v) :: m' => if bool_decide (k = el) then Some v else get el m'
  end.

(** [m[el] = v]: an existing key keeps its position, a new key goes last. *)
Fixpoint assign {V : Type} (el : string) (v : V) (m : list (string * V))
  : list (string * V) :=
  match m with
  | [] => [(el, v)]
  | (k, w) :: m' =>
      if bool_decide (k = el) then (k, v) :: m' else (k, w) :: assign el v m'
  end.

Definition keys {V : Type} (m : list (string * V)) : list string := m.*1.

Definition AtomCount : Type := list (string * number).

(** [m[el] || 0] *)
Definition get_or0 (el : string) (m : AtomCount) : number := or_zero (get el m).

(** [m[el] = (m[el] || 0) + n] *)
Definition bump (el : string) (n : number) (m : AtomCount) : AtomCount :=
  assign el (nadd (get_or0 el m) n) m.

(** ** utils.tsx: parseFormula *)

(** One match of [tokenRegex]: an element symbol (an upper-case letter
    and its lower-case letters, or the letter e) with its digits (groups 1
    and 2), an opening parenthesis (group 3), or a closing parenthesis with
    its digits (groups 4 and 5). *)
Inductive token : Type :=
| TElement (element digits : string)
| TOpen
| TClose (digits : string).

(** [tokenRegex.exec(clean)] from the current [lastIndex]: the leftmost
    match in the remaining input together with the input after it, or
    [None] when nothing matches any more.  At each position the
    alternatives are tried in order; the lower-case and digit runs are
    greedy and what follows them can always match, so no backtracking
    takes place. *)
Fixpoint exec (s : string) : option (token * string) :=
  match s with
  | EmptyString => None
  | String c s' =>
      if is_upper c then
        let '(low, r1) := span is_lower s' in
        let '(ds, r2) := span is_digit r1 in
        Some (TElement (String c low) ds, r2)
      else if bool_decide (c = "e"%char) then
        let '(ds, r2) := span is_digit s' in
        Some (TElement "e" ds, r2)
      else if bool_decide (c = "("%char) then Some (TOpen, s')
      else if bool_decide (c = ")"%char) then
        let '(ds, r2) := span is_digit s' in
        Some (TClose ds, r2)
      else exec s'
  end.

(** The stack of frames, top first: [stack[stack.length - 1]] is the head,
    [stack[0]] the last element. *)
Definition merge_scaled (popped : AtomCount) (multiplier : number) (current : AtomCount)
  : AtomCount :=
  fold_left (λ cur '(el, cnt), bump el (nmul cnt multiplier) cur) popped current.

(** The body of the [while] loop for one match. *)
Definition step (t : token) (stack : list AtomCount) : completion (list AtomCount) :=
  match t with
  | TElement element digits =>
      let count := parseInt10 (or_else digits "1") in
      match stack with
      | current :: below => Normal (bump element count current :: below)
      | [] => Throw_TypeError (* current is undefined *)
      end
  | TOpen => Normal ([] :: stack)
  | TClose digits =>
      let multiplier := parseInt10 (or_else digits "1") in
      match stack with
      | [] => Normal [] (* popped is undefined: guarded by if (popped) *)
      | popped :: current :: below =>
          Normal (merge_scaled popped multiplier current :: below)
      | [popped] =>
          (* the base frame was popped, current is undefined: the first
             entry of popped, if any, reads a property of undefined *)
          match popped with
          | [] => Normal []
          | _ :: _ => Throw_TypeError
          end
      end
  end.

Fixpoint run (fuel : nat) (s : string) (stack : list AtomCount)
  : completion (list AtomCount) :=
  match fuel with
  | O => Normal stack
  | S fuel' =>
      match exec s with
      | None => Normal stack
      | Some (t, rest) => bind (step t stack) (run fuel' rest)
      end
  end.

(** [tokenRegex] and [stack] are created by each call, so every scan starts
    at the beginning of the text with one empty base frame and no call sees
    what another one did.  The fuel is the number of matches the loop may
    take; each match consumes at least one character, so one more than the
    length of the text is never used up.  The result is [stack[0]], which is
    [undefined] ([None]) when the base frame itself was popped. *)
Definition parseFormula (formula : string) : completion (option AtomCount) :=
  let clean := hd EmptyString (split "^" formula) in
  let clean := remove_all "." clean in
  bind (run (S (String.length clean)) clean [[]]) (λ stack, Normal (last stack)).

(** ** EquationBalancer.tsx: getCharge *)

(** [chargePart.match(re)] for the pattern "optional digits, then a sign",
    unanchored and not global: the leftmost position at which the pattern
    matches.  At a given position the digit run is greedy; when the
    character after the whole run is not a sign, no shorter run helps (it
    would be followed by a digit), so the position fails.  The result is
    groups 1 and 2. *)
Definition charge_match_at (s : string) : option (string * ascii) :=
  let '(ds, rest) := span is_digit s in
  match rest with
  | String c _ => if is_sign c then Some (ds, c) else None
  | EmptyString => None
  end.

Fixpoint charge_match (s : string) : option (string * ascii) :=
  match charge_match_at s with
  | Some m => Some m
  | None =>
      match s with
      | String _ s' => charge_match s'
      | EmptyString => None
      end
  end.

Definition getCharge (formula : string) : number :=
  match split "^" formula with
  | _ :: chargePart :: _ =>
      match charge_match chargePart with
      | None => Fin 0
      | Some (digits, sign_char) =>
          let num := if truthy digits then parseInt10 digits else Fin 1 in
          let sign := if bool_decide (sign_char = "+"%char) then Fin 1 else Fin (-1) in
          nmul num sign
      end
  | _ =>
      (* parts.length < 2 *)
      if bool_decide (formula = "e") || bool_decide (formula = "e-") then Fin (-1)
      else Fin 0
  end.

(** ** types.ts *)

Inductive Language : Type := ZH | EN.

Inductive EquationTopic : Type :=
| METALS | ACIDS_BASES | FOSSIL_FUELS | EQUILIBRIUM | REDOX_HALF | REDOX_FULL.

(** The [coefficient] of a component is given by the reply of the service
    or by a table of the code as an integer literal: the field holds the
    integer written, and the number the code compares with is the one
    nearest to it. *)
Record EquationComponent : Type := {
  formula : string;
  name : option string;
  coefficient : Z
}.

Inductive Difficulty : Type := easy | medium | hard.

Record ChemicalEquation : Type := {
  reactants : list EquationComponent;
  products : list EquationComponent;
  difficulty : Difficulty
}.

(** ** EquationBalancer.tsx: the component state *)

Inductive Feedback : Type := none | correct | incorrect.

(** The state variables of the component that [handleCoefficientChange]
    and [checkAnswer] read or write, with the [language] property. *)
Record Session : Type := {
  language : Language;
  selectedTopic : option EquationTopic;
  equations : list ChemicalEquation;
  currentIndex : nat;
  userCoefficients : gmap string string;
  score : Z;
  feedback : Feedback;
  hintMessage : string
}.

Definition currentEquation (s : Session) : option ChemicalEquation :=
  equations s !! currentIndex s.

Definition with_userCoefficients (uc : gmap string string) (s : Session) : Session :=
  {| language := language s; selectedTopic := selectedTopic s;
     equations := equations s; currentIndex := currentIndex s;
     userCoefficients := uc; score := score s;
     feedback := feedback s; hintMessage := hintMessage s |}.

Definition with_feedback (f : Feedback) (hint : string) (s : Session) : Session :=
  {| language := language s; selectedTopic := selectedTopic s;
     equations := equations s; currentIndex := currentIndex s;
     userCoefficients := userCoefficients s; score := score s;
     feedback := f; hintMessage := hint |}.

Definition with_score (n : Z) (s : Session) : Session :=
  {| language := language s; selectedTopic := selectedTopic s;
     equations := equations s; currentIndex := currentIndex s;
     userCoefficients := userCoefficients s; score := n;
     feedback := feedback s; hintMessage := hintMessage s |}.

(** ** EquationBalancer.tsx: handleCoefficientChange *)

Fixpoint all_chars (p : ascii → bool) (s : string) : bool :=
  match s with
  | EmptyString => true
  | String c s' => p c && all_chars p s'
  end.

(** The test of the anchored pattern "a digit from 1 to 9, then digits". *)
Definition positive_integer_text (value : string) : bool :=
  match value with
  | EmptyString => false
  | String c rest => between 49 57 c && all_chars is_digit rest
  end.

Definition handleCoefficientChange (id value : string) (s : Session) : Session :=
  if bool_decide (value = EmptyString) || positive_integer_text value then
    let s' := with_userCoefficients (<[id := value]> (userCoefficients s)) s in
    match feedback s with
    | incorrect => with_feedback none EmptyString s'
    | _ => s'
    end
  else s.

(** ** EquationBalancer.tsx: checkAnswer *)

(** The key of a term: the side letter, a dash and the index. *)
Definition termKey (side : string) (idx : nat) : string :=
  side +:+ "-" +:+ pretty idx.

(** [parseInt(userCoefficients[key] || '1', 10)] *)
Definition userCoefficient (uc : gmap string string) (side : string) (idx : nat)
  : number :=
  parseInt10 (or_else (default EmptyString (uc !! termKey side idx)) "1").

(** The loop over [Object.entries(atoms)] of one term. *)
Definition addAtoms (atoms : AtomCount) (coeff : number) (counts : AtomCount)
  : AtomCount :=
  fold_left
    (λ acc '(el, count),
       if bool_decide (el = "e") then acc else bump el (nmul count coeff) acc)
    atoms counts.

(** [terms.forEach((r, idx) => ...)] over one side, from index [idx]: the
    side's atom counts and total charge.  [Object.entries] throws on the
    [undefined] that [parseFormula] returns after popping its base frame. *)
Fixpoint sumTerms (uc : gmap string string) (side : string) (idx : nat)
    (terms : list EquationComponent) (counts : AtomCount) (charge : number)
  : completion (AtomCount * number) :=
  match terms with
  | [] => Normal (counts, charge)
  | r :: terms' =>
      let coeff := userCoefficient uc side idx in
      bind (parseFormula (formula r)) (λ atoms,
        match atoms with
        | None => Throw_TypeError
        | Some atoms =>
            sumTerms uc side (S idx) terms'
              (addAtoms atoms coeff counts)
              (nadd charge (nmul coeff (getCharge (formula r))))
        end)
  end.

Record Detail : Type := { element : string; left : number; right : number }.

(** [allElements.forEach(el => ...)]: the elements whose two counts differ. *)
Fixpoint findUnbalanced (rCounts pCounts : AtomCount) (allElements : list string)
  : list Detail :=
  match allElements with
  | [] => []
  | el :: rest =>
      let l := get_or0 el rCounts in
      let r := get_or0 el pCounts in
      if strict_ne l r
      then {| element := el; left := l; right := r |} :: findUnbalanced rCounts pCounts rest
      else findUnbalanced rCounts pCounts rest
  end.

(** The text pushed on [unbalanced] for one element. *)
Definition detailText (d : Detail) : string :=
  element d +:+ " (L:" +:+ toString (left d) +:+ ", R:" +:+ toString (right d) +:+ ")".

(** What lines 110 to 159 compute. *)
Record Balance : Type := {
  rCounts : AtomCount;
  pCounts : AtomCount;
  totalChargeL : number;
  totalChargeR : number;
  unbalancedDetails : list Detail
}.

Definition unbalancedElementsList (b : Balance) : list string :=
  element <$> unbalancedDetails b.

Definition unbalanced (b : Balance) : list string :=
  detailText <$> unbalancedDetails b.

Definition evaluate (eq : ChemicalEquation) (uc : gmap string string)
  : completion Balance :=
  bind (sumTerms uc "r" 0 (reactants eq) [] (Fin 0)) (λ '(rc, cl),
  bind (sumTerms uc "p" 0 (products eq) [] (Fin 0)) (λ '(pc, cr),
    let allElements := uniq (keys rc ++ keys pc) in
    Normal {| rCounts := rc; pCounts := pc; totalChargeL := cl; totalChargeR := cr;
              unbalancedDetails := findUnbalanced rc pc allElements |})).

(** *** The messages *)

Definition nl : string := String "010"%char EmptyString.

(** [x > 0 ? '+' + x : x] inside a template *)
Definition signedText (x : number) : string :=
  if positive x then "+" +:+ toString x else toString x.

Definition chargeMsg (isZH : bool) (chargeL chargeR : number) : string :=
  if isZH
  then "電荷未平衡 (左: " +:+ signedText chargeL +:+ ", 右: " +:+ signedText chargeR +:+ ")"
  else "Charge unbalanced (Left: " +:+ signedText chargeL +:+ ", Right: "
         +:+ signedText chargeR +:+ ")".

Definition guideHint (isZH : bool) (topic : option EquationTopic) : string :=
  match topic with
  | Some REDOX_HALF =>
      if isZH
      then nl +:+ nl +:+ "💡 提示：根據步驟 (b)，原子平衡後，請調整電子 (e⁻) 的數量來平衡電荷。"
      else nl +:+ nl +:+ "💡 Hint: According to Step (b), after atoms are balanced, adjust electrons (e⁻) to balance the charge."
  | Some REDOX_FULL =>
      if isZH
      then nl +:+ nl +:+ "💡 提示：根據方法一的步驟 6，請添加 H⁺ (酸性介質) 來平衡電荷。"
      else nl +:+ nl +:+ "💡 Hint: According to Method 1 Step 6, add H⁺ (in acidic medium) to balance the charges."
  | _ => EmptyString
  end.

Definition simplestRatioMsg (isZH : bool) : string :=
  if isZH then "原子與電荷已平衡，但請使用最簡整數比。"
  else "Balanced, but please use simplest whole number ratios.".

(** [list.find(el => el !== 'O' && el !== 'H')], as the condition
    [if (nonOH)] sees it: [undefined] and the empty string are falsy. *)
Definition isNonOH (el : string) : bool :=
  bool_decide (el ≠ "O") && bool_decide (el ≠ "H").

Definition findNonOH (l : list string) : option string :=
  match List.find isNonOH l with
  | Some el => if truthy el then Some el else None
  | None => None
  end.

(** The guide-based advice of lines 213 to 265. *)
Definition topicAdvice (isZH : bool) (topic : option EquationTopic)
    (unbalancedElementsList : list string) : string :=
  let hasO := bool_decide ("O" ∈ unbalancedElementsList) in
  let hasH := bool_decide ("H" ∈ unbalancedElementsList) in
  match topic with
  | Some REDOX_HALF =>
      match findNonOH unbalancedElementsList with
      | Some nonOH =>
          if isZH
          then "💡 提示：根據步驟 (a)(i)，請先平衡 " +:+ nonOH +:+ " 原子。"
          else "💡 Hint: According to Step (a)(i), balance " +:+ nonOH +:+ " atoms first."
      | None =>
          if hasO then
            if isZH
            then "💡 提示：根據步驟 (a)(ii)，其他原子已平衡。現在請調整 H₂O 的係數來平衡氧(O)原子。"
            else "💡 Hint: According to Step (a)(ii), others are balanced. Now adjust H₂O to balance Oxygen."
          else if hasH then
            if isZH
            then "💡 提示：根據步驟 (a)(iii)，氧原子已平衡。現在請調整 H⁺ 的係數來平衡氫(H)原子。"
            else "💡 Hint: According to Step (a)(iii), Oxygen is balanced. Now adjust H⁺ to balance Hydrogen."
          else EmptyString
      end
  | Some REDOX_FULL =>
      match findNonOH unbalancedElementsList with
      | Some nonOH =>
          if isZH
          then "💡 提示：根據方法一的步驟 4-5，請先平衡 O 和 H 以外的原子 (" +:+ nonOH +:+ ")。"
          else "💡 Hint: According to Method 1 Steps 4-5, balance atoms other than O and H first (" +:+ nonOH +:+ ")."
      | None =>
          if hasO then
            if isZH
            then "💡 提示：根據方法一的步驟 7(a)，請添加 H₂O 以平衡 O 原子。"
            else "💡 Hint: According to Method 1 Step 7(a), add H₂O to balance O atoms."
          else if hasH then
            if isZH
            then "💡 提示：根據方法一的步驟 7(b)，請檢查並確保 H 原子的數目是平衡的。"
            else "💡 Hint: According to Method 1 Step 7(b), check to make sure that the number of H atoms is balanced."
          else EmptyString
      end
  | _ =>
      let hasOH :=
        existsb (λ el, bool_decide (el = "O") || bool_decide (el = "H"))
          unbalancedElementsList in
      match findNonOH unbalancedElementsList with
      | Some nonOH =>
          if isZH
          then "💡 提示：根據步驟 3，建議先平衡金屬或非金屬原子 (" +:+ nonOH +:+ ")，最後才處理 H 和 O。"
          else "💡 Hint: According to Step 3, balance metal/non-metal atoms (" +:+ nonOH +:+ ") first, leaving H and O for last."
      | None =>
          if hasOH then
            if isZH
            then "💡 提示：根據步驟 3，其他原子已平衡。最後請檢查並平衡氫(H)和氧(O)原子。"
            else "💡 Hint: According to Step 3, other atoms are balanced. Finally, check and balance Hydrogen and Oxygen."
          else EmptyString
      end
  end.

(** The odd/even fallback of lines 268 to 279. *)
Definition parityDiffers (d : Detail) : bool :=
  strict_ne (nrem2 (left d)) (nrem2 (right d)).

Definition oddEvenAdvice (isZH : bool) (details : list Detail) : string :=
  match List.find parityDiffers details with
  | Some d =>
      let isLeftOdd := strict_ne (nrem2 (left d)) (Fin 0) in
      let side :=
        if isLeftOdd then (if isZH then "左側" else "left side")
        else (if isZH then "右側" else "right side") in
      let count := if isLeftOdd then left d else right d in
      if isZH
      then "💡 技巧：" +:+ element d +:+ " 原子的數量在" +:+ side +:+ "是奇數 (" +:+ toString count +:+ ")。通常將含有該原子的化合物係數乘以 2 (變成偶數) 會有幫助。"
      else "💡 Tip: " +:+ element d +:+ " atoms are odd (" +:+ toString count +:+ ") on the " +:+ side +:+ ". Doubling the coefficient to make it even often helps."
  | None => EmptyString
  end.

Definition unbalancedMsg (isZH : bool) (unbalanced : list string) (advice : string)
  : string :=
  if isZH
  then "未平衡：" +:+ join ", " unbalanced +:+ nl +:+ nl +:+ advice
  else "Unbalanced: " +:+ join ", " unbalanced +:+ nl +:+ nl +:+ advice.

(** *** The comparison with the reference coefficients (lines 189 to 195) *)

Fixpoint matchTerms (uc : gmap string string) (side : string) (idx : nat)
    (terms : list EquationComponent) (isExactMatch : bool) : bool :=
  match terms with
  | [] => isExactMatch
  | r :: terms' =>
      matchTerms uc side (S idx) terms'
        (if strict_ne (userCoefficient uc side idx) (nearest (coefficient r))
         then false else isExactMatch)
  end.

Definition isExactMatch (eq : ChemicalEquation) (uc : gmap string string) : bool :=
  matchTerms uc "p" 0 (products eq) (matchTerms uc "r" 0 (reactants eq) true).

(** *** checkAnswer *)

(** [language === 'ZH'] *)
Definition is_ZH (l : Language) : bool :=
  match l with ZH => true | EN => false end.

Definition checkAnswer (s : Session) : completion Session :=
  match currentEquation s with
  | None => Normal s
  | Some eq =>
      let isZH := is_ZH (language s) in
      bind (evaluate eq (userCoefficients s)) (λ b,
        match unbalanced b with
        | [] =>
            if strict_ne (totalChargeL b) (totalChargeR b) then
              Normal (with_feedback incorrect
                        (chargeMsg isZH (totalChargeL b) (totalChargeR b)
                           +:+ guideHint isZH (selectedTopic s)) s)
            else if isExactMatch eq (userCoefficients s) then
              Normal (with_feedback correct EmptyString (with_score (score s + 10) s))
            else
              Normal (with_feedback incorrect (simplestRatioMsg isZH) s)
        | _ :: _ =>
            let advice := topicAdvice isZH (selectedTopic s) (unbalancedElementsList b) in
            let advice :=
              if truthy advice then advice
              else oddEvenAdvice isZH (unbalancedDetails b) in
            Normal (with_feedback incorrect (unbalancedMsg isZH (unbalanced b) advice) s)
        end)
  end.

(** * Notions of the specification *)

(** ** Text *)

Definition decimal_digits : list ascii :=
  ["0"; "1"; "2"; "3"; "4"; "5"; "6"; "7"; "8"; "9"]%char.

Definition nonzero_digits : list ascii :=
  ["1"; "2"; "3"; "4"; "5"; "6"; "7"; "8"; "9"]%char.

Definition chars (s : string) : list ascii := String.list_ascii_of_string s.

(** Whether the first character of a text, if any, is in a class. *)
Definition starts_with (p : ascii → bool) (s : string) : bool :=
  match s with
  | String c _ => p c
  | EmptyString => false
  end.

(** "one or more digits, no leading zero" *)
Definition positive_integer_string (value : string) : Prop :=
  match chars value with
  | c :: rest => c ∈ nonzero_digits ∧ Forall (λ d, d ∈ decimal_digits) rest
  | [] => False
  end.

(** The value of a digit string read in base ten. *)
Fixpoint decimal (digits : string) : Z :=
  match digits with
  | EmptyString => 0
  | String c rest => digit_value c * 10 ^ Z.of_nat (String.length rest) + decimal rest
  end.

(** ** Numbers *)

(** The safe integers: those that are numbers and whose sums and products,
    when safe too, are computed exactly. *)
Definition safe (z : Z) : Prop := - MAX_SAFE_INTEGER ≤ z ≤ MAX_SAFE_INTEGER.

(** A number that is not negative: a non-negative integer, the positive
    infinity or NaN. *)
Definition not_negative (a : number) : Prop :=
  match a with
  | Fin z => 0 ≤ z
  | Infinity negative => negative = false
  | NaN => True
  end.

(** ** Tallies: atom counts in integers *)

Definition Tally : Type := list (string * Z).

Definition count (el : string) (m : Tally) : Z := default 0 (get el m).

Definition add_count (el : string) (n : Z) (m : Tally) : Tally :=
  assign el (count el m + n) m.

Definition add_scaled (popped : Tally) (multiplier : Z) (current : Tally) : Tally :=
  fold_left (λ cur '(el, cnt), add_count el (cnt * multiplier) cur) popped current.

(** The atoms of a term added to the counts of a side, the electrons left
    out. *)
Definition add_atoms (atoms : Tally) (coeff : Z) (counts : Tally) : Tally :=
  fold_left
    (λ acc '(el, cnt),
       if bool_decide (el = "e") then acc else add_count el (cnt * coeff) acc)
    atoms counts.

(** All the atoms of a tally. *)
Definition total (m : Tally) : Z := foldr (λ e acc, e.2 + acc) 0 m.

(** The atom counts whose numbers are the integers of a tally. *)
Definition exactly (m : Tally) : AtomCount := prod_map id Fin <$> m.

(** ** Frames *)

(** What holds of every frame the parser builds: no symbol is listed twice,
    no symbol is empty, no count is negative. *)
Definition frame_inv (m : AtomCount) : Prop :=
  NoDup (keys m) ∧ Forall (λ e, e.1 ≠ EmptyString ∧ not_negative e.2) m.

Definition tally_inv (m : Tally) : Prop :=
  NoDup (keys m) ∧ Forall (λ e, e.1 ≠ EmptyString ∧ 0 ≤ e.2) m.

(** ** Well-formed formulas *)

(** A formula "composed only of valid element/group tokens": a sequence of
    items, each an element symbol with its optional count or a
    parenthesised group with its optional multiplier. *)
Inductive FormulaTree : Type :=
| Done
| Atom (symbol digits : string) (rest : FormulaTree)
| Group (body : FormulaTree) (digits : string) (rest : FormulaTree).

(** The text of a formula. *)
Fixpoint render (t : FormulaTree) : string :=
  match t with
  | Done => EmptyString
  | Atom symbol digits rest => symbol +:+ digits +:+ render rest
  | Group body digits rest => "(" +:+ render body +:+ ")" +:+ digits +:+ render rest
  end.

(** "one uppercase letter optionally followed by lowercase letters, or the
    literal e" *)
Definition is_symbol (s : string) : bool :=
  match s with
  | String c low => (is_upper c && all_chars is_lower low) || bool_decide (s = "e")
  | EmptyString => false
  end.

Fixpoint well_formed (t : FormulaTree) : bool :=
  match t with
  | Done => true
  | Atom symbol digits rest =>
      is_symbol symbol && all_chars is_digit digits && well_formed rest
  | Group body digits rest =>
      well_formed body && all_chars is_digit digits && well_formed rest
  end.

(** The text determines its items: an upper-case symbol written without a
    count is not directly followed by the electron symbol e, the one item
    that starts with a lower-case letter (the text "Ce" is the element Ce,
    not C followed by e). *)
Fixpoint reads_as_written (t : FormulaTree) : bool :=
  match t with
  | Done => true
  | Atom symbol digits rest =>
      (negb (bool_decide (digits = EmptyString)) || bool_decide (symbol = "e")
       || negb (starts_with is_lower (render rest)))
      && reads_as_written rest
  | Group body _ rest => reads_as_written body && reads_as_written rest
  end.

(** The items a text is read as.  A symbol without count that is directly
    followed by electron symbols takes them in as lower-case letters, up to
    and including the first one that carries a count. *)
Fixpoint absorb (symbol : string) (rest : FormulaTree) : FormulaTree :=
  match rest with
  | Atom next digits rest' =>
      if bool_decide (next = "e") then
        if bool_decide (digits = EmptyString) then absorb (symbol +:+ "e") rest'
        else Atom (symbol +:+ "e") digits rest'
      else Atom symbol EmptyString rest
  | _ => Atom symbol EmptyString rest
  end.

Fixpoint as_read (t : FormulaTree) : FormulaTree :=
  match t with
  | Done => Done
  | Atom symbol digits rest =>
      if bool_decide (digits = EmptyString) && negb (bool_decide (symbol = "e"))
      then absorb symbol (as_read rest)
      else Atom symbol digits (as_read rest)
  | Group body digits rest => Group (as_read body) digits (as_read rest)
  end.

Definition upper_symbol (s : string) : bool :=
  match s with
  | String c low => is_upper c && all_chars is_lower low
  | EmptyString => false
  end.

(** "optionally followed by digits (count, default 1)" *)
Definition quantity (digits : string) : Z :=
  match digits with
  | EmptyString => 1
  | _ => decimal digits
  end.

(** The number of atoms of an element in a formula: counts add up, and the
    contents of a group are multiplied by its multiplier. *)
Fixpoint atomsOf (el : string) (t : FormulaTree) : Z :=
  match t with
  | Done => 0
  | Atom symbol digits rest =>
      (if decide (symbol = el) then quantity digits else 0) + atomsOf el rest
  | Group body digits rest => quantity digits * atomsOf el body + atomsOf el rest
  end.

(** The size of a formula: its atoms, each group counted as many times as
    its multiplier says (once at least), and its multipliers.  No count,
    multiplier, product or sum that the scan of the formula computes is
    larger. *)
Fixpoint mass (t : FormulaTree) : Z :=
  match t with
  | Done => 0
  | Atom symbol digits rest => quantity digits + mass rest
  | Group body digits rest =>
      Z.max (quantity digits) 1 * mass body + quantity digits + mass rest
  end.

(** What the scan of a formula's text does to the frame on top of the
    stack, in integers, and how many matches it takes. *)
Fixpoint fill (t : FormulaTree) (top : Tally) : Tally :=
  match t with
  | Done => top
  | Atom symbol digits rest => fill rest (add_count symbol (quantity digits) top)
  | Group body digits rest =>
      fill rest (add_scaled (fill body []) (quantity digits) top)
  end.

Fixpoint tokens (t : FormulaTree) : nat :=
  match t with
  | Done => 0
  | Atom _ _ rest => S (tokens rest)
  | Group body _ rest => S (S (tokens body + tokens rest))
  end.

(** The parser gives a formula exactly the atoms of its items: a map of
    integers in which every element has the number of its atoms. *)
Definition counted_exactly (t : FormulaTree) : Prop :=
  ∃ m : Tally, parseFormula (render t) = Normal (Some (exactly m)) ∧
               ∀ el, count el m = atomsOf el (as_read t).

(** Ca(OH)2 *)
Definition slaked_lime : FormulaTree :=
  Atom "Ca" "" (Group (Atom "O" "" (Atom "H" "" Done)) "2" Done).

(** H with the count 2^53 + 1 *)
Definition heavy_hydrogen : FormulaTree := Atom "H" "9007199254740993" Done.

(** ** Charge segments *)

(** The charge segment of a formula: what stands between its first caret
    and the next one (or the end). *)
Definition chargeSegment (formula : string) : option string :=
  split "^" formula !! 1%nat.

Definition hasCaret (formula : string) : Prop := "^"%char ∈ chars formula.

(** ** The edit boundary *)

(** What evaluation may find under a key: nothing, the empty string, or a
    positive-integer string. *)
Definition valid_entry (value : string) : Prop :=
  value = EmptyString ∨ positive_integer_string value.

Definition valid_coefficients (uc : gmap string string) : Prop :=
  ∀ key value, uc !! key = Some value → valid_entry value.

(** A sequence of edits, applied in order. *)
Definition editAll (edits : list (string * string)) (s : Session) : Session :=
  fold_left (λ s '(id, value), handleCoefficientChange id value s) edits s.

(** ** Balance *)

(** The formulas that have atom counts and a charge in integers:
    [parseFormula] returns a map of integers and [getCharge] an integer. *)
Definition parses (formula : string) : Prop :=
  (∃ m : Tally, parseFormula formula = Normal (Some (exactly m))) ∧
  (∃ q : Z, getCharge formula = Fin q).

(** The integers of atom counts, when all the counts are integers, and
    the test that a formula has atom counts and a charge in integers. *)
Fixpoint as_tally (m : AtomCount) : option Tally :=
  match m with
  | [] => Some []
  | (k, Fin z) :: m' => cons (k, z) <$> as_tally m'
  | _ => None
  end.

Definition parsesb (formula : string) : bool :=
  match parseFormula formula, getCharge formula with
  | Normal (Some m), Fin _ => bool_decide (is_Some (as_tally m))
  | _, _ => false
  end.

Definition integer (a : number) : Z :=
  match a with
  | Fin z => z
  | _ => 0
  end.

(** The number of atoms of an element that the parser finds in a formula,
    the number of all its atoms, and its charge. *)
Definition atomCount (formula el : string) : Z :=
  match parseFormula formula with
  | Normal (Some m) => integer (get_or0 el m)
  | _ => 0
  end.

Definition atomTotal (formula : string) : Z :=
  match parseFormula formula with
  | Normal (Some m) => foldr (λ e acc, integer e.2 + acc) 0 m
  | _ => 0
  end.

Definition chargeOf (formula : string) : Z := integer (getCharge formula).

(** The coefficient of a term: the integer the stored text denotes when
    there is one and it is a positive-integer string, else 1. *)
Definition resolved (uc : gmap string string) (side : string) (idx : nat) : Z :=
  match uc !! termKey side idx with
  | Some value => if positive_integer_text value then decimal value else 1
  | None => 1
  end.

(** Atoms of an element, and net charge, on one side under the
    coefficients [c] (by position, from index [idx]). *)
Fixpoint sideAtoms (c : nat → Z) (el : string) (idx : nat)
    (terms : list EquationComponent) : Z :=
  match terms with
  | [] => 0
  | r :: terms' => c idx * atomCount (formula r) el + sideAtoms c el (S idx) terms'
  end.

Fixpoint sideCharge (c : nat → Z) (idx : nat) (terms : list EquationComponent) : Z :=
  match terms with
  | [] => 0
  | r :: terms' => c idx * chargeOf (formula r) + sideCharge c (S idx) terms'
  end.

(** The size of one side under the coefficients [c]: for every term, the
    coefficient times one more than its atoms and the magnitude of its
    charge.  No coefficient, product or partial sum that the evaluation of
    the side computes is larger in magnitude. *)
Fixpoint sideLoad (c : nat → Z) (idx : nat) (terms : list EquationComponent) : Z :=
  match terms with
  | [] => 0
  | r :: terms' =>
      c idx * (1 + atomTotal (formula r) + Z.abs (chargeOf (formula r)))
      + sideLoad c (S idx) terms'
  end.

(** An equation whose evaluation under the coefficients stays within the
    safe integers. *)
Definition within_safe (c d : nat → Z) (eq : ChemicalEquation) : Prop :=
  sideLoad c 0 (reactants eq) ≤ MAX_SAFE_INTEGER ∧
  sideLoad d 0 (products eq) ≤ MAX_SAFE_INTEGER.

(** The reference coefficient of the term at a position. *)
Definition reference (terms : list EquationComponent) (idx : nat) : Z :=
  from_option coefficient 0 (terms !! idx).

(** An equation whose evaluation under [k] times the reference
    coefficients stays within the safe integers. *)
Definition scaled_within_safe (k : Z) (eq : ChemicalEquation) : Prop :=
  within_safe (λ i, k * reference (reactants eq) i) (λ i, k * reference (products eq) i) eq.

(** A well-formed equation: every formula has atom counts, the reference
    coefficients are positive, they balance every element and the net
    charge, and they have no common divisor greater than 1. *)
Definition well_formed_equation (eq : ChemicalEquation) : Prop :=
  Forall (λ r, parses (formula r) ∧ 0 < coefficient r) (reactants eq ++ products eq) ∧
  (∀ el, el ≠ "e" →
     sideAtoms (reference (reactants eq)) el 0 (reactants eq)
     = sideAtoms (reference (products eq)) el 0 (products eq)) ∧
  sideCharge (reference (reactants eq)) 0 (reactants eq)
  = sideCharge (reference (products eq)) 0 (products eq) ∧
  (∀ d, 1 < d → ¬ Forall (λ r, (d | coefficient r)) (reactants eq ++ products eq)).

(** The user has entered [k] times the reference coefficient for every
    term. *)
Definition entered (k : Z) (eq : ChemicalEquation) (uc : gmap string string) : Prop :=
  (∀ i r, reactants eq !! i = Some r → resolved uc "r" i = k * coefficient r) ∧
  (∀ i r, products eq !! i = Some r → resolved uc "p" i = k * coefficient r).

(** ** Hints *)














(** ** Sample data *)

Definition term (f : string) (c : Z) : EquationComponent :=
  {| formula := f; name := None; coefficient := c |}.

(** 2 H2 + O2 -> 2 H2O *)
Definition water : ChemicalEquation :=
  {| reactants := [term "H2" 2; term "O2" 1]; products := [term "H2O" 2];
     difficulty := easy |}.

(** Fe^2+ -> Fe^3+ + e^- *)
Definition iron_half : ChemicalEquation :=
  {| reactants := [term "Fe^2+" 1]; products := [term "Fe^3+" 1; term "e^-" 1];
     difficulty := easy |}.

(** H3 -> 3 H *)
Definition trihydrogen : ChemicalEquation :=
  {| reactants := [term "H3" 1]; products := [term "H" 3]; difficulty := easy |}.

(** H^+ -> H^+ *)
Definition hydron : ChemicalEquation :=
  {| reactants := [term "H^+" 1]; products := [term "H^+" 1]; difficulty := easy |}.

(** The coefficients of [trihydrogen] times 2^53 + 1. *)
Definition trihydrogen_scaled : gmap string string :=
  <["r-0" := "9007199254740993"]> (<["p-0" := "27021597764222979"]> ∅).

(** The coefficient 2^53 + 1 for the first reactant. *)
Definition large_entry : gmap string string := <["r-0" := "9007199254740993"]> ∅.

(** The coefficients 2, blank, 2 for the terms of [water]. *)
Definition water_entries : gmap string string :=
  <["r-0" := "2"]> (<["p-0" := "2"]> ∅).

(** The coefficients 4, 2, 4 for the terms of [water]. *)
Definition water_doubled : gmap string string :=
  <["r-0" := "4"]> (<["r-1" := "2"]> (<["p-0" := "4"]> ∅)).

(** Fe^2+ -> Fe^3+ + 2 e^- as entered: balanced in atoms, not in charge. *)
Definition two_electrons : gmap string string := <["p-1" := "2"]> ∅.

(** The coefficients 2, 1, 2 and 1, 1, 1 for the terms of [water]. *)
Definition water_full : gmap string string :=
  <["r-0" := "2"]> (<["r-1" := "1"]> (<["p-0" := "2"]> ∅)).

Definition water_ones : gmap string string :=
  <["r-0" := "1"]> (<["r-1" := "1"]> (<["p-0" := "1"]> ∅)).

(** The feedback, hint and score of a completed check. *)
Definition outcome (c : completion Session) : option (Feedback * string * Z) :=
  match c with
  | Normal s => Some (feedback s, hintMessage s, score s)
  | Throw_TypeError => None
  end.

Definition fresh (topic : EquationTopic) (eq : ChemicalEquation) : Session :=
  {| language := EN; selectedTopic := Some topic; equations := [eq];
     currentIndex := 0; userCoefficients := ∅; score := 0;
     feedback := none; hintMessage := EmptyString |}.

(** A session in which the user has typed the coefficients [uc]. *)
Definition entering (uc : gmap string string) (s : Session) : Session :=
  with_userCoefficients uc s.

(** * Further notions *)

(** ** Parentheses *)

(** Reading a text from the left with [depth] groups open, no closing
    parenthesis comes when no group is open. *)
Fixpoint closes_ok (depth : nat) (s : string) : bool :=
  match s with
  | EmptyString => true
  | String c s' =>
      if bool_decide (c = "("%char) then closes_ok (S depth) s'
      else if bool_decide (c = ")"%char) then
        match depth with
        | O => false
        | S depth' => closes_ok depth' s'
        end
      else closes_ok depth s'
  end.

(** ** Typing coefficients *)

(** The user types the number [k] times the reference coefficient into the
    field of every term of one side, from index [idx] on. *)
Fixpoint typeTerms (k : Z) (side : string) (idx : nat) (terms : list EquationComponent)
    (s : Session) : Session :=
  match terms with
  | [] => s
  | r :: terms' =>
      typeTerms k side (S idx) terms'
        (handleCoefficientChange (termKey side idx) (pretty (k * coefficient r)) s)
  end.

Definition typeScaled (k : Z) (eq : ChemicalEquation) (s : Session) : Session :=
  typeTerms k "p" 0 (products eq) (typeTerms k "r" 0 (reactants eq) s).

(** ** The session after a click on the check button *)

(** [onClick={checkAnswer}]: when the handler throws, no state was set. *)
Definition checked (s : Session) : Session :=
  match checkAnswer s with
  | Normal s' => s'
  | Throw_TypeError => s
  end.

(** ** utils.tsx: formatFormula *)

(** [base.split(re)] for the pattern "one or more digits" in a capture
    group: the text is cut at every maximal digit run, and the runs are
    kept between the pieces, so the result alternates piece, run, piece,
    ..., piece.  Each round takes the piece up to the next digit and the
    run that starts there; the fuel is the number of rounds, and the
    length of the text is enough since every run has at least one
    character. *)
Fixpoint split_digits_from (fuel : nat) (s : string) : list string :=
  let '(plain, rest) := span (λ c, negb (is_digit c)) s in
  match rest, fuel with
  | EmptyString, _ => [plain]
  | _, O => [plain]
  | _, S fuel' =>
      let '(ds, rest') := span is_digit rest in
      plain :: ds :: split_digits_from fuel' rest'
  end.

Definition split_digits (s : string) : list string :=
  split_digits_from (String.length s) s.

(** The elements of the formatted base: [<sub key=...>text</sub>] or
    [<span key=...>text</span>]. *)
Inductive Node : Type :=
| Sub (key text : string)
| Span (key text : string).

Definition nodeKey (n : Node) : string :=
  match n with Sub key _ | Span key _ => key end.

Definition nodeText (n : Node) : string :=
  match n with Sub _ text | Span _ text => text end.

(** The callback of [map]: the test is the anchored pattern "one or more
    digits". *)
Definition formatPart (index : nat) (part : string) : Node :=
  if truthy part && all_chars is_digit part
  then Sub ("sub-" +:+ pretty index) part
  else Span ("base-" +:+ pretty index) part.

(** What is rendered: the elements of the base and, when [charge] is
    neither [null] nor empty, the text of the superscript. *)
Record Formatted : Type := {
  formattedBase : list Node;
  superscript : option string
}.

Definition formatFormula (formula : string) : Formatted :=
  let parts := split "^" formula in
  let base := hd EmptyString parts in
  let charge := match parts with _ :: c :: _ => Some c | _ => None end in
  {| formattedBase := imap formatPart (split_digits base);
     superscript :=
       match charge with
       | Some c => if truthy c then Some c else None
       | None => None
       end |}.

(** The text the elements of the base show, in order. *)
Definition shownText (nodes : list Node) : string :=
  foldr (λ n acc, nodeText n +:+ acc) EmptyString nodes.

(** Pieces without digit and non-empty digit runs in turn, from a piece to
    a piece; a piece between two runs is not empty. *)
Fixpoint alternating (parts : list string) : bool :=
  match parts with
  | [] => false
  | plain :: parts' =>
      all_chars (λ c, negb (is_digit c)) plain &&
      match parts' with
      | [] => true
      | ds :: rest =>
          truthy ds && all_chars is_digit ds &&
          match rest with
          | [] => false
          | [_] => true
          | next :: _ => truthy next
          end && alternating rest
      end
  end.

(** The element made of the part at a position. *)
Definition nodeAt (index : nat) (part : string) : Node :=
  if Nat.even index then Span ("base-" +:+ pretty index) part
  else Sub ("sub-" +:+ pretty index) part.

(** ** geminiService.ts *)

(** [l.slice(0, count)] for an integer [count]: the first [count]
    elements, all of them when there are fewer; a negative [count] is
    counted from the end. *)
Definition slice_to {A : Type} (count : Z) (l : list A) : list A :=
  if bool_decide (count < 0)
  then take (Z.to_nat (Z.max (Z.of_nat (List.length l) + count) 0)) l
  else take (Z.to_nat count) l.

(** *** The ions *)

Inductive IonType : Type := Cation | Anion.

Inductive IonCategory : Type := MONO | POLY | MIXED.

Module Ion.

Record t : Type := {
  formula : string;
  chineseName : string;
  englishName : string;
  type : IonType;
  charge : Z;
  category : IonCategory
}.

End Ion.

Definition ion (formula chineseName englishName : string) (type : IonType) (charge : Z)
    (category : IonCategory) : Ion.t :=
  {| Ion.formula := formula; Ion.chineseName := chineseName;
     Ion.englishName := englishName; Ion.type := type; Ion.charge := charge;
     Ion.category := category |}.

Definition ION_POOL : list Ion.t :=
  [
    ion "Na^+" "鈉離子" "Sodium ion" Cation 1 MONO;
    ion "K^+" "鉀離子" "Potassium ion" Cation 1 MONO;
    ion "Cu^+" "銅(I) 離子" "Copper(I) ion" Cation 1 MONO;
    ion "Ag^+" "銀離子" "Silver ion" Cation 1 MONO;
    ion "Hg^+" "汞(I) 離子" "Mercury(I) ion" Cation 1 MONO;
    ion "H^+" "氫離子" "Hydrogen ion" Cation 1 MONO;
    ion "Mg^2+" "鎂離子" "Magnesium ion" Cation 2 MONO;
    ion "Ca^2+" "鈣離子" "Calcium ion" Cation 2 MONO;
    ion "Ba^2+" "鋇離子" "Barium ion" Cation 2 MONO;
    ion "Pb^2+" "鉛(II) 離子" "Lead(II) ion" Cation 2 MONO;
    ion "Fe^2+" "鐵(II) 離子" "Iron(II) ion" Cation 2 MONO;
    ion "Co^2+" "鈷(II) 離子" "Cobalt(II) ion" Cation 2 MONO;
    ion "Ni^2+" "鎳(II) 離子" "Nickel(II) ion" Cation 2 MONO;
    ion "Mn^2+" "錳(II) 離子" "Manganese(II) ion" Cation 2 MONO;
    ion "Cu^2+" "銅(II) 離子" "Copper(II) ion" Cation 2 MONO;
    ion "Zn^2+" "鋅離子" "Zinc ion" Cation 2 MONO;
    ion "Hg^2+" "汞(II) 離子" "Mercury(II) ion" Cation 2 MONO;
    ion "Al^3+" "鋁離子" "Aluminium ion" Cation 3 MONO;
    ion "Fe^3+" "鐵(III) 離子" "Iron(III) ion" Cation 3 MONO;
    ion "Cr^3+" "鉻(III) 離子" "Chromium(III) ion" Cation 3 MONO;
    ion "H^-" "氫負離子" "Hydride ion" Anion (-1) MONO;
    ion "Cl^-" "氯離子" "Chloride ion" Anion (-1) MONO;
    ion "Br^-" "溴離子" "Bromide ion" Anion (-1) MONO;
    ion "I^-" "碘離子" "Iodide ion" Anion (-1) MONO;
    ion "O^2-" "氧離子" "Oxide ion" Anion (-2) MONO;
    ion "S^2-" "硫離子" "Sulphide ion" Anion (-2) MONO;
    ion "N^3-" "氮離子" "Nitride ion" Anion (-3) MONO;
    ion "P^3-" "磷離子" "Phosphide ion" Anion (-3) MONO;
    ion "NH4^+" "銨離子" "Ammonium ion" Cation 1 POLY;
    ion "OH^-" "氫氧離子" "Hydroxide ion" Anion (-1) POLY;
    ion "NO3^-" "硝酸根離子" "Nitrate ion" Anion (-1) POLY;
    ion "NO2^-" "亞硝酸根離子" "Nitrite ion" Anion (-1) POLY;
    ion "HCO3^-" "碳酸氫根離子" "Hydrogencarbonate ion" Anion (-1) POLY;
    ion "HSO4^-" "硫酸氫根離子" "Hydrogensulphate ion" Anion (-1) POLY;
    ion "CN^-" "氰離子" "Cyanide ion" Anion (-1) POLY;
    ion "MnO4^-" "高錳酸根離子" "Permanganate ion" Anion (-1) POLY;
    ion "ClO3^-" "氯酸根離子" "Chlorate ion" Anion (-1) POLY;
    ion "ClO^-" "次氯酸根離子" "Hypochlorite ion" Anion (-1) POLY;
    ion "SO4^2-" "硫酸根離子" "Sulphate ion" Anion (-2) POLY;
    ion "SO3^2-" "亞硫酸根離子" "Sulphite ion" Anion (-2) POLY;
    ion "S2O3^2-" "硫代硫酸根離子" "Thiosulphate ion" Anion (-2) POLY;
    ion "SiO3^2-" "硅酸根離子" "Silicate ion" Anion (-2) POLY;
    ion "CO3^2-" "碳酸根離子" "Carbonate ion" Anion (-2) POLY;
    ion "CrO4^2-" "鉻酸根離子" "Chromate ion" Anion (-2) POLY;
    ion "Cr2O7^2-" "重鉻酸根離子" "Dichromate ion" Anion (-2) POLY;
    ion "PO4^3-" "磷酸根離子" "Phosphate ion" Anion (-3) POLY
  ].

Definition is_category (category : IonCategory) (i : Ion.t) : bool :=
  match Ion.category i, category with
  | MONO, MONO | POLY, POLY | MIXED, MIXED => true
  | _, _ => false
  end.

(** [generateIons]: the ions of the category, in the order that the sort
    with a random comparison leaves them in, cut to [count].  That order
    is the parameter [shuffle]; [difficulty] is not used. *)
Definition generateIons (shuffle : list Ion.t → list Ion.t) (count : Z)
    (difficulty : string) (category : IonCategory) : list Ion.t :=
  let filtered :=
    match category with
    | MONO => List.filter (is_category MONO) ION_POOL
    | POLY => List.filter (is_category POLY) ION_POOL
    | MIXED => ION_POOL
    end in
  let shuffled := shuffle filtered in
  slice_to count shuffled.

(** The number of ions of the pool in a category. *)
Definition available (category : IonCategory) : Z :=
  match category with MONO => 28 | POLY => 18 | MIXED => 46 end.

(** The fields of an ion agree: the charge is the one that [getCharge]
    reads in the formula, a cation is positive and an anion negative, and
    the category is one of the two of the pool. *)
Definition ion_sound (i : Ion.t) : Prop :=
  getCharge (Ion.formula i) = Fin (Ion.charge i) ∧
  (Ion.type i = Cation ↔ 0 < Ion.charge i) ∧
  (Ion.type i = Anion ↔ Ion.charge i < 0) ∧
  Ion.category i ≠ MIXED.

(** *** The equations *)

Definition named (formula name : string) (coefficient : Z) : EquationComponent :=
  {| formula := formula; name := Some name; coefficient := coefficient |}.

Definition getFallbackEquations (count : Z) (topic : EquationTopic) (language : Language)
    : list ChemicalEquation :=
  let all :=
    [ {| reactants := [named "H2" "Hydrogen" 2; named "O2" "Oxygen" 1];
         products := [named "H2O" "Water" 2];
         difficulty := easy |};
      {| reactants := [named "Mg" "Magnesium" 2; named "O2" "Oxygen" 1];
         products := [named "MgO" "Magnesium Oxide" 2];
         difficulty := easy |};
      {| reactants := [named "Zn" "Zinc" 1; named "CuSO4" "Copper(II) Sulphate" 1];
         products := [named "ZnSO4" "Zinc Sulphate" 1; named "Cu" "Copper" 1];
         difficulty := medium |} ] in
  slice_to count all.

(** [generateEquations], given what the call of the model came to:
    [Some data] when the response has a text and it parses to [data],
    [None] when the response has no text or the call or the parse
    throws. *)
Definition generateEquations (reply : option (list ChemicalEquation)) (count : Z)
    (topic : EquationTopic) (language : Language) (history : list string)
    : list ChemicalEquation * bool :=
  match reply with
  | Some data => (data, false)
  | None => (getFallbackEquations count topic language, true)
  end.

(** ** EquationBalancer.tsx: the component *)

Inductive SelectionStep : Type := MAIN | GENERAL_SUB | REDOX_SUB.

(** All the state variables of the component: those of [Session] and
    [topicSelectionStep], [loading], [showAnswer], [isOfflineMode] and
    [history]. *)
Record Component : Type := {
  session : Session;
  topicSelectionStep : SelectionStep;
  loading : bool;
  showAnswer : bool;
  isOfflineMode : bool;
  history : list string
}.

Definition with_session (s : Session) (c : Component) : Component :=
  {| session := s; topicSelectionStep := topicSelectionStep c;
     loading := loading c; showAnswer := showAnswer c;
     isOfflineMode := isOfflineMode c; history := history c |}.

Definition with_topicSelectionStep (st : SelectionStep) (c : Component) : Component :=
  {| session := session c; topicSelectionStep := st;
     loading := loading c; showAnswer := showAnswer c;
     isOfflineMode := isOfflineMode c; history := history c |}.

Definition with_loading (b : bool) (c : Component) : Component :=
  {| session := session c; topicSelectionStep := topicSelectionStep c;
     loading := b; showAnswer := showAnswer c;
     isOfflineMode := isOfflineMode c; history := history c |}.

Definition with_showAnswer (b : bool) (c : Component) : Component :=
  {| session := session c; topicSelectionStep := topicSelectionStep c;
     loading := loading c; showAnswer := b;
     isOfflineMode := isOfflineMode c; history := history c |}.

Definition with_isOfflineMode (b : bool) (c : Component) : Component :=
  {| session := session c; topicSelectionStep := topicSelectionStep c;
     loading := loading c; showAnswer := showAnswer c;
     isOfflineMode := b; history := history c |}.

Definition with_history (h : list string) (c : Component) : Component :=
  {| session := session c; topicSelectionStep := topicSelectionStep c;
     loading := loading c; showAnswer := showAnswer c;
     isOfflineMode := isOfflineMode c; history := h |}.

Definition with_selectedTopic (t : option EquationTopic) (s : Session) : Session :=
  {| language := language s; selectedTopic := t;
     equations := equations s; currentIndex := currentIndex s;
     userCoefficients := userCoefficients s; score := score s;
     feedback := feedback s; hintMessage := hintMessage s |}.

Definition with_equations (eqs : list ChemicalEquation) (s : Session) : Session :=
  {| language := language s; selectedTopic := selectedTopic s;
     equations := eqs; currentIndex := currentIndex s;
     userCoefficients := userCoefficients s; score := score s;
     feedback := feedback s; hintMessage := hintMessage s |}.

Definition with_currentIndex (i : nat) (s : Session) : Session :=
  {| language := language s; selectedTopic := selectedTopic s;
     equations := equations s; currentIndex := i;
     userCoefficients := userCoefficients s; score := score s;
     feedback := feedback s; hintMessage := hintMessage s |}.

(** The state of the [useState] calls when the component is mounted. *)
Definition mount (lang : Language) : Component :=
  {| session := {| language := lang; selectedTopic := None; equations := [];
                   currentIndex := 0; userCoefficients := ∅; score := 0;
                   feedback := none; hintMessage := EmptyString |};
     topicSelectionStep := MAIN; loading := false; showAnswer := false;
     isOfflineMode := false; history := [] |}.

(** *** resetState, loadData, handleNext *)

Definition resetState (c : Component) : Component :=
  with_showAnswer false
    (with_session
       (with_feedback none EmptyString (with_userCoefficients ∅ (session c))) c).

(** [l.slice(-n)]: the last [n] elements, all of them when there are
    fewer. *)
Definition slice_last {A : Type} (n : nat) (l : list A) : list A :=
  drop (List.length l - n) l.

(** The signature of an equation in the history: the formulas of its
    reactants, sorted and joined with a plus sign.  The order that [sort]
    gives to texts is a parameter. *)
Definition signature (sort : list string → list string) (eq : ChemicalEquation) : string :=
  join "+" (sort (formula <$> reactants eq)).

(** [loadData] up to its [await]. *)
Definition loadData_request (c : Component) : Component :=
  match selectedTopic (session c) with
  | None => c
  | Some _ =>
      with_session (with_score 0 (with_currentIndex 0 (session c)))
        (with_loading true c)
  end.

(** [loadData] from the answer [{ data, isOffline }] of [generateEquations]
    on. *)
Definition loadData_answer (sort : list string → list string)
    (data : list ChemicalEquation) (isOffline : bool) (c : Component) : Component :=
  resetState
    (with_loading false
       (with_history (slice_last 30 (history c ++ (signature sort <$> data)))
          (with_isOfflineMode isOffline
             (with_session (with_equations data (session c)) c)))).

Definition handleNext (c : Component) : Component :=
  if bool_decide (Z.of_nat (currentIndex (session c))
                  < Z.of_nat (List.length (equations (session c))) - 1)
  then resetState
         (with_session (with_currentIndex (S (currentIndex (session c))) (session c)) c)
  else loadData_request c.

(** *** What is rendered *)

(** The four returns of the render: the topic selection, the spinner,
    nothing, or the game with the current equation. *)
Inductive View : Type :=
| TopicSelection
| Spinner
| Blank
| Game (eq : ChemicalEquation).

Definition view (c : Component) : View :=
  match selectedTopic (session c) with
  | None => TopicSelection
  | Some _ =>
      if loading c then Spinner
      else match currentEquation (session c) with
           | None => Blank
           | Some eq => Game eq
           end
  end.

(** The [id]s of the input fields of an equation. *)
Definition fieldIds (eq : ChemicalEquation) : list string :=
  imap (λ idx _, termKey "r" idx) (reactants eq)
  ++ imap (λ idx _, termKey "p" idx) (products eq).

(** [disabled={feedback === 'correct' || showAnswer}], negated; it is
    also the condition under which the buttons to give up and to check are
    rendered, and otherwise the button to go on is. *)
Definition answering (c : Component) : bool :=
  match feedback (session c) with
  | correct => false
  | _ => negb (showAnswer c)
  end.

(** The text of a feedback, as the state holds it. *)
Definition feedbackText (f : Feedback) : string :=
  match f with
  | none => "none"
  | correct => "correct"
  | incorrect => "incorrect"
  end.

(** [!feedback && !showAnswer]: the condition under which the helper text
    below the controls (an empty field counts as 1) is rendered. *)
Definition helperShown (c : Component) : bool :=
  negb (truthy (feedbackText (feedback (session c)))) && negb (showAnswer c).

(** *** Events *)

(** What can happen to a mounted component: a click on a button of the
    topic selection, the answer of the service, an edit of an input field,
    and a click on one of the buttons of the game. *)
Inductive Event : Type :=
| ClickStep (st : SelectionStep)
| ClickTopic (t : EquationTopic)
| Answer (data : list ChemicalEquation) (isOffline : bool)
| Change (id value : string)
| ClickGiveUp
| ClickCheck
| ClickNext
| ClickBack.

(** The buttons of each step of the topic selection. *)
Definition offersStep (now st : SelectionStep) : bool :=
  match now, st with
  | MAIN, GENERAL_SUB | MAIN, REDOX_SUB => true
  | GENERAL_SUB, MAIN | REDOX_SUB, MAIN => true
  | _, _ => false
  end.

Definition offersTopic (now : SelectionStep) (t : EquationTopic) : bool :=
  match now, t with
  | GENERAL_SUB, (METALS | ACIDS_BASES | FOSSIL_FUELS | EQUILIBRIUM) => true
  | REDOX_SUB, (REDOX_HALF | REDOX_FULL) => true
  | _, _ => false
  end.

(** The effect on [selectedTopic]: a new topic empties the history and
    calls [loadData]. *)
Definition selectTopic (t : EquationTopic) (c : Component) : Component :=
  loadData_request
    (with_history [] (with_session (with_selectedTopic (Some t) (session c)) c)).

(** The state after an event, or [None] when what is rendered does not
    offer it. *)
Definition handle (sort : list string → list string) (c : Component) (e : Event)
    : option Component :=
  match view c, e with
  | TopicSelection, ClickStep st =>
      if offersStep (topicSelectionStep c) st
      then Some (with_topicSelectionStep st c) else None
  | TopicSelection, ClickTopic t =>
      if offersTopic (topicSelectionStep c) t
      then Some (selectTopic t c) else None
  | Spinner, Answer data isOffline => Some (loadData_answer sort data isOffline c)
  | Game eq, Change id value =>
      if answering c && bool_decide (id ∈ fieldIds eq)
      then Some (with_session (handleCoefficientChange id value (session c)) c)
      else None
  | Game _, ClickGiveUp =>
      if answering c then Some (with_showAnswer true c) else None
  | Game _, ClickCheck =>
      if answering c then Some (with_session (checked (session c)) c) else None
  | Game _, ClickNext =>
      if answering c then None else Some (handleNext c)
  | Game _, ClickBack =>
      Some (with_topicSelectionStep MAIN
              (with_session (with_selectedTopic None (session c)) c))
  | _, _ => None
  end.

Fixpoint replay (sort : list string → list string) (c : Component) (events : list Event)
    : option Component :=
  match events with
  | [] => Some c
  | e :: events' =>
      match handle sort c e with
      | Some c' => replay sort c' events'
      | None => None
      end
  end.

(** *** Invariant *)

(** What holds of the state whatever happened since the component was
    mounted. *)
Record consistent (c : Component) : Prop := {
  index_in_range :
    currentIndex (session c) = 0%nat ∨
    (currentIndex (session c) < List.length (equations (session c)))%nat;
  correct_in_range :
    feedback (session c) = correct →
    (currentIndex (session c) < List.length (equations (session c)))%nat;
  score_bounds :
    0 ≤ score (session c) ∧
    score (session c)
    ≤ 10 * Z.of_nat (currentIndex (session c))
      + match feedback (session c) with correct => 10 | _ => 0 end;
  hint_iff_incorrect :
    hintMessage (session c) ≠ EmptyString ↔ feedback (session c) = incorrect;
  correct_not_shown :
    feedback (session c) = correct → showAnswer c = false;
  loading_fresh :
    loading c = true →
    selectedTopic (session c) ≠ None ∧ currentIndex (session c) = 0%nat ∧
    score (session c) = 0;
  history_bounded : (List.length (history c) ≤ 30)%nat;
  coefficients_valid : valid_coefficients (userCoefficients (session c))
}.

(** *** A perfect run *)

(** Typing [k] times the reference coefficient into every field of one
    side. *)
Fixpoint typing (k : Z) (side : string) (idx : nat) (terms : list EquationComponent)
    : list Event :=
  match terms with
  | [] => []
  | r :: terms' =>
      Change (termKey side idx) (pretty (k * coefficient r))
      :: typing k side (S idx) terms'
  end.

(** Typing the reference coefficients of an equation and checking. *)
Definition solve (eq : ChemicalEquation) : list Event :=
  typing 1 "r" 0 (reactants eq) ++ typing 1 "p" 0 (products eq) ++ [ClickCheck].

(** Solving every equation of a batch in turn, going on after each but the
    last. *)
Fixpoint solveAll (eqs : list ChemicalEquation) : list Event :=
  match eqs with
  | [] => []
  | [eq] => solve eq
  | eq :: eqs' => solve eq ++ ClickNext :: solveAll eqs'
  end.

(** *** Sample runs *)

(** The identity as the order of the sort. *)
Definition unsorted (l : list string) : list string := l.

(** General topics, metals, a batch with the one equation of water, and a
    right answer. *)
Definition water_run : list Event :=
  [ClickStep GENERAL_SUB; ClickTopic METALS; Answer [water] true;
   Change "r-0" "2"; Change "p-0" "2"; ClickCheck].

(** Redox, half-equations, and an answer without equation. *)
Definition empty_run : list Event :=
  [ClickStep REDOX_SUB; ClickTopic REDOX_HALF; Answer [] false].

(** Metals, and no reply of the model: the batch is the offline one. *)
Definition offline_run : list Event :=
  [ClickStep GENERAL_SUB; ClickTopic METALS].

Definition offline_batch : list ChemicalEquation :=
  fst (generateEquations None 5 METALS EN []).

(** * Properties *)

(** ** Text and character classes *)

Lemma app_String (c : ascii) (s t : string) : String c s +:+ t = String c (s +:+ t).
Proof. reflexivity. Qed.

Lemma app_empty_l (s : string) : EmptyString +:+ s = s.
Proof. reflexivity. Qed.

Lemma app_empty_r (s : string) : s +:+ EmptyString = s.
Proof. induction s as [|c s IH]; [done|]. by rewrite app_String, IH. Qed.

Lemma app_assoc_string (a b c : string) : (a +:+ b) +:+ c = a +:+ (b +:+ c).
Proof. induction a as [|x a IH]; [done|]. by rewrite !app_String, IH. Qed.

Lemma length_app_string (a b : string) :
  String.length (a +:+ b) = (String.length a + String.length b)%nat.
Proof. induction a as [|x a IH]; [done|]. rewrite app_String. simpl. by rewrite IH. Qed.

Lemma chars_app (a b : string) : chars (a +:+ b) = chars a ++ chars b.
Proof.
  induction a as [|x a IH]; [done|].
  rewrite app_String. unfold chars in *. simpl. by rewrite IH.
Qed.

Ltac each_char c := destruct c as [[] [] [] [] [] [] [] []]; try done.

Lemma is_digit_spec (c : ascii) : is_digit c = true ↔ c ∈ decimal_digits.
Proof.
  unfold decimal_digits. rewrite !elem_of_cons, elem_of_nil.
  split.
  - each_char c; intros _; naive_solver.
  - intros H. repeat (destruct H as [->|H]; [done|]). done.
Qed.

Lemma nonzero_digit_spec (c : ascii) : between 49 57 c = true ↔ c ∈ nonzero_digits.
Proof.
  unfold nonzero_digits. rewrite !elem_of_cons, elem_of_nil.
  split.
  - each_char c; intros _; naive_solver.
  - intros H. repeat (destruct H as [->|H]; [done|]). done.
Qed.

Lemma digit_not_sign (c : ascii) : is_digit c = true → is_sign c = false.
Proof. by each_char c. Qed.

Lemma digit_value_bounds (c : ascii) : is_digit c = true → 0 ≤ digit_value c ≤ 9.
Proof. each_char c; intros _; vm_compute; split; discriminate. Qed.

Lemma all_chars_Forall (p : ascii → bool) (s : string) :
  all_chars p s = true ↔ Forall (λ c, p c = true) (chars s).
Proof.
  induction s as [|c s IH]; simpl.
  - split; [constructor|done].
  - rewrite andb_true_iff, IH. unfold chars; simpl. by rewrite Forall_cons.
Qed.

Lemma all_chars_app (p : ascii → bool) (a b : string) :
  all_chars p (a +:+ b) = all_chars p a && all_chars p b.
Proof.
  induction a as [|c a IH]; [done|].
  rewrite app_String. simpl. by rewrite IH, andb_assoc.
Qed.

(** *** Greedy runs *)

Lemma span_app (p : ascii → bool) (s : string) :
  ∀ run rest, span p s = (run, rest) → s = run +:+ rest ∧ all_chars p run = true.
Proof.
  induction s as [|c s IH]; simpl; intros run rest H.
  - by inversion H.
  - destruct (p c) eqn:Hc.
    + destruct (span p s) as [run' rest'] eqn:Hs. inversion H; subst.
      destruct (IH _ _ eq_refl) as [-> Hrun]. simpl. by rewrite Hc.
    + by inversion H.
Qed.

Lemma span_exact (p : ascii → bool) (run k : string) :
  all_chars p run = true → starts_with p k = false → span p (run +:+ k) = (run, k).
Proof.
  intros Hrun Hk. induction run as [|c run IH].
  - rewrite app_empty_l. destruct k as [|c k]; [done|]. simpl in *. by rewrite Hk.
  - simpl in Hrun. apply andb_true_iff in Hrun as [Hc Hrun].
    rewrite app_String. simpl. by rewrite Hc, IH.
Qed.

Lemma span_length (p : ascii → bool) (s : string) :
  ∀ run rest, span p s = (run, rest) → (String.length rest ≤ String.length s)%nat.
Proof.
  intros run rest H. apply span_app in H as [-> _]. rewrite length_app_string. lia.
Qed.

(** *** Decimal values *)

Lemma parseInt_from_decimal (digits : string) (acc : Z) :
  all_chars is_digit digits = true →
  parseInt_from acc digits = acc * 10 ^ Z.of_nat (String.length digits) + decimal digits.
Proof.
  revert acc. induction digits as [|c ds IH]; intros acc H; simpl in *.
  - lia.
  - apply andb_true_iff in H as [Hc Hds]. rewrite Hc, IH by done.
    rewrite Nat2Z.inj_succ, Z.pow_succ_r by lia. lia.
Qed.

Lemma parseInt_from_nonneg (s : string) (acc : Z) : 0 ≤ acc → 0 ≤ parseInt_from acc s.
Proof.
  revert acc. induction s as [|c s IH]; intros acc H; simpl; [done|].
  destruct (is_digit c) eqn:Hc; [|done].
  apply IH. pose proof (digit_value_bounds c Hc). lia.
Qed.

Lemma parseInt_from_mono (s : string) (acc : Z) : 0 ≤ acc → acc ≤ parseInt_from acc s.
Proof.
  revert acc. induction s as [|c s IH]; intros acc H; simpl; [done|].
  destruct (is_digit c) eqn:Hc; [|done].
  pose proof (digit_value_bounds c Hc).
  etrans; [|apply IH]; lia.
Qed.


(** ** Numbers *)

Lemma safe_bounds (z : Z) : safe z ↔ Z.abs z < 2 ^ 53.
Proof. unfold safe, MAX_SAFE_INTEGER. lia. Qed.

(** A safe integer is a number. *)
Lemma nearest_safe (z : Z) : safe z → nearest z = Fin z.
Proof.
  intros Hz%safe_bounds. unfold nearest.
  by rewrite (proj2 (Z.ltb_lt _ _) Hz).
Qed.

Lemma nearest_not_negative (z : Z) : 0 ≤ z → not_negative (nearest z).
Proof.
  intros Hz. unfold nearest. destruct (Z.abs z <? 2 ^ 53); [done|]. cbv zeta.
  set (e := Z.log2 (Z.abs z) - 52). set (q := Z.abs z / 2 ^ e).
  set (r := Z.abs z mod 2 ^ e).
  set (q' := if (2 ^ (e - 1) <? r) || ((r =? 2 ^ (e - 1)) && Z.odd q) then q + 1 else q).
  assert (0 ≤ 2 ^ e) as Hpow.
  { destruct (Z.le_gt_cases 0 e); [by apply Z.pow_nonneg|].
    rewrite Z.pow_neg_r by done. lia. }
  assert (0 ≤ q) as Hq by (unfold q; apply Z_div_nonneg_nonneg; lia).
  assert (0 ≤ q') as Hq' by (unfold q'; destruct (_ || _); lia).
  destruct (2 ^ 1024 <=? q' * 2 ^ e); simpl; [by apply Z.ltb_ge|].
  destruct (Z.sgn_spec z) as [(? & ->)|[(? & ->)|(? & ->)]]; nia.
Qed.

(** Beyond the safe integers a number is at least 2^53 in magnitude, so a
    safe integer is the number nearest to itself only. *)
Lemma nearest_safe_inv (z c : Z) : nearest z = Fin c → safe c → z = c.
Proof.
  unfold nearest. destruct (Z.abs z <? 2 ^ 53) eqn:Ha; [by intros [= ->]|].
  apply Z.ltb_ge in Ha. cbv zeta.
  set (a := Z.abs z) in *. set (e := Z.log2 a - 52).
  set (q := a / 2 ^ e). set (r := a mod 2 ^ e).
  set (q' := if (2 ^ (e - 1) <? r) || ((r =? 2 ^ (e - 1)) && Z.odd q) then q + 1 else q).
  destruct (2 ^ 1024 <=? q' * 2 ^ e); [done|]. intros [= <-] Hc%safe_bounds.
  exfalso.
  assert (0 < a) as Hpos by lia.
  assert (53 ≤ Z.log2 a) as Hlog.
  { change 53 with (Z.log2 (2 ^ 53)). by apply Z.log2_le_mono. }
  assert (1 ≤ e) as He by (unfold e; lia).
  destruct (Z.log2_spec a Hpos) as [Hlo _].
  assert (2 ^ Z.log2 a = 2 ^ 52 * 2 ^ e) as Hsplit.
  { rewrite <- Z.pow_add_r by lia. f_equal. unfold e. lia. }
  assert (0 < 2 ^ e) as Hpe by (apply Z.pow_pos_nonneg; lia).
  assert (2 ≤ 2 ^ e) as Hpe2.
  { change 2 with (2 ^ 1) at 1. apply Z.pow_le_mono_r; lia. }
  assert (2 ^ 52 ≤ q) as Hq.
  { unfold q. rewrite <- (Z.div_mul (2 ^ 52) (2 ^ e)) by lia.
    apply Z.div_le_mono; lia. }
  assert (q ≤ q') as Hq' by (unfold q'; destruct (_ || _); lia).
  assert (2 ^ 53 ≤ q' * 2 ^ e) as Hv.
  { change (2 ^ 53) with (2 ^ 52 * 2). apply Z.mul_le_mono_nonneg; lia. }
  revert Hc. destruct (Z.sgn_spec z) as [(? & ->)|[(? & ->)|(? & ->)]]; lia.
Qed.

(** Sums and products of safe integers are exact when they are safe. *)
Lemma nadd_safe (x y : Z) : safe (x + y) → nadd (Fin x) (Fin y) = Fin (x + y).
Proof. apply nearest_safe. Qed.

Lemma nmul_safe (x y : Z) : safe (x * y) → nmul (Fin x) (Fin y) = Fin (x * y).
Proof. apply nearest_safe. Qed.

Lemma nadd_not_negative (a b : number) :
  not_negative a → not_negative b → not_negative (nadd a b).
Proof.
  destruct a as [x|s|], b as [y|t|]; simpl; try done.
  - intros. apply nearest_not_negative. lia.
  - by intros -> ->.
Qed.

Lemma nmul_not_negative (a b : number) :
  not_negative a → not_negative b → not_negative (nmul a b).
Proof.
  destruct a as [x|s|], b as [y|t|]; simpl; try done.
  - intros. apply nearest_not_negative. nia.
  - intros Hx ->. destruct (x =? 0) eqn:E; [done|]. simpl.
    apply Z.ltb_ge. lia.
  - intros -> Hy. destruct (y =? 0) eqn:E; [done|]. simpl.
    apply Z.ltb_ge. lia.
  - by intros -> ->.
Qed.

Lemma or_zero_not_negative (a : option number) :
  (∀ v, a = Some v → not_negative v) → not_negative (or_zero a).
Proof.
  intros H. destruct a as [[[| |]| |]|]; try done; by apply H.
Qed.

Lemma or_zero_Fin (z : Z) : or_zero (Some (Fin z)) = Fin z.
Proof. by destruct z. Qed.

Lemma strict_ne_Fin (x y : Z) : strict_ne (Fin x) (Fin y) = bool_decide (x ≠ y).
Proof.
  simpl. destruct (Z.eqb_spec x y).
  - by rewrite bool_decide_eq_false_2 by (by intros ?).
  - by rewrite bool_decide_eq_true_2.
Qed.

Lemma positive_Fin (x : Z) : positive (Fin x) = bool_decide (0 < x).
Proof.
  simpl. destruct (Z.ltb_spec 0 x).
  - by rewrite bool_decide_eq_true_2.
  - by rewrite bool_decide_eq_false_2 by lia.
Qed.

Lemma toString_safe (z : Z) : safe z → toString (Fin z) = pretty z.
Proof.
  intros Hz. unfold toString.
  rewrite (proj2 (Z.leb_le _ _)); [done|]. unfold safe in Hz. lia.
Qed.

(** *** parseInt *)

Lemma trim_start_digit (fuel : nat) (s : string) :
  starts_with_digit s = true → trim_start fuel s = s.
Proof.
  destruct s as [|c s]; [done|]. simpl. intros Hc.
  destruct fuel as [|fuel]; [done|]. cbn [trim_start].
  assert (omap (λ w, strip w (String c s)) white_space = []) as ->; [|done].
  revert Hc. each_char c; intros _; reflexivity.
Qed.

Lemma parseInt10_digits (s : string) :
  starts_with_digit s = true → parseInt10 s = nearest (parseInt_from 0 s).
Proof.
  intros Hs. unfold parseInt10. rewrite trim_start_digit by done.
  destruct s as [|c s]; [done|]. simpl in Hs.
  assert (bool_decide (c = "-"%char) = false ∧ bool_decide (c = "+"%char) = false)
    as [-> ->] by (revert Hs; each_char c).
  cbn [starts_with_digit]. rewrite Hs. f_equal. lia.
Qed.

Lemma parseInt10_decimal (digits : string) :
  all_chars is_digit digits = true → digits ≠ EmptyString →
  parseInt10 digits = nearest (decimal digits).
Proof.
  intros Hall Hne. rewrite parseInt10_digits.
  - rewrite parseInt_from_decimal by done. f_equal; lia.
  - destruct digits as [|c ds]; [done|]. simpl in *.
    by apply andb_true_iff in Hall as [-> _].
Qed.

Lemma positive_integer_text_digits (value : string) :
  positive_integer_text value = true →
  all_chars is_digit value = true ∧ value ≠ EmptyString ∧ 0 < decimal value.
Proof.
  destruct value as [|c rest]; [done|]. simpl. intros [Hc Hrest]%andb_true_iff.
  assert (is_digit c = true ∧ 1 ≤ digit_value c) as [Hd Hv].
  { revert Hc. each_char c; intros _; vm_compute; split; (done || discriminate). }
  rewrite Hd, Hrest. split; [done|]. split; [done|].
  pose proof (parseInt_from_decimal rest 0 Hrest) as Hrest'.
  pose proof (parseInt_from_nonneg rest 0 ltac:(lia)) as Hnn.
  assert (0 < 10 ^ Z.of_nat (String.length rest)) by (apply Z.pow_pos_nonneg; lia).
  nia.
Qed.

Lemma parseInt10_positive (value : string) :
  positive_integer_text value = true →
  parseInt10 value = nearest (decimal value) ∧ 0 < decimal value.
Proof.
  intros (Hall & Hne & Hpos)%positive_integer_text_digits.
  split; [by apply parseInt10_decimal|done].
Qed.

(** From here on sums, products and roundings are used through the lemmas
    above. *)
Arguments nearest : simpl never.
Arguments nadd : simpl never.
Arguments nmul : simpl never.

Lemma strict_ne_false (a b : number) : strict_ne a b = false → a = b.
Proof.
  destruct a as [x|s|], b as [y|t|]; simpl; try done.
  - intros H%negb_false_iff%Z.eqb_eq. by subst.
  - intros H%negb_false_iff%Bool.eqb_prop. by subst.
Qed.

Lemma strict_ne_neq (a b : number) : a ≠ b → strict_ne a b = true.
Proof.
  intros Hne. destruct (strict_ne a b) eqn:E; [done|]. by apply strict_ne_false in E.
Qed.

(** *** Decimal texts of numbers *)

Lemma pretty_N_char_digit (d : N) :
  (d < 10)%N →
  is_digit (pretty_N_char d) = true ∧ digit_value (pretty_N_char d) = Z.of_N d ∧
  ((0 < d)%N → between 49 57 (pretty_N_char d) = true).
Proof.
  intros Hd.
  assert (d = 0 ∨ d = 1 ∨ d = 2 ∨ d = 3 ∨ d = 4 ∨ d = 5 ∨ d = 6 ∨ d = 7 ∨ d = 8 ∨ d = 9)%N
    as Hcases by lia.
  repeat (destruct Hcases as [->|Hcases]; [repeat split; (done || lia)|]).
  subst d. repeat split; done.
Qed.

(** The digits that [pretty] puts in front of a digit string: the result is
    a digit string, its value is the number shifted past the old digits,
    and its first digit is not zero when the number is not. *)
Lemma pretty_N_go_decimal (x : N) :
  ∀ s, all_chars is_digit s = true →
       all_chars is_digit (pretty_N_go x s) = true ∧
       decimal (pretty_N_go x s)
       = Z.of_N x * 10 ^ Z.of_nat (String.length s) + decimal s ∧
       ((0 < x)%N → positive_integer_text (pretty_N_go x s) = true).
Proof.
  induction (N.lt_wf_0 x) as [x _ IH]. intros s Hs.
  destruct (decide (x = 0)%N) as [->|Hx].
  { rewrite pretty_N_go_0. split; [done|]. split; [lia|]. lia. }
  assert (0 < x)%N as Hpos by lia.
  rewrite pretty_N_go_step by done.
  assert (x `mod` 10 < 10)%N as Hmod by (apply N.mod_lt; lia).
  destruct (pretty_N_char_digit _ Hmod) as (Hdig & Hval & Hnz).
  assert (all_chars is_digit (String (pretty_N_char (x `mod` 10)) s) = true) as Hs'.
  { simpl. by rewrite Hdig, Hs. }
  destruct (IH (x `div` 10)%N (N.div_lt x 10 Hpos eq_refl) _ Hs') as (Hall & Hdec & Hlead).
  split; [done|]. split.
  - rewrite Hdec. cbn [decimal String.length]. rewrite Hval.
    rewrite Nat2Z.inj_succ, Z.pow_succ_r by lia.
    pose proof (N.div_mod x 10 ltac:(lia)) as Hdm.
    assert (Z.of_N x = 10 * Z.of_N (x `div` 10) + Z.of_N (x `mod` 10)) as -> by lia.
    lia.
  - intros _. destruct (decide (x `div` 10 = 0)%N) as [Hsmall|Hbig].
    + rewrite Hsmall, pretty_N_go_0. simpl. rewrite Hs, andb_true_r.
      apply Hnz. rewrite N.Div0.mod_eq.
      rewrite Hsmall. lia.
    + apply Hlead. by apply N.neq_0_lt_0.
Qed.

(** The decimal text of a positive number is a positive-integer string
    that denotes the number. *)
Lemma pretty_positive_text (n : Z) :
  0 < n →
  positive_integer_text (pretty n) = true ∧ decimal (pretty n) = n ∧
  parseInt10 (pretty n) = nearest n.
Proof.
  intros Hn. destruct n as [|p|p]; try lia.
  change (pretty (Z.pos p)) with (pretty (N.pos p)).
  unfold pretty, pretty_N. rewrite decide_False by done.
  destruct (pretty_N_go_decimal (N.pos p) EmptyString eq_refl) as (Hall & Hdec & Hlead).
  split; [apply Hlead; lia|].
  assert (decimal (pretty_N_go (N.pos p) EmptyString) = Z.pos p) as Hvalue.
  { rewrite Hdec. simpl. lia. }
  split; [done|].
  destruct (parseInt10_positive (pretty_N_go (N.pos p) EmptyString)) as [-> _];
    [apply Hlead; lia|]. by rewrite Hvalue.
Qed.

(** ** getCharge *)

Lemma split_nonempty (sep : ascii) (s : string) : split sep s ≠ [].
Proof.
  induction s as [|c s IH]; simpl; [done|].
  case_bool_decide; [done|]. by destruct (split sep s).
Qed.

Lemma split_no_sep (sep : ascii) (s : string) : sep ∉ chars s → split sep s = [s].
Proof.
  induction s as [|c s IH]; [done|].
  unfold chars in *. simpl. rewrite not_elem_of_cons. intros [Hne Hs].
  rewrite bool_decide_eq_false_2 by done. by rewrite IH.
Qed.

Lemma split_app_sep (sep : ascii) (a b : string) :
  sep ∉ chars a → split sep (a +:+ String sep b) = a :: split sep b.
Proof.
  induction a as [|c a IH].
  - intros _. rewrite app_empty_l. simpl. by rewrite bool_decide_eq_true_2.
  - unfold chars in *. simpl. rewrite not_elem_of_cons. intros [Hne Ha].
    rewrite bool_decide_eq_false_2 by done. by rewrite IH.
Qed.

Lemma charge_match_at_no_sign (s : string) :
  all_chars (λ c, negb (is_sign c)) s = true → charge_match_at s = None.
Proof.
  intros H. unfold charge_match_at.
  destruct (span is_digit s) as [ds rest] eqn:Hspan.
  apply span_app in Hspan as [-> _].
  rewrite all_chars_app in H. apply andb_true_iff in H as [_ H].
  destruct rest as [|c rest]; [done|]. simpl in H.
  apply andb_true_iff in H as [Hc _]. by apply negb_true_iff in Hc as ->.
Qed.

Lemma charge_match_no_sign (s : string) :
  all_chars (λ c, negb (is_sign c)) s = true → charge_match s = None.
Proof.
  induction s as [|c s IH]; intros H.
  - done.
  - cbn [charge_match]. rewrite charge_match_at_no_sign by done.
    apply IH. simpl in H. by apply andb_true_iff in H as [_ H].
Qed.

Lemma charge_match_bare_sign (pre post : string) (c : ascii) :
  all_chars (λ x, negb (is_sign x) && negb (is_digit x)) pre = true →
  is_sign c = true →
  charge_match (pre +:+ String c post) = Some (EmptyString, c).
Proof.
  intros Hpre Hc. induction pre as [|x pre IH].
  - rewrite app_empty_l. cbn [charge_match]. unfold charge_match_at. simpl.
    destruct (is_digit c) eqn:Hd; [|by rewrite Hc].
    apply digit_not_sign in Hd. congruence.
  - simpl in Hpre. apply andb_true_iff in Hpre as [Hx Hpre].
    apply andb_true_iff in Hx as [Hxs Hxd].
    apply negb_true_iff in Hxs, Hxd.
    rewrite app_String. cbn [charge_match]. unfold charge_match_at at 1. simpl.
    rewrite Hxd, Hxs. by apply IH.
Qed.

Lemma getCharge_of_segment (formula segment : string) :
  chargeSegment formula = Some segment →
  getCharge formula =
    match charge_match segment with
    | None => Fin 0
    | Some (digits, sign_char) =>
        let num := if truthy digits then parseInt10 digits else Fin 1 in
        let sign := if bool_decide (sign_char = "+"%char) then Fin 1 else Fin (-1) in
        nmul num sign
    end.
Proof.
  unfold chargeSegment, getCharge. intros H.
  destruct (split "^" formula) as [|p0 [|p1 parts]]; simplify_eq/=.
  by destruct (charge_match segment) as [[??]|].
Qed.

(** C5. The charge extractor: the five sample charges; without a caret the
    charge is -1 for the bare electron notations "e" and "e-" and 0 for
    everything else; a charge segment whose first sign is not preceded by
    any digit has magnitude 1 (with that sign); a charge segment without
    any sign gives 0. *)
Theorem getCharge_spec :
  getCharge "SO4^2-" = Fin (-2) ∧ getCharge "Fe^3+" = Fin 3 ∧
  getCharge "Na^+" = Fin 1 ∧ getCharge "e^-" = Fin (-1) ∧ getCharge "H2O" = Fin 0 ∧
  (∀ formula, ¬ hasCaret formula →
     getCharge formula
     = if decide (formula = "e" ∨ formula = "e-") then Fin (-1) else Fin 0) ∧
  (∀ formula segment pre sign post,
     chargeSegment formula = Some segment →
     segment = pre +:+ String sign post →
     Forall (λ c, (c ∉ decimal_digits) ∧ c ≠ "+"%char ∧ c ≠ "-"%char) (chars pre) →
     sign = "+"%char ∨ sign = "-"%char →
     getCharge formula = if decide (sign = "+"%char) then Fin 1 else Fin (-1)) ∧
  (∀ formula segment,
     chargeSegment formula = Some segment →
     Forall (λ c, c ≠ "+"%char ∧ c ≠ "-"%char) (chars segment) →
     getCharge formula = Fin 0).
Proof.
  repeat split; try reflexivity.
  - intros formula Hno. unfold getCharge, hasCaret in *.
    rewrite split_no_sep by done.
    destruct (decide _) as [[->| ->]|Hn]; [done..|].
    rewrite !bool_decide_eq_false_2 by tauto. done.
  - intros formula segment pre sign post Hseg -> Hpre Hsign.
    rewrite (getCharge_of_segment _ _ Hseg).
    rewrite charge_match_bare_sign.
    + simpl. destruct Hsign as [-> | ->]; by vm_compute.
    + apply all_chars_Forall. eapply Forall_impl; [exact Hpre|].
      intros c (Hd & Hp & Hm). simpl in *.
      apply andb_true_iff. split; apply negb_true_iff.
      * unfold is_sign. by rewrite !bool_decide_eq_false_2.
      * destruct (is_digit c) eqn:E; [|done]. by apply is_digit_spec in E.
    + unfold is_sign. destruct Hsign as [-> | ->]; done.
  - intros formula segment Hseg Hno.
    rewrite (getCharge_of_segment _ _ Hseg).
    rewrite charge_match_no_sign; [done|].
    apply all_chars_Forall. eapply Forall_impl; [exact Hno|].
    intros c [Hp Hm]. simpl. apply negb_true_iff.
    unfold is_sign. by rewrite !bool_decide_eq_false_2.
Qed.

Lemma getCharge_spec_witness :
  getCharge "Cl" = Fin 0 ∧ getCharge "Cu^x+y" = Fin 1 ∧ getCharge "Cu^two" = Fin 0.
Proof.
  destruct getCharge_spec as (_ & _ & _ & _ & _ & Hno & Hbare & Hnone).
  split; [|split].
  - rewrite (Hno "Cl"); [done|].
    unfold hasCaret. apply (bool_decide_unpack _). reflexivity.
  - rewrite (Hbare "Cu^x+y" "x+y" "x" "+"%char "y"); [done|done|done| |by left].
    apply (bool_decide_unpack _). reflexivity.
  - apply (Hnone "Cu^two" "two"); [done|].
    apply (bool_decide_unpack _). reflexivity.
Defined.

(** ** handleCoefficientChange *)

Lemma positive_integer_text_spec (value : string) :
  positive_integer_text value = true ↔ positive_integer_string value.
Proof.
  unfold positive_integer_string. destruct value as [|c rest]; simpl; [done|].
  rewrite andb_true_iff, nonzero_digit_spec, all_chars_Forall.
  fold (chars rest). apply and_iff_compat_l.
  split; intros H; (eapply Forall_impl; [exact H|]); intros d; apply is_digit_spec.
Qed.

Lemma edit_guard_spec (value : string) :
  bool_decide (value = EmptyString) || positive_integer_text value = true
  ↔ valid_entry value.
Proof.
  unfold valid_entry.
  rewrite orb_true_iff, bool_decide_eq_true, positive_integer_text_spec. done.
Qed.

Lemma valid_entry_dec (value : string) : valid_entry value ∨ ¬ valid_entry value.
Proof.
  destruct (bool_decide (value = EmptyString) || positive_integer_text value) eqn:E.
  - left. by apply edit_guard_spec.
  - right. intros H%edit_guard_spec. congruence.
Qed.

Lemma handleCoefficientChange_accepted (id value : string) (s : Session) :
  valid_entry value →
  userCoefficients (handleCoefficientChange id value s)
  = <[id := value]> (userCoefficients s).
Proof.
  intros H%edit_guard_spec. unfold handleCoefficientChange. rewrite H.
  by destruct (feedback s).
Qed.

Lemma handleCoefficientChange_rejected (id value : string) (s : Session) :
  ¬ valid_entry value → handleCoefficientChange id value s = s.
Proof.
  intros H. unfold handleCoefficientChange.
  destruct (_ || _) eqn:E; [|done]. by apply edit_guard_spec in E.
Qed.

Lemma handleCoefficientChange_valid (id value : string) (s : Session) :
  valid_coefficients (userCoefficients s) →
  valid_coefficients (userCoefficients (handleCoefficientChange id value s)).
Proof.
  intros Hs. destruct (valid_entry_dec value) as [Hv|Hv].
  - rewrite handleCoefficientChange_accepted by done.
    intros key v. rewrite lookup_insert. case_decide; [|by apply Hs].
    by intros [= <-].
  - by rewrite handleCoefficientChange_rejected.
Qed.

Lemma editAll_valid (edits : list (string * string)) (s : Session) :
  valid_coefficients (userCoefficients s) →
  valid_coefficients (userCoefficients (editAll edits s)).
Proof.
  revert s. induction edits as [|[id value] edits IH]; intros s Hs; [done|].
  apply IH. by apply handleCoefficientChange_valid.
Qed.

(** C8. The coefficient-edit boundary.  On a session whose stored
    coefficients are all empty or positive-integer strings (in particular
    on a fresh one), an edit is taken (the text is found under the key
    afterwards) exactly when the text is empty or a digit string without
    leading zero; a taken edit stores the text under the key; any other
    text leaves the whole session unchanged; and after any sequence of
    edits the stored coefficients are still all empty or positive-integer
    strings.  The function is total: it never raises. *)
Theorem handleCoefficientChange_boundary (id value : string) (s : Session) :
  valid_coefficients (userCoefficients s) →
  (userCoefficients (handleCoefficientChange id value s) !! id = Some value
   ↔ value = EmptyString ∨ positive_integer_string value) ∧
  (value = EmptyString ∨ positive_integer_string value →
   userCoefficients (handleCoefficientChange id value s)
   = <[id := value]> (userCoefficients s)) ∧
  (¬ (value = EmptyString ∨ positive_integer_string value) →
   handleCoefficientChange id value s = s) ∧
  (∀ edits, valid_coefficients (userCoefficients (editAll edits s))).
Proof.
  intros Hs. split; [|split; [|split]].
  - split.
    + intros Hlook. destruct (valid_entry_dec value) as [Hv|Hv]; [done|].
      rewrite handleCoefficientChange_rejected in Hlook by done.
      by apply Hs in Hlook.
    + intros Hv. rewrite handleCoefficientChange_accepted by done.
      apply lookup_insert_eq.
  - apply handleCoefficientChange_accepted.
  - apply handleCoefficientChange_rejected.
  - intros edits. by apply editAll_valid.
Qed.

Lemma handleCoefficientChange_boundary_witness :
  userCoefficients (handleCoefficientChange "r-0" "12" (fresh METALS water)) !! "r-0"
    = Some "12"
  ∧ handleCoefficientChange "r-0" "02" (fresh METALS water) = fresh METALS water.
Proof.
  assert (valid_coefficients (userCoefficients (fresh METALS water))) as Hv.
  { intros key value. simpl. by rewrite lookup_empty. }
  split.
  - apply (handleCoefficientChange_boundary "r-0" "12" _ Hv).
    right. unfold positive_integer_string. simpl. split.
    + apply (bool_decide_unpack _). reflexivity.
    + apply (bool_decide_unpack _). reflexivity.
  - apply (handleCoefficientChange_boundary "r-0" "02" _ Hv).
    intros [H|H]; [discriminate|].
    unfold positive_integer_string in H. simpl in H. destruct H as [H _].
    revert H. apply (bool_decide_unpack _). reflexivity.
Defined.
(** ** Records *)

Section records.
Context {V : Type}.
Implicit Types (m : list (string * V)) (el : string) (v : V).

Lemma get_None m el : get el m = None ↔ el ∉ keys m.
Proof.
  induction m as [|[k w] m IH]; simpl.
  - split; [intros _; apply not_elem_of_nil|done].
  - rewrite not_elem_of_cons. case_bool_decide; subst.
    + split; [done|]. by intros [? _].
    + rewrite IH. naive_solver.
Qed.

Lemma get_assign m el el' v :
  get el' (assign el v m) = if decide (el = el') then Some v else get el' m.
Proof.
  induction m as [|[k w] m IH]; simpl.
  - case_bool_decide; by case_decide.
  - destruct (decide (k = el)) as [->|Hk].
    + rewrite bool_decide_eq_true_2 by done. simpl.
      case_bool_decide; by case_decide.
    + rewrite (bool_decide_eq_false_2 (k = el)) by done. simpl.
      case_bool_decide; subst.
      * by rewrite decide_False.
      * apply IH.
Qed.

Lemma elem_of_keys_assign m el el' v :
  el' ∈ keys (assign el v m) ↔ el' = el ∨ el' ∈ keys m.
Proof.
  unfold keys. induction m as [|[k w] m IH]; simpl.
  - rewrite list_elem_of_singleton. split; [by left|]. intros [?|H]; [done|].
    by apply elem_of_nil in H.
  - case_bool_decide; subst; simpl; rewrite !elem_of_cons; [naive_solver|].
    rewrite IH. naive_solver.
Qed.

Lemma NoDup_keys_assign m el v : NoDup (keys m) → NoDup (keys (assign el v m)).
Proof.
  unfold keys. induction m as [|[k w] m IH]; simpl; intros Hnd.
  - apply NoDup_singleton.
  - apply NoDup_cons in Hnd as [Hk Hnd].
    case_bool_decide; subst; simpl; apply NoDup_cons; split; try done.
    + intros [?|?]%elem_of_keys_assign; done.
    + by apply IH.
Qed.

Lemma Forall_assign (P : string * V → Prop) m el v :
  Forall P m → P (el, v) → Forall P (assign el v m).
Proof.
  intros Hm Hv. induction Hm as [|[k w] m Hk Hm IH]; simpl.
  - by constructor.
  - case_bool_decide; subst; by constructor.
Qed.

End records.

(** ** Tallies *)

Section tallies.
Implicit Types (m : Tally) (el : string) (n v : Z).

Lemma count_absent m el : el ∉ keys m → count el m = 0.
Proof. intros H%get_None. unfold count. by rewrite H. Qed.

Lemma count_nil el : count el [] = 0.
Proof. reflexivity. Qed.

Lemma count_cons m k w el :
  count el ((k, w) :: m) = if decide (k = el) then w else count el m.
Proof. unfold count. simpl. case_bool_decide; by case_decide. Qed.

Lemma count_add_count m el el' n :
  count el' (add_count el n m) = count el' m + (if decide (el = el') then n else 0).
Proof.
  unfold add_count, count. rewrite get_assign. case_decide; subst; simpl; lia.
Qed.

Lemma elem_of_keys_add_count m el el' n :
  el' ∈ keys (add_count el n m) ↔ el' = el ∨ el' ∈ keys m.
Proof. apply elem_of_keys_assign. Qed.

Lemma total_nil : total [] = 0.
Proof. reflexivity. Qed.

Lemma total_cons m k w : total ((k, w) :: m) = w + total m.
Proof. reflexivity. Qed.

Lemma count_nonneg m el : Forall (λ e, e.1 ≠ EmptyString ∧ 0 ≤ e.2) m → 0 ≤ count el m.
Proof.
  induction 1 as [|[k w] m [_ Hw] _ IH]; [done|].
  rewrite count_cons. by case_decide.
Qed.

Lemma count_le_total m el :
  Forall (λ e, e.1 ≠ EmptyString ∧ 0 ≤ e.2) m → 0 ≤ count el m ≤ total m.
Proof.
  induction 1 as [|[k w] m [_ Hw] Hm IH]; [done|].
  rewrite count_cons, total_cons. simpl in Hw. case_decide; lia.
Qed.

Lemma total_nonneg m : Forall (λ e, e.1 ≠ EmptyString ∧ 0 ≤ e.2) m → 0 ≤ total m.
Proof. intros H. pose proof (count_le_total m EmptyString H). lia. Qed.

Lemma total_assign m el v : total (assign el v m) = total m - count el m + v.
Proof.
  induction m as [|[k w] m IH]; cbn [assign].
  - rewrite total_cons, total_nil, count_nil. lia.
  - rewrite count_cons. case_bool_decide; subst.
    + rewrite decide_True by done. rewrite !total_cons. lia.
    + rewrite decide_False by done. rewrite !total_cons, IH. lia.
Qed.

Lemma total_add_count m el n : total (add_count el n m) = total m + n.
Proof. unfold add_count. rewrite total_assign. lia. Qed.

Lemma tally_inv_nil : tally_inv [].
Proof. split; constructor. Qed.

Lemma tally_inv_add_count m el n :
  tally_inv m → el ≠ EmptyString → 0 ≤ n → tally_inv (add_count el n m).
Proof.
  intros [Hnd Hall] Hel Hn. split; [by apply NoDup_keys_assign|].
  apply Forall_assign; [done|]. simpl. split; [done|].
  pose proof (count_nonneg m el Hall). lia.
Qed.

Lemma tally_inv_add_scaled popped mult current :
  tally_inv popped → tally_inv current → 0 ≤ mult →
  tally_inv (add_scaled popped mult current).
Proof.
  intros [_ Hp] Hc Hm. unfold add_scaled. revert current Hc.
  induction Hp as [|[k w] p [Hk Hw] _ IH]; intros current Hc; simpl; [done|].
  apply IH. simpl in *. apply tally_inv_add_count; [done..|]. lia.
Qed.

Lemma count_add_scaled popped mult current el :
  NoDup (keys popped) →
  count el (add_scaled popped mult current)
  = count el current + count el popped * mult.
Proof.
  unfold add_scaled. revert current.
  induction popped as [|[k w] p IH]; intros current Hnd; simpl.
  - rewrite count_nil. lia.
  - unfold keys in Hnd. simpl in Hnd. apply NoDup_cons in Hnd as [Hk Hnd].
    rewrite IH by done. rewrite count_add_count, count_cons.
    case_decide; subst; [|lia].
    rewrite (count_absent p el) by done. lia.
Qed.

Lemma total_add_scaled popped mult current :
  total (add_scaled popped mult current) = total current + mult * total popped.
Proof.
  unfold add_scaled. revert current.
  induction popped as [|[k w] p IH]; intros current; cbn [fold_left].
  - rewrite total_nil. lia.
  - rewrite IH, total_add_count, total_cons. lia.
Qed.

Lemma count_add_atoms atoms coeff counts el :
  NoDup (keys atoms) → el ≠ "e" →
  count el (add_atoms atoms coeff counts)
  = count el counts + count el atoms * coeff.
Proof.
  intros Hnd Hel. unfold add_atoms. revert counts.
  induction atoms as [|[k w] p IH]; intros counts; simpl.
  - rewrite count_nil. lia.
  - unfold keys in Hnd. simpl in Hnd. apply NoDup_cons in Hnd as [Hk Hnd].
    rewrite IH by done. rewrite count_cons.
    case_bool_decide; subst.
    + rewrite decide_False by done. done.
    + rewrite count_add_count. repeat case_decide; subst; try done; try lia.
      rewrite (count_absent p el) by done. lia.
Qed.

Lemma elem_of_keys_add_atoms atoms coeff counts el :
  el ∈ keys (add_atoms atoms coeff counts) ↔
  el ∈ keys counts ∨ (el ≠ "e" ∧ el ∈ keys atoms).
Proof.
  unfold add_atoms. revert counts.
  induction atoms as [|[k w] p IH]; intros counts; simpl.
  - split; [by left|]. intros [?|[_ H]]; [done|]. by apply elem_of_nil in H.
  - rewrite IH. change (keys ((k, w) :: p)) with (k :: keys p).
    rewrite elem_of_cons.
    case_bool_decide; subst.
    + naive_solver.
    + rewrite elem_of_keys_add_count. naive_solver.
Qed.

Lemma tally_inv_add_atoms atoms coeff counts :
  tally_inv atoms → tally_inv counts → 0 ≤ coeff →
  tally_inv (add_atoms atoms coeff counts).
Proof.
  intros [_ Hp] Hc Hm. unfold add_atoms. revert counts Hc.
  induction Hp as [|[k w] p [Hk Hw] _ IH]; intros counts Hc; simpl; [done|].
  apply IH. case_bool_decide; [done|].
  simpl in *. apply tally_inv_add_count; [done..|]. lia.
Qed.

Lemma total_add_atoms atoms coeff counts :
  Forall (λ e, e.1 ≠ EmptyString ∧ 0 ≤ e.2) atoms → 0 ≤ coeff →
  total counts ≤ total (add_atoms atoms coeff counts)
  ≤ total counts + coeff * total atoms.
Proof.
  intros Hp Hc. unfold add_atoms. revert counts.
  induction Hp as [|[k w] p [Hk Hw] _ IH]; intros counts; cbn [fold_left].
  - rewrite total_nil. lia.
  - rewrite total_cons. simpl in Hw.
    case_bool_decide.
    + specialize (IH counts). nia.
    + specialize (IH (add_count k (w * coeff) counts)).
      rewrite total_add_count in IH. nia.
Qed.

End tallies.

(** ** Atom counts *)

Section atom_counts.
Implicit Types (m : AtomCount) (t : Tally) (el : string) (n : number).

Lemma elem_of_keys_bump m el el' n :
  el' ∈ keys (bump el n m) ↔ el' = el ∨ el' ∈ keys m.
Proof. apply elem_of_keys_assign. Qed.

Lemma NoDup_keys_bump m el n : NoDup (keys m) → NoDup (keys (bump el n m)).
Proof. apply NoDup_keys_assign. Qed.

Lemma get_or0_not_negative m el :
  Forall (λ e, e.1 ≠ EmptyString ∧ not_negative e.2) m → not_negative (get_or0 el m).
Proof.
  intros Hm. unfold get_or0. apply or_zero_not_negative. intros v Hv.
  induction Hm as [|[k w] m [_ Hw] _ IH]; [done|]. simpl in Hv.
  case_bool_decide; [by simplify_eq|by apply IH].
Qed.

Lemma frame_inv_nil : frame_inv [].
Proof. split; constructor. Qed.

Lemma frame_inv_bump m el n :
  frame_inv m → el ≠ EmptyString → not_negative n → frame_inv (bump el n m).
Proof.
  intros [Hnd Hall] Hel Hn. split; [by apply NoDup_keys_bump|].
  apply Forall_assign; [done|]. simpl. split; [done|].
  apply nadd_not_negative; [by apply get_or0_not_negative|done].
Qed.

Lemma frame_inv_merge_scaled popped mult current :
  frame_inv popped → frame_inv current → not_negative mult →
  frame_inv (merge_scaled popped mult current).
Proof.
  intros [_ Hp] Hc Hm. unfold merge_scaled. revert current Hc.
  induction Hp as [|[k w] p [Hk Hw] _ IH]; intros current Hc; simpl; [done|].
  apply IH. simpl in *. apply frame_inv_bump; [done..|].
  by apply nmul_not_negative.
Qed.

Lemma elem_of_keys_addAtoms atoms coeff counts el :
  el ∈ keys (addAtoms atoms coeff counts) ↔
  el ∈ keys counts ∨ (el ≠ "e" ∧ el ∈ keys atoms).
Proof.
  unfold addAtoms. revert counts.
  induction atoms as [|[k w] p IH]; intros counts; simpl.
  - split; [by left|]. intros [?|[_ H]]; [done|]. by apply elem_of_nil in H.
  - rewrite IH. change (keys ((k, w) :: p)) with (k :: keys p).
    rewrite elem_of_cons.
    case_bool_decide; subst.
    + naive_solver.
    + rewrite elem_of_keys_bump. naive_solver.
Qed.

(** *** Atom counts of integers *)

Lemma keys_exactly t : keys (exactly t) = keys t.
Proof.
  unfold keys, exactly. rewrite <- list_fmap_compose. apply list_fmap_ext.
  by intros ? [??].
Qed.

Lemma get_exactly t el : get el (exactly t) = Fin <$> get el t.
Proof.
  induction t as [|[k w] t IH]; [done|]. simpl. by case_bool_decide.
Qed.

Lemma get_or0_exactly t el : get_or0 el (exactly t) = Fin (count el t).
Proof.
  unfold get_or0, count. rewrite get_exactly.
  destruct (get el t) as [z|]; [apply or_zero_Fin|done].
Qed.

Lemma assign_exactly t el (z : Z) :
  assign el (Fin z) (exactly t) = exactly (assign el z t).
Proof.
  induction t as [|[k w] t IH]; [done|]. simpl.
  case_bool_decide; [done|]. simpl. by rewrite IH.
Qed.

Lemma exactly_inj t t' : exactly t = exactly t' → t = t'.
Proof.
  revert t'. induction t as [|[k w] t IH]; intros [|[k' w'] t']; try done.
  simpl. intros [= -> -> H]. f_equal. by apply IH.
Qed.

Lemma frame_inv_exactly t : frame_inv (exactly t) ↔ tally_inv t.
Proof.
  unfold frame_inv, tally_inv. rewrite keys_exactly. unfold exactly.
  rewrite Forall_fmap. split; intros [? H]; (split; [done|]);
    (eapply Forall_impl; [exact H|]); by intros [??].
Qed.

Lemma bump_exactly t el (z : Z) :
  safe (count el t + z) → bump el (Fin z) (exactly t) = exactly (add_count el z t).
Proof.
  intros Hs. unfold bump, add_count.
  by rewrite get_or0_exactly, nadd_safe, assign_exactly.
Qed.

Lemma merge_scaled_exactly (popped : Tally) (mult : Z) (current : Tally) :
  Forall (λ e, e.1 ≠ EmptyString ∧ 0 ≤ e.2) popped →
  Forall (λ e, e.1 ≠ EmptyString ∧ 0 ≤ e.2) current → 0 ≤ mult →
  total current + mult * total popped ≤ MAX_SAFE_INTEGER →
  merge_scaled (exactly popped) (Fin mult) (exactly current)
  = exactly (add_scaled popped mult current).
Proof.
  intros Hp. revert current. unfold merge_scaled, add_scaled.
  induction Hp as [|[k w] p [Hk Hw] Hp IH]; intros current Hc Hm Hb; [done|].
  rewrite total_cons in Hb. simpl in *.
  pose proof (total_nonneg p Hp) as Htp.
  pose proof (count_le_total current k Hc) as Hcnt.
  pose proof (total_nonneg current Hc) as Htc.
  assert (0 ≤ w * mult ≤ mult * (w + total p)) as Hwm by nia.
  rewrite nmul_safe by (unfold safe, MAX_SAFE_INTEGER in *; lia).
  rewrite bump_exactly by (unfold safe, MAX_SAFE_INTEGER in *; lia).
  apply IH; [|done|].
  - apply Forall_assign; [done|]. simpl. split; [done|lia].
  - rewrite total_add_count. lia.
Qed.

Lemma addAtoms_exactly (atoms : Tally) (coeff : Z) (counts : Tally) :
  Forall (λ e, e.1 ≠ EmptyString ∧ 0 ≤ e.2) atoms →
  Forall (λ e, e.1 ≠ EmptyString ∧ 0 ≤ e.2) counts → 0 ≤ coeff →
  total counts + coeff * total atoms ≤ MAX_SAFE_INTEGER →
  addAtoms (exactly atoms) (Fin coeff) (exactly counts)
  = exactly (add_atoms atoms coeff counts).
Proof.
  intros Hp. revert counts. unfold addAtoms, add_atoms.
  induction Hp as [|[k w] p [Hk Hw] Hp IH]; intros counts Hc Hm Hb; [done|].
  rewrite total_cons in Hb. simpl in *.
  pose proof (total_nonneg p Hp) as Htp.
  pose proof (count_le_total counts k Hc) as Hcnt.
  pose proof (total_nonneg counts Hc) as Htc.
  assert (0 ≤ w * coeff ≤ coeff * (w + total p)) as Hwm by nia.
  case_bool_decide.
  - apply IH; [done..|nia].
  - rewrite nmul_safe by (unfold safe, MAX_SAFE_INTEGER in *; lia).
    rewrite bump_exactly by (unfold safe, MAX_SAFE_INTEGER in *; lia).
    apply IH; [|done|].
    + apply Forall_assign; [done|]. simpl. split; [done|lia].
    + rewrite total_add_count. lia.
Qed.

End atom_counts.

Lemma get_or0_nil (el : string) : get_or0 el [] = Fin 0.
Proof. reflexivity. Qed.

Lemma get_or0_cons_Fin (m : AtomCount) (k : string) (w : Z) (el : string) :
  get_or0 el ((k, Fin w) :: m) = if decide (k = el) then Fin w else get_or0 el m.
Proof.
  unfold get_or0. simpl. case_bool_decide; case_decide; try done. apply or_zero_Fin.
Qed.

(** ** parseFormula: the scan *)

Lemma exec_shorter (s : string) (t : token) (rest : string) :
  exec s = Some (t, rest) → (String.length rest < String.length s)%nat.
Proof.
  revert t rest. induction s as [|c s IH]; intros t rest H; [done|].
  simpl in H.
  destruct (is_upper c).
  { destruct (span is_lower s) as [low r1] eqn:Hlow.
    destruct (span is_digit r1) as [ds r2] eqn:Hds. inversion H; subst.
    apply span_length in Hlow, Hds. simpl. lia. }
  destruct (bool_decide (c = "e"%char)).
  { destruct (span is_digit s) as [ds r2] eqn:Hds. inversion H; subst.
    apply span_length in Hds. simpl. lia. }
  destruct (bool_decide (c = "("%char)).
  { inversion H; subst. simpl. lia. }
  destruct (bool_decide (c = ")"%char)).
  { destruct (span is_digit s) as [ds r2] eqn:Hds. inversion H; subst.
    apply span_length in Hds. simpl. lia. }
  apply IH in H. simpl. lia.
Qed.

Lemma exec_element_nonempty (s : string) (el ds rest : string) :
  exec s = Some (TElement el ds, rest) → el ≠ EmptyString.
Proof.
  revert el ds rest. induction s as [|c s IH]; intros el ds rest H; [done|].
  simpl in H.
  destruct (is_upper c).
  { destruct (span is_lower s) as [low r1]. destruct (span is_digit r1) as [? r2].
    by inversion H. }
  destruct (bool_decide (c = "e"%char)).
  { destruct (span is_digit s) as [? r2]. by inversion H. }
  destruct (bool_decide (c = "("%char)); [done|].
  destruct (bool_decide (c = ")"%char)).
  { destruct (span is_digit s) as [? r2]. by inversion H. }
  by eapply IH.
Qed.

(** More fuel than the text is long is always enough: the result does not
    depend on the fuel any more. *)
Lemma run_enough (fuel fuel' : nat) (s : string) (stack : list AtomCount) :
  (String.length s < fuel)%nat → (String.length s < fuel')%nat →
  run fuel s stack = run fuel' s stack.
Proof.
  revert fuel' s stack. induction fuel as [|fuel IH]; intros fuel' s stack H H'; [lia|].
  destruct fuel' as [|fuel']; [lia|]. simpl.
  destruct (exec s) as [[t rest]|] eqn:E; [|done].
  apply exec_shorter in E.
  destruct (step t stack) as [stack'|]; [|done]. simpl.
  apply IH; lia.
Qed.

Lemma exec_digits (s : string) (t : token) (rest : string) :
  exec s = Some (t, rest) →
  match t with
  | TElement _ ds | TClose ds => all_chars is_digit ds = true
  | TOpen => True
  end.
Proof.
  revert t rest. induction s as [|c s IH]; intros t rest H; [done|].
  simpl in H.
  destruct (is_upper c).
  { destruct (span is_lower s) as [low r1]. destruct (span is_digit r1) as [ds r2] eqn:Hds.
    inversion H; subst. by apply span_app in Hds as [_ ?]. }
  destruct (bool_decide (c = "e"%char)).
  { destruct (span is_digit s) as [ds r2] eqn:Hds. inversion H; subst.
    by apply span_app in Hds as [_ ?]. }
  destruct (bool_decide (c = "("%char)); [by inversion H|].
  destruct (bool_decide (c = ")"%char)).
  { destruct (span is_digit s) as [ds r2] eqn:Hds. inversion H; subst.
    by apply span_app in Hds as [_ ?]. }
  by eapply IH.
Qed.

Lemma decimal_nonneg (digits : string) :
  all_chars is_digit digits = true → 0 ≤ decimal digits.
Proof.
  intros H. pose proof (parseInt_from_decimal digits 0 H) as E.
  pose proof (parseInt_from_nonneg digits 0 ltac:(lia)). lia.
Qed.

(** The count or multiplier read from the digits of a match is never
    negative. *)
Lemma digits_not_negative (digits : string) :
  all_chars is_digit digits = true → not_negative (parseInt10 (or_else digits "1")).
Proof.
  intros H. destruct digits as [|c ds]; [vm_compute; discriminate|].
  unfold or_else. rewrite parseInt10_decimal by done.
  apply nearest_not_negative. by apply decimal_nonneg.
Qed.

Lemma step_inv (s : string) (t : token) (rest : string) (stack stack' : list AtomCount) :
  exec s = Some (t, rest) → Forall frame_inv stack →
  step t stack = Normal stack' → Forall frame_inv stack'.
Proof.
  intros E Hst H. pose proof (exec_digits _ _ _ E) as Hds.
  destruct t as [el ds| |ds]; simpl in H.
  - apply exec_element_nonempty in E.
    destruct Hst as [|current below Hc Hb]; [done|]. inversion H; subst.
    constructor; [|done]. apply frame_inv_bump; [done..|by apply digits_not_negative].
  - inversion H; subst. constructor; [apply frame_inv_nil|done].
  - destruct Hst as [|popped rest' Hp Hr]; [by inversion H|].
    destruct Hr as [|current below Hc Hb].
    + destruct popped; by inversion H.
    + inversion H; subst. constructor; [|done].
      apply frame_inv_merge_scaled; [done..|by apply digits_not_negative].
Qed.

Lemma run_inv (fuel : nat) (s : string) (stack stack' : list AtomCount) :
  Forall frame_inv stack → run fuel s stack = Normal stack' → Forall frame_inv stack'.
Proof.
  revert s stack. induction fuel as [|fuel IH]; intros s stack Hst H; simpl in H.
  - by inversion H; subst.
  - destruct (exec s) as [[t rest]|] eqn:E; [|by inversion H; subst].
    destruct (step t stack) as [stack1|] eqn:Hstep; [|done]. simpl in H.
    eapply IH; [|exact H]. by eapply step_inv.
Qed.

(** Every frame [parseFormula] returns lists each symbol once, has no empty
    symbol and no negative count. *)
Lemma parseFormula_inv (formula : string) (m : AtomCount) :
  parseFormula formula = Normal (Some m) → frame_inv m.
Proof.
  unfold parseFormula. intros H.
  destruct (run _ _ _) as [stack|] eqn:Hrun; [|done]. simpl in H.
  apply run_inv in Hrun; [|by repeat constructor; apply frame_inv_nil].
  inversion H as [Hlast]. apply last_Some in Hlast as [l' ->].
  apply Forall_app in Hrun as [_ Hm]. by inversion Hm.
Qed.

(** ** parseFormula on well-formed formulas *)

Lemma upper_class (c : ascii) :
  is_upper c = true →
  is_lower c = false ∧ is_digit c = false ∧ c ≠ "e"%char ∧ c ≠ "^"%char ∧ c ≠ "."%char.
Proof. by each_char c. Qed.

Lemma lower_class (c : ascii) :
  is_lower c = true →
  is_upper c = false ∧ is_digit c = false ∧ c ≠ "^"%char ∧ c ≠ "."%char.
Proof. by each_char c. Qed.

Lemma digit_class (c : ascii) :
  is_digit c = true →
  is_upper c = false ∧ is_lower c = false ∧ c ≠ "^"%char ∧ c ≠ "."%char.
Proof. by each_char c. Qed.

Lemma starts_with_app (p : ascii → bool) (a k : string) :
  starts_with p (a +:+ k)
  = match a with EmptyString => starts_with p k | _ => starts_with p a end.
Proof. by destruct a. Qed.

Lemma starts_with_run (p q : ascii → bool) (run k : string) :
  (∀ c, p c = true → q c = false) → all_chars p run = true →
  starts_with q k = false → starts_with q (run +:+ k) = false.
Proof.
  intros Hpq Hrun Hk. rewrite starts_with_app. destruct run as [|c run]; [done|].
  simpl in *. apply andb_true_iff in Hrun as [Hc _]. by apply Hpq.
Qed.

Lemma is_symbol_nonempty (s : string) : is_symbol s = true → s ≠ EmptyString.
Proof. by destruct s. Qed.

Lemma quantity_parseInt (digits : string) :
  all_chars is_digit digits = true →
  parseInt10 (or_else digits "1") = nearest (quantity digits).
Proof.
  intros H. destruct digits as [|c ds]; [done|].
  unfold or_else, quantity. by apply parseInt10_decimal.
Qed.

Lemma quantity_nonneg (digits : string) :
  all_chars is_digit digits = true → 0 ≤ quantity digits.
Proof.
  intros H. destruct digits as [|c ds]; [done|]. by apply decimal_nonneg.
Qed.

Lemma mass_nonneg (t : FormulaTree) : well_formed t = true → 0 ≤ mass t.
Proof.
  induction t as [|s c r IHr|b IHb m r IHr]; cbn [well_formed mass]; [done| |].
  - intros [[_ Hc]%andb_true_iff Hr]%andb_true_iff.
    pose proof (quantity_nonneg c Hc). specialize (IHr Hr). lia.
  - intros [[Hb Hm]%andb_true_iff Hr]%andb_true_iff.
    pose proof (quantity_nonneg m Hm). specialize (IHr Hr). specialize (IHb Hb). nia.
Qed.

Lemma fill_inv (t : FormulaTree) :
  ∀ top, well_formed t = true → tally_inv top → tally_inv (fill t top).
Proof.
  induction t as [|s c r IHr|b IHb m r IHr]; intros top Hwf Htop; simpl in *.
  - done.
  - apply andb_true_iff in Hwf as [[Hs Hc]%andb_true_iff Hr].
    apply IHr; [done|]. apply tally_inv_add_count; [done| |].
    + by apply is_symbol_nonempty.
    + by apply quantity_nonneg.
  - apply andb_true_iff in Hwf as [[Hb Hm]%andb_true_iff Hr].
    apply IHr; [done|]. apply tally_inv_add_scaled; [|done|].
    + apply IHb; [done|apply tally_inv_nil].
    + by apply quantity_nonneg.
Qed.

(** The frame built for a well-formed formula holds, for each element, the
    number of its atoms in the formula. *)
Lemma count_fill (t : FormulaTree) (el : string) :
  ∀ top, well_formed t = true →
         count el (fill t top) = count el top + atomsOf el t.
Proof.
  induction t as [|s c r IHr|b IHb m r IHr]; intros top Hwf; simpl in *.
  - lia.
  - apply andb_true_iff in Hwf as [_ Hr].
    rewrite IHr, count_add_count by done. lia.
  - apply andb_true_iff in Hwf as [[Hb Hm]%andb_true_iff Hr].
    destruct (fill_inv b [] Hb tally_inv_nil) as [Hnd _].
    rewrite IHr, count_add_scaled, IHb, count_nil by done. lia.
Qed.

(** The atoms of the frame built for a formula are at most those the frame
    had and the size of the formula. *)
Lemma total_fill (t : FormulaTree) :
  ∀ top, well_formed t = true → total (fill t top) ≤ total top + mass t.
Proof.
  induction t as [|s c r IHr|b IHb m r IHr]; intros top Hwf; cbn [well_formed fill mass] in *.
  - lia.
  - apply andb_true_iff in Hwf as [_ Hr].
    specialize (IHr (add_count s (quantity c) top) Hr).
    rewrite total_add_count in IHr. lia.
  - apply andb_true_iff in Hwf as [[Hb Hm]%andb_true_iff Hr].
    specialize (IHr (add_scaled (fill b []) (quantity m) top) Hr).
    rewrite total_add_scaled in IHr.
    specialize (IHb [] Hb). rewrite total_nil in IHb.
    pose proof (quantity_nonneg m Hm). pose proof (mass_nonneg b Hb).
    destruct (fill_inv b [] Hb tally_inv_nil) as [_ Hall].
    pose proof (total_nonneg _ Hall). nia.
Qed.

Lemma exec_symbol (symbol digits k : string) :
  is_symbol symbol = true → all_chars is_digit digits = true →
  starts_with is_digit k = false →
  (digits = EmptyString → symbol ≠ "e" → starts_with is_lower k = false) →
  exec (symbol +:+ digits +:+ k) = Some (TElement symbol digits, k).
Proof.
  intros Hsym Hds Hk Hlow. destruct symbol as [|c low]; [done|].
  unfold is_symbol in Hsym. apply orb_true_iff in Hsym as [Hsym|Hsym].
  - apply andb_true_iff in Hsym as [Hc Hl].
    destruct (upper_class c Hc) as (_ & _ & Hne & _).
    rewrite app_String. cbn [exec]. rewrite Hc.
    rewrite (span_exact is_lower low (digits +:+ k)); [|done|].
    + by rewrite (span_exact is_digit digits k).
    + destruct digits as [|d ds].
      * rewrite app_empty_l. apply Hlow; [done|]. by intros [= ->].
      * simpl in Hds. apply andb_true_iff in Hds as [Hd _].
        rewrite app_String. simpl. by apply digit_class in Hd as (_ & ? & _).
  - apply bool_decide_eq_true in Hsym as [= -> ->].
    rewrite app_String, app_empty_l. cbn [exec].
    change (is_upper "e") with false. cbn iota.
    rewrite bool_decide_eq_true_2 by done.
    by rewrite (span_exact is_digit digits k).
Qed.

Lemma exec_open (k : string) : exec ("(" +:+ k) = Some (TOpen, k).
Proof. reflexivity. Qed.

Lemma exec_close (digits k : string) :
  all_chars is_digit digits = true → starts_with is_digit k = false →
  exec (")" +:+ digits +:+ k) = Some (TClose digits, k).
Proof.
  intros Hds Hk. change (")" +:+ digits +:+ k) with (String ")" (digits +:+ k)).
  cbn [exec]. change (is_upper ")") with false. cbn iota.
  rewrite bool_decide_eq_false_2 by done.
  rewrite bool_decide_eq_false_2 by done.
  rewrite bool_decide_eq_true_2 by done.
  by rewrite (span_exact is_digit digits k).
Qed.

Lemma render_start (t : FormulaTree) :
  well_formed t = true → starts_with is_digit (render t) = false.
Proof.
  destruct t as [|s c r|b m r]; [done| |done].
  simpl. intros [[Hs _]%andb_true_iff _]%andb_true_iff.
  destruct s as [|x low]; [done|].
  rewrite app_String. simpl.
  unfold is_symbol in Hs. apply orb_true_iff in Hs as [Hs|Hs].
  - apply andb_true_iff in Hs as [Hx _]. by apply upper_class in Hx as (_ & ? & _).
  - by apply bool_decide_eq_true in Hs as [= -> ->].
Qed.

Lemma run_S (fuel : nat) (s : string) (stack : list AtomCount) :
  run (S fuel) s stack
  = match exec s with
    | None => Normal stack
    | Some (t, rest) => bind (step t stack) (run fuel rest)
    end.
Proof. reflexivity. Qed.

(** The scan of a well-formed formula within the safe integers computes
    in numbers what [fill] computes in integers. *)
Lemma run_tree (t : FormulaTree) :
  ∀ (k : string) (top : Tally) (below : list AtomCount) (fuel : nat),
    well_formed t = true → reads_as_written t = true →
    starts_with is_digit k = false → starts_with is_lower k = false →
    tally_inv top → total top + mass t ≤ MAX_SAFE_INTEGER →
    run (tokens t + fuel) (render t +:+ k) (exactly top :: below)
    = run fuel k (exactly (fill t top) :: below).
Proof.
  induction t as [|s c r IHr|b IHb m r IHr];
    intros k top below fuel Hwf Hraw Hkd Hkl Htop Hsafe.
  - done.
  - cbn [well_formed reads_as_written mass] in Hwf, Hraw, Hsafe.
    apply andb_true_iff in Hwf as [[Hs Hc]%andb_true_iff Hr].
    apply andb_true_iff in Hraw as [Hbare Hrr].
    pose proof (quantity_nonneg c Hc) as Hq. pose proof (mass_nonneg r Hr) as Hmr.
    pose proof (count_le_total top s (proj2 Htop)) as Hcnt.
    cbn [render fill]. rewrite !app_assoc_string.
    change (tokens (Atom s c r) + fuel)%nat with (S (tokens r + fuel)).
    rewrite run_S, exec_symbol; [|done|done| |].
    + cbn [step bind]. rewrite quantity_parseInt by done.
      rewrite nearest_safe by (unfold safe; lia).
      rewrite bump_exactly by (unfold safe; lia).
      apply IHr; [done..| |].
      * apply tally_inv_add_count; [done| |done]. by apply is_symbol_nonempty.
      * rewrite total_add_count. lia.
    + rewrite starts_with_app. destruct (render r) eqn:E; [done|].
      rewrite <- E. by apply render_start.
    + intros -> Hne. rewrite starts_with_app.
      destruct (render r) eqn:E; [done|].
      rewrite bool_decide_eq_true_2, (bool_decide_eq_false_2 (s = "e")) in Hbare by done.
      simpl in Hbare. by apply negb_true_iff in Hbare.
  - cbn [well_formed reads_as_written mass] in Hwf, Hraw, Hsafe.
    apply andb_true_iff in Hwf as [[Hb Hm]%andb_true_iff Hr].
    apply andb_true_iff in Hraw as [Hrb Hrr].
    pose proof (quantity_nonneg m Hm) as Hq. pose proof (mass_nonneg r Hr) as Hmr.
    pose proof (mass_nonneg b Hb) as Hmb.
    pose proof (total_nonneg top (proj2 Htop)) as Htt.
    pose proof (fill_inv b [] Hb tally_inv_nil) as Hfb.
    pose proof (total_fill b [] Hb) as Htb. rewrite total_nil in Htb.
    pose proof (total_nonneg _ (proj2 Hfb)) as Htb0.
    cbn [render fill]. rewrite !app_assoc_string.
    replace (tokens (Group b m r) + fuel)%nat with (S (tokens b + S (tokens r + fuel)))
      by (simpl; lia).
    rewrite run_S, exec_open. cbn [step bind].
    change (@nil (string * number)) with (exactly []).
    rewrite IHb; [|done..|apply tally_inv_nil|rewrite total_nil; nia].
    rewrite run_S, exec_close; [|done|].
    + cbn [step bind]. rewrite quantity_parseInt by done.
      rewrite nearest_safe by (unfold safe; lia).
      rewrite merge_scaled_exactly; [|apply Hfb|apply Htop|done|nia].
      apply IHr; [done..| |].
      * by apply tally_inv_add_scaled.
      * rewrite total_add_scaled. nia.
    + rewrite starts_with_app. destruct (render r) eqn:E; [done|].
      rewrite <- E. by apply render_start.
Qed.

Lemma render_chars (t : FormulaTree) :
  well_formed t = true → ("^"%char ∉ chars (render t)) ∧ ("."%char ∉ chars (render t)).
Proof.
  assert (∀ p s, (∀ c, p c = true → c ≠ "^"%char ∧ c ≠ "."%char) →
                 all_chars p s = true →
                 ("^"%char ∉ chars s) ∧ ("."%char ∉ chars s)) as Hcls.
  { intros p s Hp. induction s as [|c s IH]; simpl.
    - intros _. split; apply not_elem_of_nil.
    - intros [Hc Hs]%andb_true_iff. destruct (IH Hs) as [? ?].
      destruct (Hp c Hc) as [? ?]. unfold chars in *. simpl.
      rewrite !not_elem_of_cons. naive_solver. }
  induction t as [|s c r IHr|b IHb m r IHr]; cbn [render well_formed].
  - intros _. split; apply not_elem_of_nil.
  - intros [[Hs Hc]%andb_true_iff Hr]%andb_true_iff.
    rewrite !chars_app, !not_elem_of_app.
    destruct (IHr Hr) as [? ?].
    destruct (Hcls is_digit c) as [? ?]; [|done|].
    { intros x Hx. by apply digit_class in Hx as (_ & _ & ? & ?). }
    assert (("^"%char ∉ chars s) ∧ ("."%char ∉ chars s)) as [? ?]; [|done].
    destruct s as [|x low]; [done|]. unfold is_symbol in Hs.
    apply orb_true_iff in Hs as [[Hx Hl]%andb_true_iff|Hs].
    + destruct (Hcls is_lower low) as [? ?]; [|done|].
      { intros y Hy. by apply lower_class in Hy as (_ & _ & ? & ?). }
      apply upper_class in Hx as (_ & _ & _ & ? & ?).
      unfold chars in *. simpl. rewrite !not_elem_of_cons. done.
    + apply bool_decide_eq_true in Hs as [= -> ->].
      split; apply (bool_decide_unpack _); reflexivity.
  - intros [[Hb Hm]%andb_true_iff Hr]%andb_true_iff.
    rewrite !chars_app, !not_elem_of_app.
    destruct (IHr Hr) as [? ?]. destruct (IHb Hb) as [? ?].
    destruct (Hcls is_digit m) as [? ?]; [|done|].
    { intros x Hx. by apply digit_class in Hx as (_ & _ & ? & ?). }
    repeat split; try done; apply (bool_decide_unpack _); reflexivity.
Qed.

Lemma remove_all_absent (c : ascii) (s : string) : c ∉ chars s → remove_all c s = s.
Proof.
  induction s as [|x s IH]; [done|].
  unfold chars in *. simpl. rewrite not_elem_of_cons. intros [Hne Hs].
  rewrite bool_decide_eq_false_2 by done. by rewrite IH.
Qed.

Lemma run_done (fuel : nat) (stack : list AtomCount) :
  run fuel EmptyString stack = Normal stack.
Proof. by destruct fuel. Qed.

Lemma parseFormula_clean (clean : string) (suffix : string) :
  "^"%char ∉ chars clean → "."%char ∉ chars clean →
  parseFormula clean = parseFormula (clean +:+ String "^" suffix).
Proof.
  intros Hc Hd. unfold parseFormula.
  by rewrite split_no_sep, split_app_sep.
Qed.

Lemma parseFormula_render (t : FormulaTree) :
  well_formed t = true → reads_as_written t = true → mass t ≤ MAX_SAFE_INTEGER →
  parseFormula (render t) = Normal (Some (exactly (fill t []))).
Proof.
  intros Hwf Hraw Hsafe. destruct (render_chars t Hwf) as [Hcaret Hdot].
  unfold parseFormula. rewrite split_no_sep by done. cbn [hd].
  rewrite remove_all_absent by done.
  rewrite (run_enough _ (tokens t + S (String.length (render t)))) by lia.
  rewrite <- (app_empty_r (render t)) at 2.
  change [[]] with [exactly []].
  rewrite run_tree; [|done..|apply tally_inv_nil|by rewrite total_nil].
  by rewrite run_done.
Qed.

(** *** The reading of a text *)

Lemma is_symbol_cases (s : string) :
  is_symbol s = true → (upper_symbol s = true ∧ s ≠ "e") ∨ s = "e".
Proof.
  destruct s as [|c low]; [done|]. unfold is_symbol, upper_symbol.
  intros [H|H]%orb_true_iff; [left|right; by apply bool_decide_eq_true in H].
  split; [done|]. apply andb_true_iff in H as [Hc _].
  apply upper_class in Hc as (_ & _ & Hne & _). by intros [= -> _].
Qed.

Lemma upper_symbol_is_symbol (s : string) : upper_symbol s = true → is_symbol s = true.
Proof.
  destruct s as [|c low]; [done|]. unfold is_symbol, upper_symbol. by intros ->.
Qed.

Lemma upper_symbol_e (s : string) :
  upper_symbol s = true → upper_symbol (s +:+ "e") = true.
Proof.
  destruct s as [|c low]; [done|]. rewrite app_String. unfold upper_symbol.
  intros [-> Hlow]%andb_true_iff. by rewrite all_chars_app, Hlow.
Qed.

Lemma upper_symbol_start (s k : string) :
  upper_symbol s = true → starts_with is_lower (s +:+ k) = false.
Proof.
  destruct s as [|c low]; [done|]. rewrite app_String. unfold upper_symbol. simpl.
  intros [Hc _]%andb_true_iff. by apply upper_class in Hc as (? & _).
Qed.

Lemma render_absorb (r : FormulaTree) :
  ∀ s, render (absorb s r) = s +:+ render r.
Proof.
  induction r as [|s2 d r IHr|b _ m r _]; intros s; cbn [absorb]; [done| |done].
  case_bool_decide as Hs2; [|done]. subst s2.
  case_bool_decide as Hd.
  - subst d. rewrite IHr. cbn [render]. by rewrite app_assoc_string.
  - cbn [render]. by rewrite app_assoc_string.
Qed.

Lemma render_as_read (t : FormulaTree) : render (as_read t) = render t.
Proof.
  induction t as [|s c r IHr|b IHb m r IHr]; cbn [as_read]; [done| |].
  - destruct (_ && _) eqn:E.
    + apply andb_true_iff in E as [->%bool_decide_eq_true _].
      by rewrite render_absorb, IHr.
    + cbn [render]. by rewrite IHr.
  - cbn [render]. by rewrite IHb, IHr.
Qed.

Lemma absorb_well_formed (r : FormulaTree) :
  ∀ s, upper_symbol s = true → well_formed r = true →
       well_formed (absorb s r) = true ∧
       (reads_as_written r = true → reads_as_written (absorb s r) = true).
Proof.
  induction r as [|s2 d r IHr|b _ m r _]; intros s Hs Hwf; cbn [absorb].
  - cbn [well_formed reads_as_written render]. simpl.
    by rewrite (upper_symbol_is_symbol s Hs), !orb_true_r.
  - cbn [well_formed] in Hwf.
    apply andb_true_iff in Hwf as [[Hs2 Hd]%andb_true_iff Hr].
    case_bool_decide as He.
    + subst s2. case_bool_decide as Hd0.
      * intros. destruct (IHr (s +:+ "e") (upper_symbol_e s Hs) Hr) as [? Hraw].
        split; [done|]. cbn [reads_as_written]. intros [_ ?]%andb_true_iff. by apply Hraw.
      * cbn [well_formed reads_as_written].
        rewrite (upper_symbol_is_symbol _ (upper_symbol_e s Hs)), Hd, Hr.
        split; [done|]. intros [_ ->]%andb_true_iff.
        by rewrite (bool_decide_eq_false_2 (d = EmptyString)).
    + cbn [well_formed reads_as_written].
      rewrite (upper_symbol_is_symbol s Hs), Hs2, Hd, Hr. split; [done|].
      intros ->. rewrite andb_true_r.
      destruct (is_symbol_cases s2 Hs2) as [[Hup _]|?]; [|done].
      cbn [render]. rewrite (upper_symbol_start s2 _ Hup).
      by rewrite !orb_true_r.
  - split.
    + cbn [well_formed] in *. by rewrite (upper_symbol_is_symbol s Hs), Hwf.
    + intros Hraw. cbn [reads_as_written] in *. rewrite Hraw.
      cbn [render]. simpl. by rewrite orb_true_r.
Qed.

Lemma as_read_well_formed (t : FormulaTree) :
  well_formed t = true →
  well_formed (as_read t) = true ∧ reads_as_written (as_read t) = true.
Proof.
  induction t as [|s c r IHr|b IHb m r IHr]; cbn [as_read well_formed]; [done| |].
  - intros [[Hs Hc]%andb_true_iff Hr]%andb_true_iff.
    destruct (IHr Hr) as [Hwf Hraw].
    destruct (_ && _) eqn:E.
    + apply andb_true_iff in E as [_ Hne%negb_true_iff%bool_decide_eq_false].
      destruct (is_symbol_cases s Hs) as [[Hup _]|?]; [|done].
      destruct (absorb_well_formed (as_read r) s Hup Hwf) as [? Hr']. auto.
    + cbn [well_formed reads_as_written]. rewrite Hs, Hc, Hwf, Hraw.
      split; [done|]. rewrite andb_true_r.
      apply andb_false_iff in E as [E|E].
      * by rewrite E.
      * apply negb_false_iff in E. rewrite E. by rewrite orb_true_r.
  - intros [[Hb Hm]%andb_true_iff Hr]%andb_true_iff.
    destruct (IHb Hb) as [? ?], (IHr Hr) as [? ?].
    cbn [well_formed reads_as_written]. by rewrite Hm, !andb_true_iff.
Qed.

Lemma as_read_written (t : FormulaTree) :
  reads_as_written t = true → as_read t = t.
Proof.
  induction t as [|s c r IHr|b IHb m r IHr]; cbn [as_read reads_as_written]; [done| |].
  - intros [Hbare Hr]%andb_true_iff. rewrite (IHr Hr).
    destruct (_ && _) eqn:E; [|done].
    apply andb_true_iff in E as [Hc Hs]. apply negb_true_iff in Hs.
    rewrite Hc, Hs in Hbare. simpl in Hbare. apply negb_true_iff in Hbare.
    apply bool_decide_eq_true in Hc as ->.
    destruct r as [|s2 d r'|]; cbn [absorb]; [done| |done].
    destruct (decide (s2 = "e")) as [->|He].
    + cbn [render] in Hbare. by rewrite app_String in Hbare.
    + by rewrite bool_decide_eq_false_2.
  - intros [Hb Hr]%andb_true_iff. by rewrite (IHb Hb), (IHr Hr).
Qed.

Lemma mass_absorb (r : FormulaTree) : ∀ s, mass (absorb s r) ≤ 1 + mass r.
Proof.
  induction r as [|s2 d r IHr|b _ m r _]; intros s; cbn [absorb]; [done| |done].
  case_bool_decide as Hs2; [|done].
  case_bool_decide as Hd; [|cbn [mass]; lia].
  subst d. specialize (IHr (s +:+ "e")). cbn [mass quantity]. lia.
Qed.

(** The items a text is read as are no larger than the items written. *)
Lemma mass_as_read (t : FormulaTree) : mass (as_read t) ≤ mass t.
Proof.
  induction t as [|s c r IHr|b IHb m r IHr]; cbn [as_read]; [done| |].
  - destruct (_ && _) eqn:E.
    + apply andb_true_iff in E as [->%bool_decide_eq_true _].
      pose proof (mass_absorb (as_read r) s). cbn [mass quantity]. lia.
    + cbn [mass]. lia.
  - cbn [mass]. nia.
Qed.

(** C1, as amended.  The formula parser: [parseFormula "Ca(OH)2"] is Ca 1,
    O 2, H 2 and [parseFormula "Fe2(SO4)3"] is Fe 2, S 3, O 12; no count of
    any returned map is negative; and for every formula made of element and
    group items only, with or without a charge suffix, whose size (its
    counts and multipliers, multiplied out and added up) is a safe integer,
    the parser returns a map of integers that lists each symbol once and
    gives each element the number of its atoms in the formula, where the
    contents of a group count multiplied by the group's multiplier and are
    added to what surrounds the group.  The items are those the text is
    read as, which are the items written unless a symbol without count is
    directly followed by the electron symbol. *)
Theorem parseFormula_counts :
  parseFormula "Ca(OH)2" = Normal (Some [("Ca", Fin 1); ("O", Fin 2); ("H", Fin 2)]) ∧
  parseFormula "Fe2(SO4)3" = Normal (Some [("Fe", Fin 2); ("S", Fin 3); ("O", Fin 12)]) ∧
  (∀ formula m, parseFormula formula = Normal (Some m) →
                Forall (λ e, not_negative e.2) m) ∧
  (∀ t charge,
     well_formed t = true → mass t ≤ MAX_SAFE_INTEGER →
     well_formed (as_read t) = true ∧ render (as_read t) = render t ∧
     (reads_as_written t = true → as_read t = t) ∧
     ∃ m : Tally,
       parseFormula (render t) = Normal (Some (exactly m)) ∧
       parseFormula (render t +:+ String "^" charge) = Normal (Some (exactly m)) ∧
       NoDup (keys m) ∧
       Forall (λ e, 0 ≤ e.2) m ∧
       ∀ el, count el m = atomsOf el (as_read t)).
Proof.
  split; [reflexivity|]. split; [reflexivity|]. split.
  - intros formula m [_ H]%parseFormula_inv.
    eapply Forall_impl; [exact H|]. by intros e [_ ?].
  - intros t charge Hwf Hsafe.
    destruct (as_read_well_formed t Hwf) as [Hwf' Hraw].
    split; [done|]. split; [apply render_as_read|]. split; [apply as_read_written|].
    exists (fill (as_read t) []).
    pose proof (mass_as_read t) as Hmass.
    pose proof (parseFormula_render _ Hwf' Hraw ltac:(lia)) as Hparse.
    destruct (render_chars _ Hwf') as [Hcaret Hdot].
    destruct (fill_inv _ [] Hwf' tally_inv_nil) as [Hnd Hall].
    rewrite render_as_read in *.
    repeat split.
    + done.
    + by rewrite <- parseFormula_clean.
    + done.
    + eapply Forall_impl; [exact Hall|]. by intros e [_ ?].
    + intros el. by rewrite count_fill, count_nil.
Qed.

Lemma parseFormula_counts_witness :
  ∃ m : Tally,
    parseFormula (render slaked_lime) = Normal (Some (exactly m)) ∧
    parseFormula (render slaked_lime +:+ String "^" "2+") = Normal (Some (exactly m)) ∧
    NoDup (keys m) ∧
    Forall (λ e, 0 ≤ e.2) m ∧
    ∀ el, count el m = atomsOf el slaked_lime.
Proof.
  destruct parseFormula_counts as (_ & _ & _ & H).
  destruct (H slaked_lime "2+") as (_ & _ & _ & Hm); [reflexivity|vm_compute; discriminate|].
  exact Hm.
Defined.

(** C1, as stated, fails beyond the safe integers: the formula H with the
    count 9007199254740993 (2^53 + 1) is made of one valid element token
    and has that many atoms of H, but the parser returns the count
    9007199254740992, the number nearest to it. *)
Lemma parseFormula_rounds_large_count :
  well_formed heavy_hydrogen = true ∧
  reads_as_written heavy_hydrogen = true ∧
  render heavy_hydrogen = "H9007199254740993" ∧
  atomsOf "H" heavy_hydrogen = 9007199254740993 ∧
  parseFormula (render heavy_hydrogen) = Normal (Some [("H", Fin 9007199254740992)]) ∧
  ¬ counted_exactly heavy_hydrogen.
Proof.
  split; [reflexivity|]. split; [reflexivity|]. split; [reflexivity|].
  split; [reflexivity|].
  assert (parseFormula (render heavy_hydrogen)
          = Normal (Some (exactly [("H", 9007199254740992)]))) as Hparse
    by (vm_compute; reflexivity).
  split; [exact Hparse|].
  intros (m & Hm & Hcount). rewrite Hparse in Hm.
  injection Hm as Hm. apply (exactly_inj [("H", 9007199254740992)]) in Hm. subst m.
  specialize (Hcount "H"). vm_compute in Hcount. discriminate.
Qed.

(** Beyond the largest number a count is an infinity, and an infinity
    multiplied by 0 is not a number at all: the count of H in
    (H1000...0)0, with 309 zeros, is NaN. *)
Lemma parseFormula_count_not_a_number :
  parseFormula ("(H1" +:+ zeros 309 +:+ ")0") = Normal (Some [("H", NaN)]).
Proof. vm_compute. reflexivity. Qed.

(** C4. An unmatched closing parenthesis is not tolerated: it pops the base
    frame, after which the merge of a non-empty popped frame, or the next
    element, reads a property of [undefined] and a [TypeError] is thrown;
    when the popped base frame is empty and nothing follows, the parser
    returns [undefined] instead of a map, and [checkAnswer] then throws on
    it.  The other malformed inputs are tolerated: the contents of a group
    that is never closed are dropped, and unrecognised characters are
    skipped. *)
Theorem parseFormula_unmatched_close :
  parseFormula "H)" = Throw_TypeError ∧
  parseFormula ")H" = Throw_TypeError ∧
  parseFormula ")" = Normal None ∧
  checkAnswer (fresh METALS {| reactants := [term "H)" 1]; products := [term "H" 1];
                               difficulty := easy |}) = Throw_TypeError ∧
  checkAnswer (fresh METALS {| reactants := [term ")" 1]; products := [];
                               difficulty := easy |}) = Throw_TypeError ∧
  parseFormula "H(O" = Normal (Some [("H", Fin 1)]) ∧
  parseFormula "H?2 O#" = Normal (Some [("H", Fin 1); ("O", Fin 1)]).
Proof. repeat split; reflexivity. Qed.
(** ** checkAnswer: the totals *)

Lemma elem_of_uniq_from (seen l : list string) (x : string) :
  x ∈ uniq_from seen l ↔ x ∈ l ∧ x ∉ seen.
Proof.
  revert seen. induction l as [|y l IH]; intros seen; simpl.
  - rewrite elem_of_nil. naive_solver.
  - case_bool_decide.
    + rewrite IH, elem_of_cons. naive_solver.
    + rewrite !elem_of_cons, IH, not_elem_of_cons.
      destruct (decide (x = y)); naive_solver.
Qed.

Lemma elem_of_uniq (l : list string) (x : string) : x ∈ uniq l ↔ x ∈ l.
Proof.
  unfold uniq. rewrite elem_of_uniq_from. pose proof (not_elem_of_nil x). naive_solver.
Qed.

(** *** The coefficient of a term *)

Lemma userCoefficient_resolved (uc : gmap string string) (side : string) (idx : nat) :
  valid_coefficients uc →
  userCoefficient uc side idx = nearest (resolved uc side idx) ∧
  0 < resolved uc side idx.
Proof.
  intros Hv. unfold userCoefficient, resolved.
  destruct (uc !! termKey side idx) as [value|] eqn:E; [|done].
  apply Hv in E as [->|Hpos]; [done|].
  apply positive_integer_text_spec in Hpos. rewrite Hpos. simpl.
  destruct (parseInt10_positive _ Hpos) as [Hvalue Hgt].
  assert (or_else value "1" = value) as -> by (by destruct value).
  done.
Qed.

Lemma userCoefficient_safe (uc : gmap string string) (side : string) (idx : nat) :
  valid_coefficients uc → resolved uc side idx ≤ MAX_SAFE_INTEGER →
  userCoefficient uc side idx = Fin (resolved uc side idx).
Proof.
  intros Hv Hle. destruct (userCoefficient_resolved uc side idx Hv) as [-> Hpos].
  apply nearest_safe. unfold safe, MAX_SAFE_INTEGER in *. lia.
Qed.

Lemma sideAtoms_ext (c c' : nat → Z) (el : string) (terms : list EquationComponent) :
  ∀ idx, (∀ i, c i = c' i) → sideAtoms c el idx terms = sideAtoms c' el idx terms.
Proof.
  induction terms as [|r terms IH]; intros idx H; simpl; [done|].
  by rewrite H, (IH _ H).
Qed.

Lemma sideCharge_ext (c c' : nat → Z) (terms : list EquationComponent) :
  ∀ idx, (∀ i, c i = c' i) → sideCharge c idx terms = sideCharge c' idx terms.
Proof.
  induction terms as [|r terms IH]; intros idx H; simpl; [done|].
  by rewrite H, (IH _ H).
Qed.

(** *** What holds of every report *)

(** The elements of a side that was summed: those it had, and the symbols
    of the formulas other than "e"; none of them is empty. *)
Lemma sumTerms_keys (uc : gmap string string) (side : string)
    (terms : list EquationComponent) :
  ∀ idx counts charge counts' charge',
    sumTerms uc side idx terms counts charge = Normal (counts', charge') →
    Forall (λ el, el ≠ EmptyString ∧ el ≠ "e") (keys counts) →
    Forall (λ el, el ≠ EmptyString ∧ el ≠ "e") (keys counts').
Proof.
  induction terms as [|r terms IH]; intros idx counts charge counts' charge' H Hk.
  - by injection H as <- <-.
  - cbn [sumTerms] in H.
    destruct (parseFormula (formula r)) as [[atoms|]|] eqn:E; try done.
    cbn [bind] in H. eapply IH; [exact H|].
    apply parseFormula_inv in E as [_ Hatoms].
    apply Forall_forall. intros el [Hin|[Hne Hin]]%elem_of_keys_addAtoms.
    + rewrite Forall_forall in Hk. by apply Hk.
    + split; [|done]. apply list_elem_of_fmap in Hin as ([k v] & -> & Hkv).
      rewrite Forall_forall in Hatoms. by apply (Hatoms _ Hkv).
Qed.

Lemma evaluate_inv (eq : ChemicalEquation) (uc : gmap string string) (b : Balance) :
  evaluate eq uc = Normal b →
  sumTerms uc "r" 0 (reactants eq) [] (Fin 0) = Normal (rCounts b, totalChargeL b) ∧
  sumTerms uc "p" 0 (products eq) [] (Fin 0) = Normal (pCounts b, totalChargeR b) ∧
  unbalancedDetails b
  = findUnbalanced (rCounts b) (pCounts b) (uniq (keys (rCounts b) ++ keys (pCounts b))).
Proof.
  unfold evaluate. intros H.
  destruct (sumTerms uc "r" 0 (reactants eq) [] (Fin 0)) as [[rc cl]|]; [|done].
  cbn [bind] in H.
  destruct (sumTerms uc "p" 0 (products eq) [] (Fin 0)) as [[pc cr]|]; [|done].
  cbn [bind] in H. by injection H as <-.
Qed.

Lemma findUnbalanced_elements (rc pc : AtomCount) (all : list string) (d : Detail) :
  d ∈ findUnbalanced rc pc all →
  element d ∈ all ∧ left d = get_or0 (element d) rc ∧
  right d = get_or0 (element d) pc ∧ strict_ne (left d) (right d) = true.
Proof.
  induction all as [|el all IH]; simpl; [by intros ?%elem_of_nil|].
  destruct (strict_ne (get_or0 el rc) (get_or0 el pc)) eqn:Hne.
  - rewrite elem_of_cons. intros [->|Hd]; simpl.
    + repeat split; [apply list_elem_of_here|done].
    + destruct (IH Hd) as (? & ? & ? & ?). repeat split; try done.
      by apply list_elem_of_further.
  - intros Hd. destruct (IH Hd) as (? & ? & ? & ?). repeat split; try done.
    by apply list_elem_of_further.
Qed.

Lemma findUnbalanced_complete (rc pc : AtomCount) (all : list string) (el : string) :
  el ∈ all → strict_ne (get_or0 el rc) (get_or0 el pc) = true →
  {| element := el; left := get_or0 el rc; right := get_or0 el pc |}
  ∈ findUnbalanced rc pc all.
Proof.
  intros Hin Hne. induction all as [|x all IH]; [by apply elem_of_nil in Hin|].
  simpl. apply elem_of_cons in Hin as [<-|Hin].
  - rewrite Hne. apply list_elem_of_here.
  - destruct (strict_ne (get_or0 x rc) (get_or0 x pc));
      [apply list_elem_of_further|]; by apply IH.
Qed.

Lemma findUnbalanced_nil (rc pc : AtomCount) (all : list string) :
  findUnbalanced rc pc all = [] ↔
  ∀ el, el ∈ all → strict_ne (get_or0 el rc) (get_or0 el pc) = false.
Proof.
  induction all as [|el all IH]; simpl.
  - split; [|done]. by intros _ el ?%elem_of_nil.
  - destruct (strict_ne (get_or0 el rc) (get_or0 el pc)) eqn:Hne.
    + split; [done|]. intros H. rewrite H in Hne; [done|apply list_elem_of_here].
    + rewrite IH. split.
      * intros H x [->|?]%elem_of_cons; [done|by apply H].
      * intros H x Hx. by apply H, list_elem_of_further.
Qed.

(** The pseudo-element "e" is on neither side of a report and is never
    reported unbalanced; no element of a report has an empty name. *)
Lemma evaluate_elements (eq : ChemicalEquation) (uc : gmap string string) (b : Balance) :
  evaluate eq uc = Normal b →
  Forall (λ el, el ≠ EmptyString ∧ el ≠ "e") (keys (rCounts b)) ∧
  Forall (λ el, el ≠ EmptyString ∧ el ≠ "e") (keys (pCounts b)) ∧
  Forall (λ el, el ≠ EmptyString ∧ el ≠ "e") (unbalancedElementsList b).
Proof.
  intros (Hr & Hp & Hun)%evaluate_inv.
  apply sumTerms_keys in Hr; [|constructor]. apply sumTerms_keys in Hp; [|constructor].
  split; [done|]. split; [done|].
  unfold unbalancedElementsList. rewrite Hun. apply Forall_forall.
  intros el (d & -> & Hd)%list_elem_of_fmap.
  apply findUnbalanced_elements in Hd as (Hin & _).
  rewrite Forall_forall in Hr, Hp.
  apply elem_of_uniq, elem_of_app in Hin as [Hin|Hin]; [by apply Hr|by apply Hp].
Qed.

(** *** Within the safe integers *)

Lemma total_exactly (m : Tally) : foldr (λ e acc, integer e.2 + acc) 0 (exactly m) = total m.
Proof.
  induction m as [|[k w] m IH]; [done|]. rewrite total_cons, <- IH. reflexivity.
Qed.

Lemma parses_atoms (formula : string) :
  parses formula →
  ∃ (atoms : Tally) (q : Z),
    parseFormula formula = Normal (Some (exactly atoms)) ∧ getCharge formula = Fin q ∧
    tally_inv atoms ∧ atomTotal formula = total atoms ∧ chargeOf formula = q ∧
    ∀ el, atomCount formula el = count el atoms.
Proof.
  intros [[atoms Hatoms] [q Hq]]. exists atoms, q.
  split; [done|]. split; [done|].
  split; [by apply frame_inv_exactly, (parseFormula_inv formula)|].
  unfold atomTotal, chargeOf, atomCount. rewrite Hatoms, Hq.
  split; [apply total_exactly|]. split; [done|].
  intros el. by rewrite get_or0_exactly.
Qed.

Lemma atomTotal_nonneg (formula : string) : 0 ≤ atomTotal formula.
Proof.
  unfold atomTotal. destruct (parseFormula formula) as [[m|]|] eqn:E; try done.
  apply parseFormula_inv in E as [_ Hm].
  induction Hm as [|[k w] m [_ Hw] _ IH]; [done|]. simpl in *.
  destruct w as [z| |]; simpl in *; lia.
Qed.

Lemma sideLoad_nonneg (c : nat → Z) (terms : list EquationComponent) :
  ∀ idx, (∀ i, 0 < c i) → 0 ≤ sideLoad c idx terms.
Proof.
  induction terms as [|r terms IH]; intros idx Hc; simpl; [done|].
  specialize (IH (S idx) Hc). specialize (Hc idx).
  pose proof (atomTotal_nonneg (formula r)). nia.
Qed.

(** No coefficient of a side is larger than the size of the side. *)
Lemma sideLoad_coefficient (c : nat → Z) (terms : list EquationComponent) :
  ∀ idx i r, (∀ i, 0 < c i) → terms !! i = Some r →
             c (idx + i)%nat ≤ sideLoad c idx terms.
Proof.
  induction terms as [|r terms IH]; intros idx i r' Hc Hi; [done|].
  cbn [sideLoad]. pose proof (atomTotal_nonneg (formula r)).
  pose proof (sideLoad_nonneg c terms (S idx) Hc).
  destruct i as [|i].
  - rewrite Nat.add_0_r. specialize (Hc idx). nia.
  - rewrite <- Nat.add_succ_comm. specialize (IH (S idx) i r' Hc Hi).
    specialize (Hc idx). nia.
Qed.

(** One side of the equation, in integers. *)
Lemma sumTerms_exact (uc : gmap string string) (side : string)
    (terms : list EquationComponent) :
  valid_coefficients uc →
  ∀ idx (counts : Tally) (charge : Z),
    Forall (λ r, parses (formula r)) terms →
    tally_inv counts →
    total counts + Z.abs charge + sideLoad (resolved uc side) idx terms
    ≤ MAX_SAFE_INTEGER →
    ∃ counts' : Tally,
      sumTerms uc side idx terms (exactly counts) (Fin charge)
      = Normal (exactly counts', Fin (charge + sideCharge (resolved uc side) idx terms)) ∧
      tally_inv counts' ∧
      ∀ el, el ≠ "e" →
            count el counts'
            = count el counts + sideAtoms (resolved uc side) el idx terms.
Proof.
  intros Hv.
  assert (∀ i, 0 < resolved uc side i) as Hpos
    by (intros i; by apply userCoefficient_resolved).
  induction terms as [|r terms IH]; intros idx counts charge Hp Hinv Hsafe.
  - exists counts. simpl. rewrite Z.add_0_r.
    split; [done|]. split; [done|]. intros el _. lia.
  - apply Forall_cons in Hp as [Hr Hp].
    destruct (parses_atoms _ Hr) as (atoms & q & Hatoms & Hq & Hainv & Htotal & Hcharge & Hcount).
    cbn [sumTerms sideLoad] in *. rewrite Hatoms, Hq, Htotal, Hcharge in *. cbn [bind].
    pose proof (Hpos idx) as Hc.
    pose proof (total_nonneg atoms (proj2 Hainv)) as Hta.
    pose proof (total_nonneg counts (proj2 Hinv)) as Htc.
    pose proof (sideLoad_nonneg (resolved uc side) terms (S idx) Hpos) as Hrest.
    set (c := resolved uc side idx) in *.
    assert (c ≤ c * (1 + total atoms + Z.abs q)) as Hc1 by nia.
    assert (Z.abs (c * q) = c * Z.abs q) as Hcq by (rewrite Z.abs_mul; lia).
    assert (c * total atoms + c * Z.abs q + c = c * (1 + total atoms + Z.abs q))
      as Hsplit by lia.
    assert (0 ≤ c * total atoms) as Hca by nia.
    assert (0 ≤ c * Z.abs q) as Hcq0 by nia.
    rewrite userCoefficient_safe by (done || (fold c; lia)). fold c.
    rewrite addAtoms_exactly; [|apply Hainv|apply Hinv|lia|lia].
    rewrite nmul_safe by (apply safe_bounds; unfold MAX_SAFE_INTEGER in *; lia).
    rewrite nadd_safe by (apply safe_bounds; unfold MAX_SAFE_INTEGER in *; lia).
    pose proof (total_add_atoms atoms c counts (proj2 Hainv) ltac:(lia)) as Htot.
    destruct (IH (S idx) (add_atoms atoms c counts) (charge + c * q))
      as (counts' & Hsum & Hinv' & Hget); [done| |lia|].
    + apply tally_inv_add_atoms; [done..|lia].
    + exists counts'. rewrite Hsum. split; [|split; [done|]].
      * cbn [sideCharge]. rewrite Hcharge. fold c. do 3 f_equal. lia.
      * intros el Hel. rewrite Hget by done.
        rewrite count_add_atoms by (done || apply Hainv).
        cbn [sideAtoms]. rewrite Hcount. fold c. lia.
Qed.

Lemma findUnbalanced_exactly (rc pc : Tally) (all : list string) (d : Detail) :
  d ∈ findUnbalanced (exactly rc) (exactly pc) all ↔
  element d ∈ all ∧ left d = Fin (count (element d) rc) ∧
  right d = Fin (count (element d) pc) ∧ count (element d) rc ≠ count (element d) pc.
Proof.
  split.
  - intros (Hin & Hl & Hr & Hne)%findUnbalanced_elements.
    rewrite get_or0_exactly in Hl, Hr. rewrite Hl, Hr, strict_ne_Fin in Hne.
    by apply bool_decide_eq_true in Hne.
  - intros (Hin & Hl & Hr & Hne). destruct d as [el l r]. simpl in *. subst l r.
    rewrite <- !get_or0_exactly. apply findUnbalanced_complete; [done|].
    rewrite !get_or0_exactly, strict_ne_Fin. by apply bool_decide_eq_true.
Qed.

Lemma findUnbalanced_exactly_nil (rc pc : Tally) (all : list string) :
  findUnbalanced (exactly rc) (exactly pc) all = [] ↔
  ∀ el, el ∈ all → count el rc = count el pc.
Proof.
  rewrite findUnbalanced_nil. split; intros H el Hel; specialize (H el Hel).
  - rewrite !get_or0_exactly, strict_ne_Fin in H.
    apply bool_decide_eq_false in H. by destruct (decide (count el rc = count el pc)).
  - rewrite !get_or0_exactly, strict_ne_Fin. apply bool_decide_eq_false. by intros ?.
Qed.

(** The report of an evaluation within the safe integers, in terms of the
    resolved coefficients. *)
Lemma evaluate_exact (eq : ChemicalEquation) (uc : gmap string string) :
  valid_coefficients uc →
  Forall (λ r, parses (formula r)) (reactants eq ++ products eq) →
  within_safe (resolved uc "r") (resolved uc "p") eq →
  ∃ (b : Balance) (rc pc : Tally),
    evaluate eq uc = Normal b ∧
    rCounts b = exactly rc ∧ pCounts b = exactly pc ∧
    tally_inv rc ∧ tally_inv pc ∧
    (∀ el, el ≠ "e" → count el rc = sideAtoms (resolved uc "r") el 0 (reactants eq)) ∧
    (∀ el, el ≠ "e" → count el pc = sideAtoms (resolved uc "p") el 0 (products eq)) ∧
    totalChargeL b = Fin (sideCharge (resolved uc "r") 0 (reactants eq)) ∧
    totalChargeR b = Fin (sideCharge (resolved uc "p") 0 (products eq)) ∧
    unbalancedDetails b
    = findUnbalanced (exactly rc) (exactly pc) (uniq (keys rc ++ keys pc)).
Proof.
  intros Hv [Hr Hp]%Forall_app [Hsr Hsp]. unfold evaluate.
  change (@nil (string * number)) with (exactly []).
  destruct (sumTerms_exact uc "r" (reactants eq) Hv 0 [] 0 Hr tally_inv_nil)
    as (rc & -> & Hrinv & Hrget); [by rewrite total_nil|].
  destruct (sumTerms_exact uc "p" (products eq) Hv 0 [] 0 Hp tally_inv_nil)
    as (pc & -> & Hpinv & Hpget); [by rewrite total_nil|].
  cbn [bind]. eexists _, rc, pc. split; [done|]. simpl.
  rewrite !keys_exactly.
  split; [done|]. split; [done|]. split; [done|]. split; [done|].
  split; [|split; [|done]].
  - intros el Hel. by rewrite Hrget, count_nil.
  - intros el Hel. by rewrite Hpget, count_nil.
Qed.

(** *** Sample data *)

Lemma as_tally_exactly (m : AtomCount) (t : Tally) : as_tally m = Some t → m = exactly t.
Proof.
  revert t. induction m as [|[k [z| |]] m IH]; intros t; simpl; try done.
  - by intros [= <-].
  - destruct (as_tally m) as [t'|]; [|done]. simpl. intros [= <-].
    by rewrite (IH t').
Qed.

Lemma parsesb_parses (formula : string) : parsesb formula = true → parses formula.
Proof.
  unfold parsesb, parses.
  destruct (parseFormula formula) as [[m|]|]; try done.
  destruct (getCharge formula) as [q| |]; try done.
  intros [t Ht]%bool_decide_eq_true. apply as_tally_exactly in Ht as ->.
  split; by eexists.
Qed.

Lemma atomCount_exactly (formula : string) (m : Tally) (el : string) :
  parseFormula formula = Normal (Some (exactly m)) → atomCount formula el = count el m.
Proof. intros H. unfold atomCount. by rewrite H, get_or0_exactly. Qed.

Lemma valid_coefficients_empty : valid_coefficients ∅.
Proof. intros key value. by rewrite lookup_empty. Qed.

Lemma valid_coefficients_insert (uc : gmap string string) (key value : string) :
  valid_entry value → valid_coefficients uc → valid_coefficients (<[key := value]> uc).
Proof.
  intros Hvalue Huc k v. rewrite lookup_insert. case_decide; [|by apply Huc].
  by intros [= <-].
Qed.

Lemma valid_entry_text (value : string) :
  bool_decide (value = EmptyString) || positive_integer_text value = true →
  valid_entry value.
Proof. apply edit_guard_spec. Qed.

Ltac valid_entries :=
  repeat apply valid_coefficients_insert; try apply valid_coefficients_empty;
  by apply valid_entry_text.

Ltac all_parse :=
  simpl; repeat (apply Forall_cons; split; [by apply parsesb_parses|]); done.

Lemma water_parses :
  Forall (λ r, parses (formula r)) (reactants water ++ products water).
Proof. all_parse. Qed.

Lemma water_entries_valid : valid_coefficients water_entries.
Proof. valid_entries. Qed.

Lemma iron_half_parses :
  Forall (λ r, parses (formula r)) (reactants iron_half ++ products iron_half).
Proof. all_parse. Qed.

Lemma two_electrons_valid : valid_coefficients two_electrons.
Proof. valid_entries. Qed.

Lemma trihydrogen_parses :
  Forall (λ r, parses (formula r)) (reactants trihydrogen ++ products trihydrogen).
Proof. all_parse. Qed.

Lemma trihydrogen_scaled_valid : valid_coefficients trihydrogen_scaled.
Proof. valid_entries. Qed.

Lemma large_entry_valid : valid_coefficients large_entry.
Proof. valid_entries. Qed.

(** C2, as amended.  The balance evaluator, for coefficients that are
    absent, empty or positive-integer strings.  The coefficient the code
    uses for a term is the number nearest to the integer its text denotes
    (1 when absent or empty), which is that integer when it is a safe
    integer.  In every report the pseudo-element "e" is on neither side's
    list of elements and is never reported unbalanced.  An electron term
    ("e", "e-" or "e^-") has the charge -1 and no atoms of any element
    other than "e".  When every formula has atom counts and a charge in
    integers and the evaluation stays within the safe integers, evaluation
    returns a report in which each side's count of every element other
    than "e" is the sum over the side's terms of coefficient times the
    formula's atoms and each side's charge is the sum over its terms of
    coefficient times the formula's charge (electron terms included). *)
Theorem evaluate_totals (eq : ChemicalEquation) (uc : gmap string string) :
  valid_coefficients uc →
  (∀ side idx,
     0 < resolved uc side idx ∧
     userCoefficient uc side idx = nearest (resolved uc side idx) ∧
     (resolved uc side idx ≤ MAX_SAFE_INTEGER →
      userCoefficient uc side idx = Fin (resolved uc side idx))) ∧
  (∀ side idx n,
     0 < n ≤ MAX_SAFE_INTEGER → uc !! termKey side idx = Some (pretty n) →
     userCoefficient uc side idx = Fin n) ∧
  (∀ side idx,
     uc !! termKey side idx = None ∨ uc !! termKey side idx = Some EmptyString →
     userCoefficient uc side idx = Fin 1) ∧
  (∀ b, evaluate eq uc = Normal b →
        ("e" ∉ keys (rCounts b)) ∧ ("e" ∉ keys (pCounts b)) ∧
        ("e" ∉ unbalancedElementsList b)) ∧
  (∀ electron, electron ∈ ["e"; "e-"; "e^-"] →
     parses electron ∧ getCharge electron = Fin (-1) ∧
     ∀ el, el ≠ "e" → atomCount electron el = 0) ∧
  (Forall (λ r, parses (formula r)) (reactants eq ++ products eq) →
   within_safe (resolved uc "r") (resolved uc "p") eq →
   ∃ (b : Balance) (rc pc : Tally),
     evaluate eq uc = Normal b ∧
     rCounts b = exactly rc ∧ pCounts b = exactly pc ∧
     (∀ el, el ≠ "e" → count el rc = sideAtoms (resolved uc "r") el 0 (reactants eq)) ∧
     (∀ el, el ≠ "e" → count el pc = sideAtoms (resolved uc "p") el 0 (products eq)) ∧
     totalChargeL b = Fin (sideCharge (resolved uc "r") 0 (reactants eq)) ∧
     totalChargeR b = Fin (sideCharge (resolved uc "p") 0 (products eq))).
Proof.
  intros Hv. split; [|split; [|split; [|split; [|split]]]].
  - intros side idx. destruct (userCoefficient_resolved uc side idx Hv) as [Hn Hpos].
    split; [done|]. split; [done|]. by apply userCoefficient_safe.
  - intros side idx n [Hn Hle] Hlook. unfold userCoefficient. rewrite Hlook. simpl.
    destruct (pretty_positive_text n Hn) as (Htext & _ & Hvalue).
    assert (or_else (pretty n) "1" = pretty n) as -> by (by destruct (pretty n)).
    rewrite Hvalue. apply nearest_safe. unfold safe. lia.
  - intros side idx [Hlook|Hlook]; unfold userCoefficient; by rewrite Hlook.
  - intros b (Hr & Hp & Hun)%evaluate_elements.
    rewrite Forall_forall in Hr, Hp, Hun.
    repeat split; intros Hin; [apply Hr in Hin|apply Hp in Hin|apply Hun in Hin];
      by destruct Hin.
  - intros electron Hin.
    assert (electron = "e" ∨ electron = "e-" ∨ electron = "e^-") as [->|[->| ->]].
    { rewrite !elem_of_cons, elem_of_nil in Hin. tauto. }
    all: split; [by apply parsesb_parses|]; split; [reflexivity|].
    all: intros el Hel; rewrite (atomCount_exactly _ [("e", 1)]) by reflexivity;
      rewrite count_cons, count_nil; by rewrite decide_False.
  - intros Hp Hsafe.
    destruct (evaluate_exact eq uc Hv Hp Hsafe)
      as (b & rc & pc & Hb & Hrc & Hpc & _ & _ & Hr & Hpr & Hcl & Hcr & _).
    by exists b, rc, pc.
Qed.

(** Fe^2+ -> Fe^3+ + 2 e^-: the electrons count in the charge of the right
    side, 3 - 2, and not among its atoms. *)
Lemma evaluate_totals_witness :
  ∃ b, evaluate iron_half two_electrons = Normal b ∧
       rCounts b = [("Fe", Fin 1)] ∧ pCounts b = [("Fe", Fin 1)] ∧
       ("e" ∉ keys (pCounts b)) ∧
       totalChargeL b = Fin 2 ∧ totalChargeR b = Fin 1.
Proof.
  destruct (evaluate_totals iron_half two_electrons two_electrons_valid)
    as (_ & _ & _ & He & _ & H).
  destruct (H iron_half_parses) as (b & rc & pc & Hb & Hrc & Hpc & _ & _ & Hl & Hr).
  { vm_compute. split; discriminate. }
  exists b. split; [exact Hb|].
  destruct (He b Hb) as (_ & Hpe & _).
  assert (Normal b = evaluate iron_half two_electrons) as Hb' by done.
  vm_compute in Hb'. injection Hb' as ->.
  repeat split; try reflexivity. exact Hpe.
Defined.

(** C2, as stated, fails in two ways.  A coefficient beyond the safe
    integers is not resolved to its integer value: the text
    9007199254740993 is read as 9007199254740992, and the totals follow
    it.  And not every list of terms has totals: on a term with an
    unmatched closing parenthesis the evaluation throws. *)
Lemma coefficient_beyond_safe_is_rounded :
  valid_coefficients large_entry ∧
  resolved large_entry "r" 0 = 9007199254740993 ∧
  userCoefficient large_entry "r" 0 = Fin 9007199254740992 ∧
  sideCharge (resolved large_entry "r") 0 (reactants hydron) = 9007199254740993 ∧
  (∃ b, evaluate hydron large_entry = Normal b ∧
        totalChargeL b = Fin 9007199254740992) ∧
  valid_coefficients ∅ ∧
  evaluate {| reactants := [term "H)" 1]; products := [term "H" 1]; difficulty := easy |} ∅
  = Throw_TypeError.
Proof.
  split; [apply large_entry_valid|]. split; [reflexivity|]. split; [reflexivity|].
  split; [reflexivity|]. split; [eexists; split; reflexivity|].
  split; [apply valid_coefficients_empty|reflexivity].
Qed.
(** ** checkAnswer: the comparison with the reference coefficients *)

Lemma matchTerms_spec (uc : gmap string string) (side : string)
    (terms : list EquationComponent) :
  ∀ idx acc,
    matchTerms uc side idx terms acc = true ↔
    acc = true ∧
    ∀ i r, terms !! i = Some r →
           strict_ne (userCoefficient uc side (idx + i)) (nearest (coefficient r)) = false.
Proof.
  induction terms as [|r terms IH]; intros idx acc; cbn [matchTerms].
  - split; [|by intros [? _]]. intros ->. split; [done|]. by intros i r ?.
  - rewrite IH. split.
    + intros [Hacc Hrest].
      destruct (strict_ne (userCoefficient uc side idx) (nearest (coefficient r)))
        eqn:Hne; [done|].
      split; [done|]. intros [|i] r'; simpl.
      * intros [= <-]. by rewrite Nat.add_0_r.
      * intros Hi. rewrite <- Nat.add_succ_comm. by apply Hrest.
    + intros [-> Hall]. split.
      * pose proof (Hall 0%nat r eq_refl) as H0. rewrite Nat.add_0_r in H0.
        by rewrite H0.
      * intros i r' Hi. rewrite Nat.add_succ_comm. by apply Hall.
Qed.

Lemma isExactMatch_spec (eq : ChemicalEquation) (uc : gmap string string) :
  isExactMatch eq uc = true ↔
  (∀ i r, reactants eq !! i = Some r →
          strict_ne (userCoefficient uc "r" i) (nearest (coefficient r)) = false) ∧
  (∀ i r, products eq !! i = Some r →
          strict_ne (userCoefficient uc "p" i) (nearest (coefficient r)) = false).
Proof.
  unfold isExactMatch. rewrite !matchTerms_spec. simpl. naive_solver.
Qed.

(** A safe coefficient matches the reference exactly when it is the
    reference. *)
Lemma coefficient_matches (uc : gmap string string) (side : string) (idx : nat) (c : Z) :
  valid_coefficients uc → resolved uc side idx ≤ MAX_SAFE_INTEGER →
  strict_ne (userCoefficient uc side idx) (nearest c) = false ↔
  resolved uc side idx = c.
Proof.
  intros Hv Hle. rewrite userCoefficient_safe by done.
  assert (safe (resolved uc side idx)) as Hsafe.
  { destruct (userCoefficient_resolved uc side idx Hv) as [_ Hpos].
    unfold safe, MAX_SAFE_INTEGER in *. lia. }
  split.
  - intros H%strict_ne_false. symmetry in H. symmetry. by apply nearest_safe_inv in H.
  - intros <-. rewrite nearest_safe, strict_ne_Fin by done.
    by apply bool_decide_eq_false; intros ?.
Qed.

Lemma resolved_le (uc : gmap string string) (side : string)
    (terms : list EquationComponent) (i : nat) (r : EquationComponent) :
  valid_coefficients uc → terms !! i = Some r →
  sideLoad (resolved uc side) 0 terms ≤ MAX_SAFE_INTEGER →
  resolved uc side i ≤ MAX_SAFE_INTEGER.
Proof.
  intros Hv Hi Hle.
  assert (∀ i, 0 < resolved uc side i) as Hpos
    by (intros j; by apply userCoefficient_resolved).
  pose proof (sideLoad_coefficient (resolved uc side) terms 0 i r Hpos Hi). simpl in *. lia.
Qed.

Lemma isExactMatch_entered (eq : ChemicalEquation) (uc : gmap string string) :
  valid_coefficients uc → within_safe (resolved uc "r") (resolved uc "p") eq →
  isExactMatch eq uc = true ↔ entered 1 eq uc.
Proof.
  intros Hv [Hsr Hsp]. rewrite isExactMatch_spec. unfold entered.
  split; intros [Hr Hp]; split; intros i r Hi.
  - rewrite Z.mul_1_l. apply coefficient_matches; [done|by eapply resolved_le|by apply Hr].
  - rewrite Z.mul_1_l. apply coefficient_matches; [done|by eapply resolved_le|by apply Hp].
  - apply coefficient_matches; [done|by eapply resolved_le|]. rewrite (Hr i r Hi). lia.
  - apply coefficient_matches; [done|by eapply resolved_le|]. rewrite (Hp i r Hi). lia.
Qed.

Lemma sideAtoms_scaled (c c' : nat → Z) (k : Z) (el : string)
    (terms : list EquationComponent) :
  ∀ idx, (∀ i r, terms !! i = Some r → c (idx + i)%nat = k * c' (idx + i)%nat) →
         sideAtoms c el idx terms = k * sideAtoms c' el idx terms.
Proof.
  induction terms as [|r terms IH]; intros idx H; simpl; [lia|].
  rewrite IH.
  - specialize (H 0%nat r eq_refl). rewrite Nat.add_0_r in H. rewrite H. lia.
  - intros i r' Hi. rewrite !Nat.add_succ_comm. by apply (H (S i) r').
Qed.

Lemma sideCharge_scaled (c c' : nat → Z) (k : Z) (terms : list EquationComponent) :
  ∀ idx, (∀ i r, terms !! i = Some r → c (idx + i)%nat = k * c' (idx + i)%nat) →
         sideCharge c idx terms = k * sideCharge c' idx terms.
Proof.
  induction terms as [|r terms IH]; intros idx H; simpl; [lia|].
  rewrite IH.
  - specialize (H 0%nat r eq_refl). rewrite Nat.add_0_r in H. rewrite H. lia.
  - intros i r' Hi. rewrite !Nat.add_succ_comm. by apply (H (S i) r').
Qed.

Lemma reference_lookup (terms : list EquationComponent) (i : nat) (r : EquationComponent) :
  terms !! i = Some r → reference terms i = coefficient r.
Proof. unfold reference. by intros ->. Qed.

(** The outcome of a check whose report is balanced in atoms and charge. *)
Lemma checkAnswer_balanced (s : Session) (eq : ChemicalEquation) (b : Balance) :
  currentEquation s = Some eq →
  evaluate eq (userCoefficients s) = Normal b →
  unbalancedDetails b = [] → strict_ne (totalChargeL b) (totalChargeR b) = false →
  checkAnswer s
  = Normal (if isExactMatch eq (userCoefficients s)
            then with_feedback correct EmptyString (with_score (score s + 10) s)
            else with_feedback incorrect (simplestRatioMsg (is_ZH (language s))) s).
Proof.
  intros Heq Hb Hun Hch. unfold checkAnswer. rewrite Heq, Hb. cbn [bind].
  unfold unbalanced. rewrite Hun. cbn [fmap list_fmap]. rewrite Hch.
  by destruct (isExactMatch _ _).
Qed.

(** Coefficients that are the same multiple of the reference coefficients
    of a well-formed equation balance atoms and charge, within the safe
    integers. *)
Lemma entered_balanced (k : Z) (eq : ChemicalEquation) (uc : gmap string string) :
  well_formed_equation eq → valid_coefficients uc → entered k eq uc →
  within_safe (resolved uc "r") (resolved uc "p") eq →
  ∃ b q, evaluate eq uc = Normal b ∧ unbalancedDetails b = [] ∧
         totalChargeL b = Fin q ∧ totalChargeR b = Fin q.
Proof.
  intros (Hterms & Hatoms & Hcharge & _) Hv [Hr Hp] Hsafe.
  assert (Forall (λ r, parses (formula r)) (reactants eq ++ products eq)) as Hparse.
  { eapply Forall_impl; [exact Hterms|]. by intros r [? _]. }
  destruct (evaluate_exact eq uc Hv Hparse Hsafe)
    as (b & rc & pc & Hb & Hrc & Hpc & Hrinv & Hpinv & Hl & Hrr & Hcl & Hcr & Hun).
  exists b, (sideCharge (resolved uc "r") 0 (reactants eq)). split; [done|].
  assert (∀ el, sideAtoms (resolved uc "r") el 0 (reactants eq)
                = k * sideAtoms (reference (reactants eq)) el 0 (reactants eq)) as Hsl.
  { intros el. apply sideAtoms_scaled. intros i r Hi. simpl.
    by rewrite (reference_lookup _ _ _ Hi), (Hr i r Hi). }
  assert (∀ el, sideAtoms (resolved uc "p") el 0 (products eq)
                = k * sideAtoms (reference (products eq)) el 0 (products eq)) as Hsr.
  { intros el. apply sideAtoms_scaled. intros i r Hi. simpl.
    by rewrite (reference_lookup _ _ _ Hi), (Hp i r Hi). }
  pose proof (evaluate_elements _ _ _ Hb) as (Hre & Hpe & _).
  rewrite Hrc, Hpc, !keys_exactly in *. rewrite Forall_forall in Hre, Hpe.
  split; [|split; [done|]].
  - rewrite Hun. apply findUnbalanced_exactly_nil.
    intros el [Hin|Hin]%elem_of_uniq%elem_of_app.
    + destruct (Hre el Hin) as [_ Hne]. by rewrite Hl, Hrr, Hsl, Hsr, Hatoms.
    + destruct (Hpe el Hin) as [_ Hne]. by rewrite Hl, Hrr, Hsl, Hsr, Hatoms.
  - rewrite Hcr. f_equal.
    rewrite (sideCharge_scaled (resolved uc "r") (reference (reactants eq)) k).
    + rewrite (sideCharge_scaled (resolved uc "p") (reference (products eq)) k).
      * by rewrite Hcharge.
      * intros i r Hi. simpl. by rewrite (reference_lookup _ _ _ Hi), (Hp i r Hi).
    + intros i r Hi. simpl. by rewrite (reference_lookup _ _ _ Hi), (Hr i r Hi).
Qed.

(** A proper multiple of the reference coefficients is not the reference. *)
Lemma entered_multiple_not_exact (k : Z) (eq : ChemicalEquation)
    (uc : gmap string string) :
  well_formed_equation eq → 1 < k → entered k eq uc → ¬ entered 1 eq uc.
Proof.
  intros (Hterms & _ & _ & Hmin) Hk [Hr Hp] [Hr1 Hp1].
  apply (Hmin 2); [lia|].
  apply Forall_app. split; apply Forall_lookup; intros i r Hi; exfalso.
  - assert (0 < coefficient r) as Hpos.
    { apply Forall_app in Hterms as [Hterms _].
      by eapply (Forall_lookup_1 _ _ _ _ Hterms Hi). }
    specialize (Hr i r Hi). specialize (Hr1 i r Hi). nia.
  - assert (0 < coefficient r) as Hpos.
    { apply Forall_app in Hterms as [_ Hterms].
      by eapply (Forall_lookup_1 _ _ _ _ Hterms Hi). }
    specialize (Hp i r Hi). specialize (Hp1 i r Hi). nia.
Qed.

(** C3, as amended.  The match classifier, for coefficients that are
    absent, empty or positive-integer strings and an evaluation that stays
    within the safe integers.  On a report balanced in atoms and charge the
    check succeeds (EXACT: feedback [correct], ten points, no hint) if and
    only if every term's resolved coefficient equals its reference
    coefficient, and otherwise (SCALED) answers [incorrect] with the
    simplest-ratio message.  For a well-formed equation, entering the
    reference coefficients gives no unbalanced element, equal charges and
    EXACT; entering every reference coefficient times the same k > 1 gives
    no unbalanced element and equal charges as well, but SCALED. *)
Theorem classify_exact_or_scaled (s : Session) (eq : ChemicalEquation) :
  currentEquation s = Some eq →
  valid_coefficients (userCoefficients s) →
  within_safe (resolved (userCoefficients s) "r") (resolved (userCoefficients s) "p") eq →
  (∀ b, evaluate eq (userCoefficients s) = Normal b →
        unbalancedDetails b = [] →
        strict_ne (totalChargeL b) (totalChargeR b) = false →
        ∃ s', checkAnswer s = Normal s' ∧
              (feedback s' = correct ↔ entered 1 eq (userCoefficients s)) ∧
              (entered 1 eq (userCoefficients s) →
               hintMessage s' = EmptyString ∧ score s' = score s + 10) ∧
              (¬ entered 1 eq (userCoefficients s) →
               feedback s' = incorrect ∧ score s' = score s ∧
               hintMessage s' = simplestRatioMsg (is_ZH (language s)))) ∧
  (well_formed_equation eq →
   ∀ k, (k = 1 ∨ 1 < k) → entered k eq (userCoefficients s) →
        ∃ b q s', evaluate eq (userCoefficients s) = Normal b ∧
                  unbalancedDetails b = [] ∧
                  totalChargeL b = Fin q ∧ totalChargeR b = Fin q ∧
                  checkAnswer s = Normal s' ∧
                  (k = 1 → feedback s' = correct) ∧
                  (1 < k → feedback s' = incorrect ∧
                           hintMessage s' = simplestRatioMsg (is_ZH (language s)))).
Proof.
  intros Heq Hv Hsafe.
  assert (∀ b, evaluate eq (userCoefficients s) = Normal b →
        unbalancedDetails b = [] →
        strict_ne (totalChargeL b) (totalChargeR b) = false →
        ∃ s', checkAnswer s = Normal s' ∧
              (feedback s' = correct ↔ entered 1 eq (userCoefficients s)) ∧
              (entered 1 eq (userCoefficients s) →
               hintMessage s' = EmptyString ∧ score s' = score s + 10) ∧
              (¬ entered 1 eq (userCoefficients s) →
               feedback s' = incorrect ∧ score s' = score s ∧
               hintMessage s' = simplestRatioMsg (is_ZH (language s)))) as Hclassify.
  { intros b Hb Hun Hch. eexists. split; [by eapply checkAnswer_balanced|].
    pose proof (isExactMatch_entered eq _ Hv Hsafe) as Hexact.
    destruct (isExactMatch eq (userCoefficients s)); simpl.
    - assert (entered 1 eq (userCoefficients s)) by (by apply Hexact).
      split; [done|]. split; [done|]. done.
    - assert (¬ entered 1 eq (userCoefficients s)) as Hn.
      { intros H. by apply Hexact in H. }
      split; [split; [done|by intros ?]|]. split; [done|]. done. }
  split; [exact Hclassify|].
  intros Hwf k Hk Hent.
  destruct (entered_balanced k eq _ Hwf Hv Hent Hsafe) as (b & q & Hb & Hun & Hcl & Hcr).
  destruct (Hclassify b Hb Hun) as (s' & Hs' & Hiff & _ & Hscaled).
  { rewrite Hcl, Hcr, strict_ne_Fin. by apply bool_decide_eq_false; intros ?. }
  exists b, q, s'. repeat (split; [done|]). split.
  - intros ->. by apply Hiff.
  - intros Hgt. destruct Hscaled as (? & _ & ?); [|done].
    by eapply entered_multiple_not_exact.
Qed.

Ltac parse_all :=
  repeat match goal with
         | |- context [parseFormula ?f] =>
             let v := eval vm_compute in (parseFormula f) in
             change (parseFormula f) with v
         end.

Ltac reference_all :=
  repeat match goal with
         | |- context [reference ?l ?i] =>
             let v := eval vm_compute in (reference l i) in
             change (reference l i) with v
         end.

Ltac within_safe_integers := vm_compute; split; discriminate.

Lemma water_well_formed : well_formed_equation water.
Proof.
  split; [|split; [|split]].
  - simpl. repeat (apply Forall_cons; split; [split; [by apply parsesb_parses|done]|]).
    done.
  - intros el _. cbn [sideAtoms water reactants products term formula].
    unfold atomCount. parse_all. cbv beta iota.
    rewrite ?get_or0_cons_Fin, ?get_or0_nil.
    reference_all.
    repeat case_decide; simplify_eq; simpl; lia.
  - reflexivity.
  - intros d Hd H. apply Forall_app in H as [H _].
    apply Forall_cons in H as [_ H]. apply Forall_cons in H as [H _].
    simpl in H. apply Z.divide_1_r in H. lia.
Qed.

Lemma water_entries_entered : entered 1 water water_entries.
Proof.
  split; intros [|[|i]] r; simpl; intros [= <-]; reflexivity.
Qed.

Lemma water_doubled_valid : valid_coefficients water_doubled.
Proof. valid_entries. Qed.

Lemma water_doubled_entered : entered 2 water water_doubled.
Proof.
  split; intros [|[|i]] r; simpl; intros [= <-]; reflexivity.
Qed.

Lemma classify_exact_or_scaled_witness :
  (∃ b q s', evaluate water water_entries = Normal b ∧ unbalancedDetails b = [] ∧
             totalChargeL b = Fin q ∧ totalChargeR b = Fin q ∧
             checkAnswer (entering water_entries (fresh METALS water)) = Normal s' ∧
             feedback s' = correct) ∧
  (∃ b q s', evaluate water water_doubled = Normal b ∧ unbalancedDetails b = [] ∧
             totalChargeL b = Fin q ∧ totalChargeR b = Fin q ∧
             checkAnswer (entering water_doubled (fresh METALS water)) = Normal s' ∧
             feedback s' = incorrect ∧
             hintMessage s' = "Balanced, but please use simplest whole number ratios.").
Proof.
  split.
  - destruct (classify_exact_or_scaled (entering water_entries (fresh METALS water))
                water eq_refl water_entries_valid) as [_ H]; [within_safe_integers|].
    destruct (H water_well_formed 1 (or_introl eq_refl) water_entries_entered)
      as (b & q & s' & Hb & Hun & Hcl & Hcr & Hs' & Hexact & _).
    exists b, q, s'. repeat (split; [done|]). by apply Hexact.
  - destruct (classify_exact_or_scaled (entering water_doubled (fresh METALS water))
                water eq_refl water_doubled_valid) as [_ H]; [within_safe_integers|].
    assert (1 < 2) as Hk by lia.
    destruct (H water_well_formed 2 (or_intror Hk) water_doubled_entered)
      as (b & q & s' & Hb & Hun & Hcl & Hcr & Hs' & _ & Hscaled).
    exists b, q, s'. repeat (split; [done|]). by apply Hscaled.
Defined.

Lemma trihydrogen_well_formed : well_formed_equation trihydrogen.
Proof.
  split; [|split; [|split]].
  - simpl. repeat (apply Forall_cons; split; [split; [by apply parsesb_parses|done]|]).
    done.
  - intros el _. cbn [sideAtoms trihydrogen reactants products term formula].
    unfold atomCount. parse_all. cbv beta iota.
    rewrite ?get_or0_cons_Fin, ?get_or0_nil.
    reference_all.
    repeat case_decide; simplify_eq; simpl; lia.
  - reflexivity.
  - intros d Hd H. apply Forall_app in H as [H _].
    apply Forall_cons in H as [H _].
    simpl in H. apply Z.divide_1_r in H. lia.
Qed.

Lemma trihydrogen_scaled_entered :
  entered 9007199254740993 trihydrogen trihydrogen_scaled.
Proof.
  split; intros [|i] r; simpl; intros [= <-]; reflexivity.
Qed.

(** C3, as stated, fails beyond the safe integers.  H3 -> 3 H is a
    well-formed equation; with every reference coefficient multiplied by
    k = 9007199254740993 (2^53 + 1) the coefficients are read as
    9007199254740992 and 27021597764222980, so the check reports H as
    unbalanced instead of balanced but scaled. *)
Lemma scaled_beyond_safe_reported_unbalanced :
  well_formed_equation trihydrogen ∧
  valid_coefficients trihydrogen_scaled ∧
  1 < 9007199254740993 ∧
  entered 9007199254740993 trihydrogen trihydrogen_scaled ∧
  (∃ b, evaluate trihydrogen trihydrogen_scaled = Normal b ∧
        unbalancedDetails b
        = [{| element := "H"; left := Fin 27021597764222976;
              right := Fin 27021597764222980 |}]) ∧
  outcome (checkAnswer (entering trihydrogen_scaled (fresh METALS trihydrogen)))
  = Some (incorrect,
          "Unbalanced: H (L:27021597764222976, R:27021597764222980)" +:+ nl +:+ nl +:+
          "💡 Hint: According to Step 3, other atoms are balanced. Finally, check and balance Hydrogen and Oxygen.",
          0).
Proof.
  split; [apply trihydrogen_well_formed|]. split; [apply trihydrogen_scaled_valid|].
  split; [lia|]. split; [apply trihydrogen_scaled_entered|].
  split; [eexists; split; vm_compute; reflexivity|].
  vm_compute. reflexivity.
Qed.

(** ** checkAnswer: what a check reads and what it writes *)

Lemma checkAnswer_frame (s s' : Session) :
  checkAnswer s = Normal s' →
  language s' = language s ∧ selectedTopic s' = selectedTopic s ∧
  equations s' = equations s ∧ currentIndex s' = currentIndex s ∧
  userCoefficients s' = userCoefficients s.
Proof.
  unfold checkAnswer, currentEquation.
  destruct (equations s !! currentIndex s) as [eq|]; [|by intros [= <-]].
  destruct (evaluate eq (userCoefficients s)) as [b|]; [|done]. cbn [bind].
  destruct (unbalanced b).
  - destruct (strict_ne _ _); [by intros [= <-]|].
    destruct (isExactMatch _ _); by intros [= <-].
  - by intros [= <-].
Qed.

(** ** checkAnswer: the hints *)








(** *** The advice for unbalanced elements *)















(** ** Scenarios *)

Example parse_water : parseFormula "H2O" = Normal (Some [("H", Fin 2); ("O", Fin 1)]).
Proof. reflexivity. Qed.

Example parse_sulfate_ion :
  parseFormula "SO4^2-" = Normal (Some [("S", Fin 1); ("O", Fin 4)]).
Proof. reflexivity. Qed.

Example parse_electron : parseFormula "e^-" = Normal (Some [("e", Fin 1)]).
Proof. reflexivity. Qed.

Example parse_nested :
  parseFormula "Ca3((PO4)2)3" = Normal (Some [("Ca", Fin 3); ("P", Fin 6); ("O", Fin 24)]).
Proof. reflexivity. Qed.

(** The dot of a hydrate is removed before the scan, so the digits on its
    two sides run together. *)
Example parse_hydrate :
  parseFormula "Fe2O3.H2O" = Normal (Some [("Fe", Fin 2); ("O", Fin 4); ("H", Fin 2)]) ∧
  parseFormula "CuSO4.5H2O"
  = Normal (Some [("Cu", Fin 1); ("S", Fin 1); ("O", Fin 46); ("H", Fin 2)]).
Proof. split; reflexivity. Qed.

Example parse_cerium :
  parseFormula (render (Atom "C" "" (Atom "e" "" Done))) = Normal (Some [("Ce", Fin 1)]) ∧
  as_read (Atom "C" "" (Atom "e" "" Done)) = Atom "Ce" "" Done.
Proof. split; reflexivity. Qed.

Example charge_segment_ends_at_second_caret : getCharge "Fe^3^+" = Fin 0.
Proof. reflexivity. Qed.

Example water_correct :
  outcome (checkAnswer (entering water_full (fresh METALS water)))
  = Some (correct, EmptyString, 10).
Proof. reflexivity. Qed.

Example water_ones_unbalanced :
  evaluate water water_ones
  = Normal {| rCounts := [("H", Fin 2); ("O", Fin 2)];
              pCounts := [("H", Fin 2); ("O", Fin 1)];
              totalChargeL := Fin 0; totalChargeR := Fin 0;
              unbalancedDetails :=
                [{| element := "O"; left := Fin 2; right := Fin 1 |}] |} ∧
  outcome (checkAnswer (entering water_ones (fresh METALS water)))
  = Some (incorrect,
          "Unbalanced: O (L:2, R:1)" +:+ nl +:+ nl +:+
          "💡 Hint: According to Step 3, other atoms are balanced. Finally, check and balance Hydrogen and Oxygen.",
          0).
Proof. split; reflexivity. Qed.

Example iron_half_correct :
  evaluate iron_half ∅
  = Normal {| rCounts := [("Fe", Fin 1)]; pCounts := [("Fe", Fin 1)];
              totalChargeL := Fin 2; totalChargeR := Fin 2; unbalancedDetails := [] |} ∧
  outcome (checkAnswer (fresh REDOX_HALF iron_half)) = Some (correct, EmptyString, 10).
Proof. split; reflexivity. Qed.

Example leading_zero_rejected :
  handleCoefficientChange "r-0" "02" (fresh METALS water) = fresh METALS water.
Proof. reflexivity. Qed.

(** Numbers: what [parseInt] reads and how numbers are written. *)
Example parseInt_reads :
  parseInt10 "12" = Fin 12 ∧ parseInt10 "  -12px" = Fin (-12) ∧
  parseInt10 "+7" = Fin 7 ∧ parseInt10 "007" = Fin 7 ∧
  parseInt10 EmptyString = NaN ∧ parseInt10 "x1" = NaN ∧ parseInt10 "- 1" = NaN ∧
  parseInt10 "9007199254740992" = Fin 9007199254740992 ∧
  parseInt10 "9007199254740993" = Fin 9007199254740992 ∧
  parseInt10 "9007199254740995" = Fin 9007199254740996 ∧
  parseInt10 ("1" +:+ zeros 309) = Infinity false.
Proof. repeat split; vm_compute; reflexivity. Qed.

Example toString_writes :
  toString (Fin 0) = "0" ∧ toString (Fin (-7)) = "-7" ∧
  toString (Fin 9007199254740991) = "9007199254740991" ∧
  toString (nearest (2 ^ 64)) = "18446744073709552000" ∧
  toString (nearest (- 2 ^ 64)) = "-18446744073709552000" ∧
  toString (nearest (10 ^ 21)) = "1e+21" ∧
  toString (nearest (2 ^ 70)) = "1.1805916207174113e+21" ∧
  toString (Infinity false) = "Infinity" ∧ toString NaN = "NaN".
Proof. repeat split; vm_compute; reflexivity. Qed.

(** A coefficient too large for a number is an infinity, and the hint
    shows it. *)
Example infinite_coefficient :
  outcome (checkAnswer
             (entering (<["r-0" := "1" +:+ zeros 309]> ∅) (fresh METALS hydron)))
  = Some (incorrect, "Unbalanced: H (L:Infinity, R:1)" +:+ nl +:+ nl +:+
          "💡 Hint: According to Step 3, other atoms are balanced. Finally, check and balance Hydrogen and Oxygen.",
          0).
Proof. vm_compute. reflexivity. Qed.

(** * Further properties *)

(** ** parseFormula: what it ignores and where it is safe *)

Lemma split_hd_prefix (sep : ascii) (s : string) :
  (sep ∉ chars (hd EmptyString (split sep s))) ∧
  ∃ rest, s = hd EmptyString (split sep s) +:+ rest.
Proof.
  induction s as [|c s [IHn [rest IHr]]]; simpl.
  - split; [apply not_elem_of_nil|by exists EmptyString].
  - case_bool_decide as Hc; simpl.
    + split; [apply not_elem_of_nil|by exists (String c s)].
    + pose proof (split_nonempty sep s) as Hne.
      destruct (split sep s) as [|part parts]; [done|]. simpl in *.
      split.
      * unfold chars in *. simpl. rewrite not_elem_of_cons. done.
      * exists rest. rewrite app_String. by rewrite <- IHr.
Qed.

Lemma split_hd_app (sep : ascii) (a b : string) :
  hd EmptyString (split sep (a +:+ b))
  = if decide (sep ∈ chars a) then hd EmptyString (split sep a)
    else a +:+ hd EmptyString (split sep b).
Proof.
  induction a as [|c a IH].
  - rewrite app_empty_l. rewrite decide_False; [done|apply not_elem_of_nil].
  - rewrite app_String. simpl.
    pose proof (split_nonempty sep (a +:+ b)) as Hab.
    pose proof (split_nonempty sep a) as Ha.
    change (chars (String c a)) with (c :: chars a).
    case_bool_decide as Hc.
    + subst c. rewrite decide_True; [done|apply list_elem_of_here].
    + destruct (split sep (a +:+ b)) as [|p ps]; [done|].
      destruct (split sep a) as [|q qs]; [done|]. simpl in *.
      destruct (decide (sep ∈ chars a)) as [Hin|Hin].
      * rewrite decide_True by (by apply list_elem_of_further). by rewrite IH.
      * rewrite decide_False.
        -- rewrite IH. by rewrite app_String.
        -- rewrite not_elem_of_cons. split; [by intros ->|done].
Qed.

Lemma remove_all_app (c : ascii) (a b : string) :
  remove_all c (a +:+ b) = remove_all c a +:+ remove_all c b.
Proof.
  induction a as [|x a IH]; [done|]. rewrite app_String. simpl.
  case_bool_decide; [done|]. by rewrite app_String, IH.
Qed.

Lemma remove_all_gone (c : ascii) (s : string) : c ∉ chars (remove_all c s).
Proof.
  induction s as [|x s IH]; simpl; [apply not_elem_of_nil|].
  case_bool_decide; [done|]. unfold chars in *. simpl. rewrite not_elem_of_cons. done.
Qed.

Lemma split_remove_dots (s : string) :
  hd EmptyString (split "^" (remove_all "." s))
  = remove_all "." (hd EmptyString (split "^" s)).
Proof.
  induction s as [|c s IH]; [done|]. simpl.
  pose proof (split_nonempty "^" s) as Hs.
  pose proof (split_nonempty "^" (remove_all "." s)) as Hr.
  destruct (decide (c = "."%char)) as [->|Hdot].
  - rewrite bool_decide_eq_true_2 by done. simpl.
    destruct (split "^" s) as [|p ps]; [done|]. by simpl in *.
  - rewrite (bool_decide_eq_false_2 (c = "."%char)) by done. simpl.
    case_bool_decide as Hc; [done|].
    destruct (split "^" s) as [|p ps]; [done|].
    destruct (split "^" (remove_all "." s)) as [|q qs]; [done|]. simpl in *.
    rewrite (bool_decide_eq_false_2 (c = "."%char)) by done. by rewrite IH.
Qed.

(** X1. Atom counts do not depend on the charge suffix or on hydrate
    dots: a formula and its part before the first caret give the same
    result, and so do a formula and the same text without its dots. *)
Theorem parseFormula_ignores_charge_and_dots (base charge formula : string) :
  ("^"%char ∉ chars base →
   parseFormula (base +:+ String "^" charge) = parseFormula base) ∧
  parseFormula (hd EmptyString (split "^" formula)) = parseFormula formula ∧
  parseFormula (remove_all "." formula) = parseFormula formula.
Proof.
  split; [|split].
  - intros Hbase. unfold parseFormula.
    by rewrite (split_app_sep "^" base charge Hbase), (split_no_sep "^" base Hbase).
  - unfold parseFormula. destruct (split_hd_prefix "^" formula) as [Hno _].
    by rewrite (split_no_sep _ _ Hno).
  - unfold parseFormula. rewrite split_remove_dots.
    by rewrite (remove_all_absent "." (remove_all "." _)) by apply remove_all_gone.
Qed.

Lemma parseFormula_ignores_charge_and_dots_witness :
  parseFormula "SO4^2-" = parseFormula "SO4".
Proof.
  apply (parseFormula_ignores_charge_and_dots "SO4" "2-" "").
  apply (bool_decide_unpack _). reflexivity.
Defined.

(** *** Closing parentheses *)

Lemma plain_class (c : ascii) :
  is_upper c = true ∨ is_lower c = true ∨ is_digit c = true →
  c ≠ "("%char ∧ c ≠ ")"%char.
Proof. each_char c; naive_solver. Qed.

Lemma closes_ok_skip (p : ascii → bool) (d : nat) (a k : string) :
  (∀ c, p c = true → c ≠ "("%char ∧ c ≠ ")"%char) →
  all_chars p a = true → closes_ok d (a +:+ k) = closes_ok d k.
Proof.
  intros Hp. induction a as [|c a IH]; [done|]. cbn [all_chars].
  intros [Hc Ha]%andb_true_iff. destruct (Hp c Hc) as [? ?].
  rewrite app_String. simpl. rewrite !bool_decide_eq_false_2 by done. by apply IH.
Qed.

Lemma closes_ok_span (p : ascii → bool) (d : nat) (s run rest : string) :
  (∀ c, p c = true → c ≠ "("%char ∧ c ≠ ")"%char) →
  span p s = (run, rest) → closes_ok d s = closes_ok d rest.
Proof.
  intros Hp [-> Hrun]%span_app. by apply (closes_ok_skip p).
Qed.

Lemma closes_ok_prefix (a b : string) :
  ∀ d, closes_ok d (a +:+ b) = true → closes_ok d a = true.
Proof.
  induction a as [|c a IH]; intros d; [done|]. rewrite app_String. simpl.
  case_bool_decide; [apply IH|]. case_bool_decide; [|apply IH].
  destruct d; [done|apply IH].
Qed.

Lemma closes_ok_remove_dots (s : string) :
  ∀ d, closes_ok d (remove_all "." s) = closes_ok d s.
Proof.
  induction s as [|c s IH]; intros d; [done|]. simpl.
  case_bool_decide as Hdot.
  - subst c. simpl. apply IH.
  - simpl. case_bool_decide; [apply IH|]. case_bool_decide; [|apply IH].
    destruct d; [done|apply IH].
Qed.

Lemma digit_plain (c : ascii) : is_digit c = true → c ≠ "("%char ∧ c ≠ ")"%char.
Proof. intros H. apply plain_class. auto. Qed.

Lemma lower_plain (c : ascii) : is_lower c = true → c ≠ "("%char ∧ c ≠ ")"%char.
Proof. intros H. apply plain_class. auto. Qed.

(** What one match leaves of the count of open groups. *)
Lemma closes_ok_exec (s : string) :
  ∀ d t rest,
    closes_ok d s = true → exec s = Some (t, rest) →
    match t with
    | TElement _ _ => closes_ok d rest = true
    | TOpen => closes_ok (S d) rest = true
    | TClose _ => ∃ d', d = S d' ∧ closes_ok d' rest = true
    end.
Proof.
  induction s as [|c s IH]; intros d t rest Hok Hexec; [done|].
  simpl in Hexec, Hok.
  destruct (is_upper c) eqn:Hup.
  { destruct (plain_class c (or_introl Hup)) as [? ?].
    rewrite !bool_decide_eq_false_2 in Hok by done.
    destruct (span is_lower s) as [low r1] eqn:Hlow.
    destruct (span is_digit r1) as [ds r2] eqn:Hds. inversion Hexec; subst.
    rewrite (closes_ok_span _ _ _ _ _ lower_plain Hlow) in Hok.
    by rewrite (closes_ok_span _ _ _ _ _ digit_plain Hds) in Hok. }
  destruct (decide (c = "e"%char)) as [->|He].
  { simpl in Hexec, Hok.
    destruct (span is_digit s) as [ds r2] eqn:Hds. inversion Hexec; subst.
    by rewrite (closes_ok_span _ _ _ _ _ digit_plain Hds) in Hok. }
  rewrite (bool_decide_eq_false_2 (c = "e"%char)) in Hexec by done.
  destruct (decide (c = "("%char)) as [->|Ho].
  { simpl in Hexec, Hok. by inversion Hexec; subst. }
  rewrite (bool_decide_eq_false_2 (c = "("%char)) in Hexec, Hok by done.
  destruct (decide (c = ")"%char)) as [->|Hc].
  { simpl in Hexec, Hok. destruct d as [|d']; [done|].
    destruct (span is_digit s) as [ds r2] eqn:Hds. inversion Hexec; subst.
    exists d'. split; [done|].
    by rewrite (closes_ok_span _ _ _ _ _ digit_plain Hds) in Hok. }
  rewrite (bool_decide_eq_false_2 (c = ")"%char)) in Hexec, Hok by done.
  by eapply IH.
Qed.

(** While no parenthesis closes more than was opened, the scan does not
    throw and touches only the frames of the groups that are open. *)
Lemma run_above (fuel : nat) :
  ∀ (s : string) (d : nat) (upper below : list AtomCount),
    closes_ok d s = true → List.length upper = S d →
    ∃ st, run fuel s (upper ++ below) = Normal (st ++ below) ∧ st ≠ [].
Proof.
  induction fuel as [|fuel IH]; intros s d upper below Hok Hlen.
  - exists upper. split; [done|]. by destruct upper.
  - rewrite run_S. destruct (exec s) as [[t rest]|] eqn:E.
    + pose proof (closes_ok_exec s d t rest Hok E) as Hrest.
      destruct upper as [|top upper]; [done|]. simpl in Hlen.
      destruct t as [el ds| |ds]; cbn [step app bind].
      * apply (IH rest d (_ :: upper) below Hrest). simpl. lia.
      * apply (IH rest (S d) ([] :: top :: upper) below Hrest). simpl. lia.
      * destruct Hrest as (d' & -> & Hrest).
        destruct upper as [|current upper]; [done|]. cbn [app bind].
        apply (IH rest d' (_ :: upper) below Hrest). simpl in *. lia.
    + exists upper. split; [done|]. by destruct upper.
Qed.

Lemma last_nonempty (st below : list AtomCount) :
  st ++ below ≠ [] → ∃ m, last (st ++ below) = Some m.
Proof.
  intros H. destruct (last (st ++ below)) as [m|] eqn:E; [by exists m|].
  by apply last_None in E.
Qed.

(** X2. The parser returns a map (it neither throws nor returns
    [undefined]) for every text in which, reading from the left, no
    closing parenthesis comes while no group is open; groups left open are
    allowed. *)
Theorem parseFormula_safe (formula : string) :
  closes_ok 0 formula = true → ∃ m, parseFormula formula = Normal (Some m).
Proof.
  intros Hok. unfold parseFormula.
  destruct (split_hd_prefix "^" formula) as [_ [rest Hrest]].
  rewrite Hrest in Hok. apply closes_ok_prefix in Hok.
  rewrite <- closes_ok_remove_dots in Hok.
  set (clean := remove_all "." (hd EmptyString (split "^" formula))) in *.
  destruct (run_above (S (String.length clean)) clean 0%nat [[]] [] Hok eq_refl)
    as (st & Hrun & Hst).
  rewrite !app_nil_r in Hrun. rewrite Hrun. cbn [bind].
  destruct (last_nonempty st []) as [m Hm]; [by rewrite app_nil_r|].
  rewrite app_nil_r in Hm. exists m. by rewrite Hm.
Qed.

Lemma parseFormula_safe_witness : ∃ m, parseFormula "Ca(OH)2(aq" = Normal (Some m).
Proof. apply parseFormula_safe. reflexivity. Defined.

(** *** Texts put together *)

Lemma span_app_stop (p : ascii → bool) (a k : string) :
  starts_with p k = false →
  span p (a +:+ k) = (let '(run, rest) := span p a in (run, rest +:+ k)).
Proof.
  intros Hk. induction a as [|c a IH].
  - rewrite app_empty_l. destruct k as [|x k]; [done|]. simpl in *. by rewrite Hk.
  - rewrite app_String. simpl. destruct (p c); [|done].
    rewrite IH. by destruct (span p a).
Qed.

Lemma exec_app (a k : string) :
  starts_with is_lower k = false → starts_with is_digit k = false →
  exec (a +:+ k)
  = match exec a with
    | Some (t, rest) => Some (t, rest +:+ k)
    | None => exec k
    end.
Proof.
  intros Hl Hd. induction a as [|c a IH]; [done|].
  rewrite app_String. cbn [exec].
  destruct (is_upper c).
  { rewrite (span_app_stop is_lower a k Hl).
    destruct (span is_lower a) as [low r1].
    rewrite (span_app_stop is_digit r1 k Hd). by destruct (span is_digit r1). }
  destruct (bool_decide (c = "e"%char)).
  { rewrite (span_app_stop is_digit a k Hd). by destruct (span is_digit a). }
  destruct (bool_decide (c = "("%char)); [done|].
  destruct (bool_decide (c = ")"%char)); [|done].
  rewrite (span_app_stop is_digit a k Hd). by destruct (span is_digit a).
Qed.

(** The scan of a text followed by another that starts a new match is the
    scan of the first followed by the scan of the second. *)
Lemma run_app (k : string) :
  starts_with is_lower k = false → starts_with is_digit k = false →
  ∀ (f1 : nat) (a : string) (stack : list AtomCount) (f2 : nat),
    (String.length a < f1)%nat → (String.length k < f2)%nat →
    run (f1 + f2) (a +:+ k) stack = bind (run f1 a stack) (run f2 k).
Proof.
  intros Hl Hd. induction f1 as [|f1 IH]; intros a stack f2 Ha Hk; [lia|].
  change (S f1 + f2)%nat with (S (f1 + f2)). rewrite !run_S, exec_app by done.
  destruct (exec a) as [[t rest]|] eqn:E.
  - destruct (step t stack) as [stack'|]; [|done]. cbn [bind].
    apply IH; [|done]. apply exec_shorter in E. lia.
  - cbn [bind]. rewrite <- run_S. apply run_enough; lia.
Qed.

(** X3. What follows an opening parenthesis that is never closed does not
    count: when a text has atom counts, the text followed by an opening
    parenthesis and anything that does not close it has the same atom
    counts. *)
Theorem parseFormula_unclosed_group (s t : string) (m : AtomCount) :
  parseFormula s = Normal (Some m) → closes_ok 0 t = true →
  parseFormula (s +:+ "(" +:+ t) = Normal (Some m).
Proof.
  intros Hs Ht. unfold parseFormula in *.
  rewrite split_hd_app. destruct (decide ("^"%char ∈ chars s)) as [Hin|Hin]; [done|].
  rewrite (split_no_sep _ _ Hin) in Hs. cbn [hd] in Hs.
  rewrite (split_hd_app "^" "(" t), decide_False
    by (apply (bool_decide_unpack _); reflexivity).
  destruct (split_hd_prefix "^" t) as [_ [rest Hrest]].
  rewrite Hrest in Ht. apply closes_ok_prefix in Ht.
  rewrite <- closes_ok_remove_dots in Ht.
  rewrite !remove_all_app.
  set (a := remove_all "." s) in *.
  set (b := remove_all "." (hd EmptyString (split "^" t))) in *.
  change (remove_all "." "(") with "(".
  destruct (run (S (String.length a)) a [[]]) as [stack|] eqn:Hrun; [|done].
  cbn [bind] in Hs. injection Hs as Hlast.
  rewrite (run_enough _ (S (String.length a) + S (S (String.length b))));
    [|rewrite !length_app_string; simpl; lia..].
  rewrite (run_app ("(" +:+ b)); [|done|done|lia|rewrite length_app_string; simpl; lia].
  rewrite Hrun. cbn [bind]. rewrite run_S, exec_open. cbn [step bind].
  destruct (run_above (S (String.length b)) b 0%nat [[]] stack Ht eq_refl)
    as (st & Hst & _).
  change ([[]] ++ stack) with ([] :: stack) in Hst. rewrite Hst. cbn [bind].
  by rewrite last_app, Hlast.
Qed.

Lemma parseFormula_unclosed_group_witness :
  parseFormula ("H2O" +:+ "(" +:+ "SO4(OH") = Normal (Some [("H", Fin 2); ("O", Fin 1)]).
Proof. apply parseFormula_unclosed_group; reflexivity. Defined.

(** ** getCharge: digits and sign *)

Lemma charge_match_here (s : string) (m : string * ascii) :
  charge_match_at s = Some m → charge_match s = Some m.
Proof. intros H. destruct s; cbn [charge_match]; by rewrite H. Qed.

Lemma pretty_digits (n : Z) :
  0 ≤ n →
  all_chars is_digit (pretty n) = true ∧ truthy (pretty n) = true ∧
  parseInt10 (pretty n) = nearest n.
Proof.
  intros Hn. destruct (decide (n = 0)) as [->|Hne]; [done|].
  destruct (pretty_positive_text n) as (Htext & _ & Hvalue); [lia|].
  split; [by apply positive_integer_text_digits|]. split; [|done].
  by destruct (pretty n).
Qed.

(** X4. A charge written as a number followed by a sign is read back: when
    the charge segment of a formula is the decimal text of a safe integer
    n, not negative, followed by "+" (or "-") and anything else, the charge
    is n (or -n).  Beyond the safe integers it is the number nearest to n
    (or its opposite). *)
Theorem getCharge_round_trip (formula tail : string) (n : Z) (sign : ascii) :
  0 ≤ n → sign = "+"%char ∨ sign = "-"%char →
  chargeSegment formula = Some (pretty n +:+ String sign tail) →
  getCharge formula
  = nmul (nearest n) (Fin (if decide (sign = "+"%char) then 1 else -1)) ∧
  (n ≤ MAX_SAFE_INTEGER →
   getCharge formula = Fin (if decide (sign = "+"%char) then n else - n)).
Proof.
  intros Hn Hsign Hseg. rewrite (getCharge_of_segment _ _ Hseg).
  destruct (pretty_digits n Hn) as (Hdigits & Htruthy & Hvalue).
  rewrite (charge_match_here _ (pretty n, sign)).
  - rewrite Htruthy, Hvalue.
    assert ((if bool_decide (sign = "+"%char) then Fin 1 else Fin (-1))
            = Fin (if decide (sign = "+"%char) then 1 else -1)) as ->.
    { by destruct Hsign as [-> | ->]. }
    split; [done|]. intros Hle.
    rewrite nearest_safe by (unfold safe; lia).
    rewrite nmul_safe by (case_decide; unfold safe; lia).
    f_equal. case_decide; lia.
  - unfold charge_match_at. rewrite span_exact; [|done|].
    + destruct Hsign as [-> | ->]; done.
    + destruct Hsign as [-> | ->]; done.
Qed.

Lemma getCharge_round_trip_witness : getCharge "Cr2O7^2-" = Fin (-2).
Proof.
  apply (getCharge_round_trip "Cr2O7^2-" "" 2 "-"%char);
    [lia|by right|reflexivity|vm_compute; discriminate].
Defined.

(** ** checkAnswer: the report and the verdict *)

Lemma NoDup_uniq_from (seen l : list string) : NoDup (uniq_from seen l).
Proof.
  revert seen. induction l as [|x l IH]; intros seen; simpl; [constructor|].
  case_bool_decide; [apply IH|]. constructor; [|apply IH].
  rewrite elem_of_uniq_from. intros [_ Hx]. apply Hx, list_elem_of_here.
Qed.

Lemma NoDup_findUnbalanced (rc pc : AtomCount) (all : list string) :
  NoDup all → NoDup (element <$> findUnbalanced rc pc all).
Proof.
  induction 1 as [|x all Hx Hall IH]; simpl; [constructor|].
  destruct (strict_ne _ _); [|done]. cbn [fmap list_fmap]. constructor; [|done].
  intros (d & Hd & Hin)%list_elem_of_fmap.
  apply findUnbalanced_elements in Hin as (Hin & _). simpl in Hd. by rewrite <- Hd in Hin.
Qed.

(** X5. The list of unbalanced elements is exact.  It never names an
    element twice.  For coefficients that are absent, empty or
    positive-integer strings, formulas that have atom counts and a charge
    in integers and an evaluation within the safe integers, an entry is on
    the list if and only if its element is not "e", its two counts are the
    sums over the two sides of coefficient times atoms, and the two counts
    differ. *)
Theorem evaluate_report_exact (eq : ChemicalEquation) (uc : gmap string string)
    (b : Balance) :
  evaluate eq uc = Normal b →
  NoDup (unbalancedElementsList b) ∧
  (valid_coefficients uc →
   Forall (λ r, parses (formula r)) (reactants eq ++ products eq) →
   within_safe (resolved uc "r") (resolved uc "p") eq →
   ∀ d, d ∈ unbalancedDetails b ↔
        element d ≠ "e" ∧
        left d = Fin (sideAtoms (resolved uc "r") (element d) 0 (reactants eq)) ∧
        right d = Fin (sideAtoms (resolved uc "p") (element d) 0 (products eq)) ∧
        sideAtoms (resolved uc "r") (element d) 0 (reactants eq)
        ≠ sideAtoms (resolved uc "p") (element d) 0 (products eq)).
Proof.
  intros Hb. split.
  - apply evaluate_inv in Hb as (_ & _ & Hun).
    unfold unbalancedElementsList. rewrite Hun.
    apply NoDup_findUnbalanced, NoDup_uniq_from.
  - intros Hv Hparse Hsafe.
    destruct (evaluate_exact eq uc Hv Hparse Hsafe)
      as (b' & rc & pc & Hb' & Hrc & Hpc & Hrinv & Hpinv & Hr & Hp & _ & _ & Hun).
    rewrite Hb in Hb'. injection Hb' as <-.
    pose proof (evaluate_elements _ _ _ Hb) as (Hre & Hpe & _).
    rewrite Hrc, Hpc, !keys_exactly in *. rewrite Forall_forall in Hre, Hpe.
    intros d. rewrite Hun, findUnbalanced_exactly. split.
    + intros (Hin & Hl & Hrt & Hne).
      assert (element d ≠ "e") as He.
      { apply elem_of_uniq, elem_of_app in Hin as [Hin|Hin];
          [by apply Hre in Hin as [_ ?]|by apply Hpe in Hin as [_ ?]]. }
      by rewrite <- Hr, <- Hp.
    + intros (He & Hl & Hrt & Hne). rewrite <- Hr in Hl, Hne by done.
      rewrite <- Hp in Hrt, Hne by done.
      split; [|done]. apply elem_of_uniq, elem_of_app.
      destruct (decide (element d ∈ keys rc)) as [?|Hnr]; [by left|].
      destruct (decide (element d ∈ keys pc)) as [?|Hnp]; [by right|].
      by rewrite !count_absent in Hne.
Qed.

Lemma water_ones_valid : valid_coefficients water_ones.
Proof. valid_entries. Qed.

Lemma evaluate_report_exact_witness :
  NoDup ["O"] ∧
  ("O" ≠ "e" ∧
   Fin 2 = Fin (sideAtoms (resolved water_ones "r") "O" 0 (reactants water)) ∧
   Fin 1 = Fin (sideAtoms (resolved water_ones "p") "O" 0 (products water)) ∧
   sideAtoms (resolved water_ones "r") "O" 0 (reactants water)
   ≠ sideAtoms (resolved water_ones "p") "O" 0 (products water)).
Proof.
  destruct (evaluate_report_exact water water_ones
              {| rCounts := [("H", Fin 2); ("O", Fin 2)];
                 pCounts := [("H", Fin 2); ("O", Fin 1)];
                 totalChargeL := Fin 0; totalChargeR := Fin 0;
                 unbalancedDetails :=
                   [{| element := "O"; left := Fin 2; right := Fin 1 |}] |}
              eq_refl) as [Hnodup Hexact].
  split; [exact Hnodup|].
  apply (Hexact water_ones_valid water_parses ltac:(vm_compute; split; discriminate)
           {| element := "O"; left := Fin 2; right := Fin 1 |}).
  by left.
Defined.

Lemma unbalancedMsg_nonempty (isZH : bool) (l : list string) (advice : string) :
  unbalancedMsg isZH l advice ≠ EmptyString.
Proof. by destruct isZH. Qed.

Lemma chargeMsg_nonempty (isZH : bool) (l r : number) (note : string) :
  chargeMsg isZH l r +:+ note ≠ EmptyString.
Proof. by destruct isZH. Qed.

(** X6. A check always gives a verdict with its explanation.  When there
    is no current equation nothing changes.  Otherwise a check that
    completes answers either [correct], with an empty hint and ten points
    more, or [incorrect], with a hint that is not empty and the score
    unchanged; it never changes the equations, the index or the stored
    coefficients. *)
Theorem checkAnswer_verdict (s s' : Session) :
  checkAnswer s = Normal s' →
  equations s' = equations s ∧ currentIndex s' = currentIndex s ∧
  userCoefficients s' = userCoefficients s ∧
  (currentEquation s = None → s' = s) ∧
  (currentEquation s ≠ None →
   (feedback s' = correct ∧ hintMessage s' = EmptyString ∧ score s' = score s + 10) ∨
   (feedback s' = incorrect ∧ hintMessage s' ≠ EmptyString ∧ score s' = score s)).
Proof.
  intros Hcheck.
  destruct (checkAnswer_frame _ _ Hcheck) as (_ & _ & He & Hi & Hu).
  repeat (split; [done|]). unfold checkAnswer in Hcheck.
  destruct (currentEquation s) as [eq|]; [|split; [by injection Hcheck|done]].
  split; [done|]. intros _.
  destruct (evaluate eq (userCoefficients s)) as [b|]; [|done]. cbn [bind] in Hcheck.
  destruct (unbalanced b).
  - destruct (strict_ne _ _).
    + injection Hcheck as <-. right. simpl. split; [done|].
      split; [apply chargeMsg_nonempty|done].
    + destruct (isExactMatch _ _); injection Hcheck as <-; [by left|right].
      simpl. by destruct (is_ZH _).
  - injection Hcheck as <-. right. simpl. split; [done|].
    split; [apply unbalancedMsg_nonempty|done].
Qed.

Lemma checkAnswer_verdict_witness :
  feedback (checked (entering water_ones (fresh METALS water))) = incorrect ∧
  hintMessage (checked (entering water_ones (fresh METALS water))) ≠ EmptyString.
Proof.
  destruct (checkAnswer_verdict (entering water_ones (fresh METALS water))
              (checked (entering water_ones (fresh METALS water))) eq_refl)
    as (_ & _ & _ & _ & H).
  destruct H as [(Hf & _)|(Hf & Hh & _)]; [discriminate|discriminate|done].
Defined.

(** ** Typing coefficients and checking *)

Lemma termKey_inj_idx (side : string) (i j : nat) :
  termKey side i = termKey side j → i = j.
Proof.
  unfold termKey. intros H. apply (inj (String.app side)) in H.
  apply (inj (String.app "-")) in H. by apply (inj pretty) in H.
Qed.

Lemma termKey_sides (i j : nat) : termKey "r" i ≠ termKey "p" j.
Proof. unfold termKey. by intros [=]. Qed.

Lemma handleCoefficientChange_frame (id value : string) (s : Session) :
  language (handleCoefficientChange id value s) = language s ∧
  selectedTopic (handleCoefficientChange id value s) = selectedTopic s ∧
  equations (handleCoefficientChange id value s) = equations s ∧
  currentIndex (handleCoefficientChange id value s) = currentIndex s ∧
  score (handleCoefficientChange id value s) = score s.
Proof.
  unfold handleCoefficientChange. destruct (_ || _); [|done]. by destruct (feedback s).
Qed.

Lemma pretty_valid_entry (n : Z) : 0 < n → valid_entry (pretty n).
Proof.
  intros Hn. right. apply positive_integer_text_spec.
  by apply pretty_positive_text.
Qed.

Lemma userCoefficient_typed (uc : gmap string string) (side : string) (idx : nat) (n : Z) :
  0 < n → uc !! termKey side idx = Some (pretty n) →
  userCoefficient uc side idx = nearest n ∧ resolved uc side idx = n.
Proof.
  intros Hn Hlook. unfold userCoefficient, resolved. rewrite Hlook. simpl.
  destruct (pretty_positive_text n Hn) as (Htext & Hdec & Hvalue).
  rewrite Htext. split; [|done].
  assert (or_else (pretty n) "1" = pretty n) as ->; [|done].
  by destruct (pretty n).
Qed.

(** X7. Typing a positive number into the field of a term sets the
    coefficient of that term to the number nearest to it, which is the
    number typed when it is a safe integer, and leaves the coefficient of
    every other term as it was; clearing the field sets the coefficient
    back to 1. *)
Theorem typed_coefficient (s : Session) (side side' : string) (i j : nat) (n : Z) :
  0 < n → (side = "r" ∨ side = "p") → (side' = "r" ∨ side' = "p") →
  userCoefficient
    (userCoefficients (handleCoefficientChange (termKey side i) (pretty n) s)) side i
  = nearest n ∧
  (n ≤ MAX_SAFE_INTEGER →
   userCoefficient
     (userCoefficients (handleCoefficientChange (termKey side i) (pretty n) s)) side i
   = Fin n) ∧
  userCoefficient
    (userCoefficients (handleCoefficientChange (termKey side i) EmptyString s)) side i
  = Fin 1 ∧
  ((side', j) ≠ (side, i) →
   userCoefficient
     (userCoefficients (handleCoefficientChange (termKey side i) (pretty n) s)) side' j
   = userCoefficient (userCoefficients s) side' j).
Proof.
  intros Hn Hside Hside'.
  rewrite !(handleCoefficientChange_accepted _ (pretty n))
    by (by apply pretty_valid_entry).
  rewrite (handleCoefficientChange_accepted _ EmptyString) by (by left).
  assert (userCoefficient (<[termKey side i:=pretty n]> (userCoefficients s)) side i
          = nearest n) as Htyped.
  { apply userCoefficient_typed; [done|]. apply lookup_insert_eq. }
  split; [done|]. split; [|split].
  - intros Hle. rewrite Htyped. apply nearest_safe. unfold safe. lia.
  - unfold userCoefficient. by rewrite lookup_insert_eq.
  - intros Hne. unfold userCoefficient. rewrite lookup_insert_ne; [done|].
    intros Hkey. apply Hne.
    destruct Hside as [-> | ->], Hside' as [-> | ->].
    + by apply termKey_inj_idx in Hkey as ->.
    + by apply termKey_sides in Hkey.
    + symmetry in Hkey. by apply termKey_sides in Hkey.
    + by apply termKey_inj_idx in Hkey as ->.
Qed.

Lemma typed_coefficient_witness :
  userCoefficient
    (userCoefficients (handleCoefficientChange (termKey "r" 1) (pretty 12)
                         (fresh METALS water))) "r" 1 = Fin 12.
Proof.
  destruct (typed_coefficient (fresh METALS water) "r" "p" 1 0 12) as (_ & H & _);
    [lia|by left|by right|].
  apply H. vm_compute. discriminate.
Defined.

Lemma typeTerms_frame (k : Z) (side : string) (terms : list EquationComponent) :
  ∀ idx s,
    language (typeTerms k side idx terms s) = language s ∧
    selectedTopic (typeTerms k side idx terms s) = selectedTopic s ∧
    equations (typeTerms k side idx terms s) = equations s ∧
    currentIndex (typeTerms k side idx terms s) = currentIndex s ∧
    score (typeTerms k side idx terms s) = score s.
Proof.
  induction terms as [|r terms IH]; intros idx s; [done|]. cbn [typeTerms].
  destruct (IH (S idx) (handleCoefficientChange (termKey side idx)
                          (pretty (k * coefficient r)) s)) as (-> & -> & -> & -> & ->).
  apply handleCoefficientChange_frame.
Qed.

Lemma typeTerms_valid (k : Z) (side : string) (terms : list EquationComponent) :
  ∀ idx s,
    valid_coefficients (userCoefficients s) →
    valid_coefficients (userCoefficients (typeTerms k side idx terms s)).
Proof.
  induction terms as [|r terms IH]; intros idx s Hs; [done|]. cbn [typeTerms].
  by apply IH, handleCoefficientChange_valid.
Qed.

(** The stored texts after typing one side. *)
Lemma typeTerms_lookup (k : Z) (side : string) (terms : list EquationComponent) :
  Forall (λ r, 0 < k * coefficient r) terms →
  ∀ idx s,
    (∀ i r, terms !! i = Some r →
            userCoefficients (typeTerms k side idx terms s) !! termKey side (idx + i)
            = Some (pretty (k * coefficient r))) ∧
    (∀ key, (∀ i, key ≠ termKey side (idx + i)) →
            userCoefficients (typeTerms k side idx terms s) !! key
            = userCoefficients s !! key).
Proof.
  induction 1 as [|r terms Hr Hterms IH]; intros idx s; [done|]. cbn [typeTerms].
  destruct (IH (S idx) (handleCoefficientChange (termKey side idx)
                          (pretty (k * coefficient r)) s)) as [Hin Hout].
  split.
  - intros [|i] r' Hi; simpl in Hi.
    + injection Hi as <-. rewrite Nat.add_0_r. rewrite Hout.
      * rewrite handleCoefficientChange_accepted by (by apply pretty_valid_entry).
        apply lookup_insert_eq.
      * intros i Hkey. apply termKey_inj_idx in Hkey. lia.
    + rewrite <- Nat.add_succ_comm. by apply Hin.
  - intros key Hkey. rewrite Hout.
    + rewrite handleCoefficientChange_accepted by (by apply pretty_valid_entry).
      apply lookup_insert_ne. intros E. apply (Hkey 0%nat). by rewrite Nat.add_0_r.
    + intros i. rewrite Nat.add_succ_comm. apply Hkey.
Qed.

Lemma typeScaled_entered (k : Z) (eq : ChemicalEquation) (s : Session) :
  0 < k → Forall (λ r, 0 < coefficient r) (reactants eq ++ products eq) →
  entered k eq (userCoefficients (typeScaled k eq s)).
Proof.
  intros Hk [Hr Hp]%Forall_app.
  assert (∀ terms, Forall (λ r, 0 < coefficient r) terms →
                   Forall (λ r, 0 < k * coefficient r) terms) as Hpos.
  { intros terms Hterms. eapply Forall_impl; [exact Hterms|]. intros r ?. by apply Z.mul_pos_pos. }
  unfold typeScaled. split; intros i r Hi.
  - destruct (typeTerms_lookup k "p" (products eq) (Hpos _ Hp) 0%nat
                (typeTerms k "r" 0 (reactants eq) s)) as [_ Hout].
    destruct (typeTerms_lookup k "r" (reactants eq) (Hpos _ Hr) 0%nat s) as [Hin _].
    eapply userCoefficient_typed.
    + rewrite Forall_forall in Hr.
      assert (0 < coefficient r) by (eapply Hr, list_elem_of_lookup_2, Hi). nia.
    + rewrite Hout; [by apply (Hin i r)|]. intros j. apply termKey_sides.
  - destruct (typeTerms_lookup k "p" (products eq) (Hpos _ Hp) 0%nat
                (typeTerms k "r" 0 (reactants eq) s)) as [Hin _].
    eapply userCoefficient_typed.
    + rewrite Forall_forall in Hp.
      assert (0 < coefficient r) by (eapply Hp, list_elem_of_lookup_2, Hi). nia.
    + by apply (Hin i r).
Qed.

Lemma sideLoad_ext (c c' : nat → Z) (terms : list EquationComponent) :
  ∀ idx, (∀ i r, terms !! i = Some r → c (idx + i)%nat = c' (idx + i)%nat) →
         sideLoad c idx terms = sideLoad c' idx terms.
Proof.
  induction terms as [|r terms IH]; intros idx H; simpl; [done|].
  rewrite IH.
  - specialize (H 0%nat r eq_refl). rewrite Nat.add_0_r in H. by rewrite H.
  - intros i r' Hi. rewrite !Nat.add_succ_comm. by apply (H (S i) r').
Qed.

(** The evaluation of coefficients that are [k] times the reference is as
    large as the equation under [k] times the reference. *)
Lemma entered_within_safe (k : Z) (eq : ChemicalEquation) (uc : gmap string string) :
  entered k eq uc → scaled_within_safe k eq →
  within_safe (resolved uc "r") (resolved uc "p") eq.
Proof.
  intros [Hr Hp] [Hsr Hsp]. split.
  - rewrite (sideLoad_ext _ (λ i, k * reference (reactants eq) i)); [done|].
    intros i r Hi. simpl. by rewrite (reference_lookup _ _ _ Hi), (Hr i r Hi).
  - rewrite (sideLoad_ext _ (λ i, k * reference (products eq) i)); [done|].
    intros i r Hi. simpl. by rewrite (reference_lookup _ _ _ Hi), (Hp i r Hi).
Qed.

(** X8. The displayed answer is accepted.  On a session whose current
    equation is well-formed, typing the reference coefficient of every
    term and checking gives [correct] and ten points; typing every
    reference coefficient times the same k > 1 and checking gives
    [incorrect] with the simplest-ratio message and no points; both as
    long as the evaluation of the coefficients typed stays within the safe
    integers. *)
Theorem typed_answer_checked (s : Session) (eq : ChemicalEquation) (k : Z) :
  currentEquation s = Some eq → well_formed_equation eq →
  valid_coefficients (userCoefficients s) → 0 < k → scaled_within_safe k eq →
  ∃ s', checkAnswer (typeScaled k eq s) = Normal s' ∧
        (k = 1 → feedback s' = correct ∧ hintMessage s' = EmptyString ∧
                 score s' = score s + 10) ∧
        (1 < k → feedback s' = incorrect ∧ score s' = score s ∧
                 hintMessage s' = simplestRatioMsg (is_ZH (language s))).
Proof.
  intros Heq Hwf Hvalid Hk Hscaled.
  assert (Forall (λ r, 0 < coefficient r) (reactants eq ++ products eq)) as Hpos.
  { destruct Hwf as [Hterms _]. eapply Forall_impl; [exact Hterms|]. by intros r [_ ?]. }
  pose proof (typeScaled_entered k eq s Hk Hpos) as Hent.
  set (t := typeScaled k eq s) in *.
  assert (language t = language s ∧ equations t = equations s ∧
          currentIndex t = currentIndex s ∧ score t = score s)
    as (Hlang & Heqs & Hidx & Hscore).
  { unfold t, typeScaled.
    destruct (typeTerms_frame k "p" (products eq) 0%nat
                (typeTerms k "r" 0 (reactants eq) s)) as (-> & _ & -> & -> & ->).
    destruct (typeTerms_frame k "r" (reactants eq) 0%nat s) as (-> & _ & -> & -> & ->).
    done. }
  assert (valid_coefficients (userCoefficients t)) as Hvt
    by (by apply typeTerms_valid, typeTerms_valid).
  assert (currentEquation t = Some eq) as Heqt
    by (unfold currentEquation; by rewrite Heqs, Hidx).
  pose proof (entered_within_safe k eq _ Hent Hscaled) as Hsafe.
  destruct (entered_balanced k eq _ Hwf Hvt Hent Hsafe) as (b & q & Hb & Hun & Hcl & Hcr).
  assert (strict_ne (totalChargeL b) (totalChargeR b) = false) as Hch.
  { rewrite Hcl, Hcr, strict_ne_Fin. by apply bool_decide_eq_false; intros ?. }
  eexists. split; [by eapply checkAnswer_balanced|].
  pose proof (isExactMatch_entered eq _ Hvt Hsafe) as Hexact. split.
  - intros ->. rewrite (proj2 Hexact Hent). simpl. by rewrite Hscore.
  - intros Hgt. destruct (isExactMatch eq (userCoefficients t)) eqn:E.
    + exfalso. apply (entered_multiple_not_exact k eq _ Hwf Hgt Hent). by apply Hexact.
    + simpl. by rewrite Hscore, Hlang.
Qed.

Lemma typed_answer_checked_witness :
  ∃ s', checkAnswer (typeScaled 1 water (fresh METALS water)) = Normal s' ∧
        feedback s' = correct ∧ score s' = 10.
Proof.
  destruct (typed_answer_checked (fresh METALS water) water 1 eq_refl
              water_well_formed valid_coefficients_empty) as (s' & Hs' & Hone & _);
    [lia|within_safe_integers|].
  exists s'. split; [done|]. destruct (Hone eq_refl) as (? & _ & ?). done.
Defined.

(** ** formatFormula *)

Lemma span_stops (p : ascii → bool) (s : string) :
  ∀ run rest, span p s = (run, rest) → starts_with p rest = false.
Proof.
  induction s as [|c s IH]; simpl; intros run rest H; [by injection H as <- <-|].
  destruct (p c) eqn:Hc.
  - destruct (span p s) as [run' rest'] eqn:Hs. injection H as <- <-. by eapply IH.
  - injection H as <- <-. done.
Qed.

Lemma plain_not_digits (part : string) :
  all_chars (λ c, negb (is_digit c)) part = true →
  truthy part && all_chars is_digit part = false.
Proof.
  destruct part as [|c part]; [done|]. simpl.
  intros [Hc _]%andb_true_iff. apply negb_true_iff in Hc. by rewrite Hc.
Qed.

(** The parts of a text: they alternate, and put together they are the
    text. *)
Lemma split_digits_from_ok (fuel : nat) :
  ∀ s, (String.length s ≤ fuel)%nat →
       alternating (split_digits_from fuel s) = true ∧
       foldr String.append EmptyString (split_digits_from fuel s) = s ∧
       (starts_with is_digit s = false →
        match split_digits_from fuel s with
        | [] => False
        | [_] => True
        | next :: _ => truthy next = true
        end).
Proof.
  induction fuel as [|fuel IH]; intros s Hlen.
  - destruct s; [|simpl in Hlen; lia]. done.
  - cbn [split_digits_from].
    destruct (span (λ c, negb (is_digit c)) s) as [plain rest] eqn:Hplain.
    pose proof (span_app _ _ _ _ Hplain) as [-> Hnodigit].
    pose proof (span_stops _ _ _ _ Hplain) as Hstop.
    destruct rest as [|c r].
    { cbn [alternating foldr]. rewrite Hnodigit, app_empty_r. done. }
    simpl in Hstop. apply negb_false_iff in Hstop.
    destruct (span is_digit (String c r)) as [ds rest'] eqn:Hds.
    pose proof (span_app _ _ _ _ Hds) as [Hrest Hdigits].
    pose proof (span_stops _ _ _ _ Hds) as Hstop'.
    assert (truthy ds = true) as Htruthy.
    { simpl in Hds. rewrite Hstop in Hds. destruct (span is_digit r).
      by injection Hds as <- <-. }
    assert (String.length rest' ≤ fuel)%nat as Hlen'.
    { rewrite length_app_string, Hrest, length_app_string in Hlen.
      destruct ds; [done|]. simpl in Hlen. lia. }
    destruct (IH rest' Hlen') as (Halt & Hconcat & Hhead).
    specialize (Hhead Hstop').
    split; [|split].
    + cbn [alternating]. rewrite Hnodigit, Htruthy, Hdigits, Halt. simpl.
      destruct (split_digits_from fuel rest') as [|next [|? ?]]; [done|done|].
      by rewrite Hhead.
    + cbn [foldr]. by rewrite Hconcat, Hrest.
    + intros Hs. destruct plain as [|x plain]; [|done].
      rewrite app_empty_l in Hs. simpl in Hs. congruence.
Qed.

Lemma alternating_lookup (i : nat) :
  (∀ parts part, alternating parts = true → parts !! i = Some part →
                 formatPart i part = nodeAt i part) ∧
  (∀ parts part, alternating parts = true → parts !! S i = Some part →
                 formatPart (S i) part = nodeAt (S i) part).
Proof.
  assert (∀ parts part, alternating parts = true → parts !! 0%nat = Some part →
                        formatPart 0 part = nodeAt 0 part) as Hzero.
  { intros [|plain parts] part Halt [= <-]. cbn [alternating] in Halt.
    apply andb_true_iff in Halt as [Hplain _].
    unfold formatPart, nodeAt. by rewrite plain_not_digits. }
  assert (∀ parts part, alternating parts = true → parts !! 1%nat = Some part →
                        formatPart 1 part = nodeAt 1 part) as Hone.
  { intros [|plain [|ds rest]] part Halt [= <-]. cbn [alternating] in Halt.
    apply andb_true_iff in Halt as [_ [[[Ht Hd]%andb_true_iff _]%andb_true_iff _]%andb_true_iff].
    unfold formatPart, nodeAt. by rewrite Ht, Hd. }
  assert (∀ j, (∀ parts part, alternating parts = true → parts !! j = Some part →
                              formatPart j part = nodeAt j part) →
               ∀ parts part, alternating parts = true → parts !! S (S j) = Some part →
                             formatPart (S (S j)) part = nodeAt (S (S j)) part) as Hstep.
  { intros j Hj [|plain [|ds rest]] part Halt Hlook; [done..|]. simpl in Hlook.
    cbn [alternating] in Halt.
    apply andb_true_iff in Halt as [_ [_ Hrest]%andb_true_iff].
    pose proof (Hj rest part Hrest Hlook) as Hsame.
    unfold formatPart, nodeAt in *. cbn [Nat.even].
    destruct (truthy part && all_chars is_digit part), (Nat.even j); simplify_eq; done. }
  induction i as [|i [IH0 IH1]]; [done|]. split; [done|]. by apply Hstep.
Qed.

Lemma formatPart_text (index : nat) (part : string) :
  nodeText (formatPart index part) = part.
Proof. unfold formatPart. by destruct (_ && _). Qed.

Lemma shownText_imap (f : nat → string → Node) (parts : list string) :
  (∀ i part, nodeText (f i part) = part) →
  shownText (imap f parts) = foldr String.append EmptyString parts.
Proof.
  revert f. induction parts as [|part parts IH]; intros f Hf; [done|].
  cbn [imap]. unfold shownText in *. cbn [foldr]. rewrite Hf. f_equal.
  apply IH. intros i p. apply Hf.
Qed.

Lemma formatPart_key_inj (i j : nat) (p q : string) :
  nodeKey (formatPart i p) = nodeKey (formatPart j q) → i = j.
Proof.
  unfold formatPart.
  destruct (truthy p && _), (truthy q && _); simpl; intros H; try done.
  - apply (inj (String.app "sub-")) in H. by apply (inj pretty) in H.
  - apply (inj (String.app "base-")) in H. by apply (inj pretty) in H.
Qed.

(** X9. The formatted formula shows exactly the part of the formula
    before its first caret, with the same atom counts as the formula, and a
    superscript exactly when the charge segment is present and not empty,
    which is then the text of the superscript. *)
Theorem formatFormula_shows_base (formula : string) :
  shownText (formattedBase (formatFormula formula))
  = hd EmptyString (split "^" formula) ∧
  parseFormula (shownText (formattedBase (formatFormula formula)))
  = parseFormula formula ∧
  ∀ c, superscript (formatFormula formula) = Some c ↔
       chargeSegment formula = Some c ∧ c ≠ EmptyString.
Proof.
  assert (shownText (formattedBase (formatFormula formula))
          = hd EmptyString (split "^" formula)) as Hshown.
  { unfold formatFormula. cbn [formattedBase].
    rewrite shownText_imap by apply formatPart_text.
    by apply (split_digits_from_ok _ (hd EmptyString (split "^" formula))). }
  split; [done|]. split.
  - rewrite Hshown. unfold parseFormula.
    destruct (split_hd_prefix "^" formula) as [Hno _]. by rewrite (split_no_sep _ _ Hno).
  - intros c. unfold formatFormula, chargeSegment. cbn [superscript].
    destruct (split "^" formula) as [|p0 [|p1 ps]]; simpl; [naive_solver..|].
    destruct p1; simpl; naive_solver.
Qed.

(** X10. The elements of the formatted base follow the digit runs of the
    base: the base is cut into pieces without digit and non-empty runs of
    digits in turn, starting and ending with a piece (a piece between two
    runs is never empty); every piece is a [span] and every run a [sub],
    in the order of the text; and no two elements have the same key. *)
Theorem formatFormula_structure (formula : string) :
  alternating (split_digits (hd EmptyString (split "^" formula))) = true ∧
  formattedBase (formatFormula formula)
  = imap nodeAt (split_digits (hd EmptyString (split "^" formula))) ∧
  NoDup (nodeKey <$> formattedBase (formatFormula formula)).
Proof.
  pose proof (split_digits_from_ok _ (hd EmptyString (split "^" formula)) (le_n _))
    as (Halt & _ & _).
  fold (split_digits (hd EmptyString (split "^" formula))) in Halt.
  split; [done|]. unfold formatFormula. cbn [formattedBase]. split.
  - apply imap_ext. intros i part Hi. by apply (alternating_lookup i) with (parts := split_digits (hd EmptyString (split "^" formula))).
  - apply NoDup_alt. intros i j key Hi Hj.
    rewrite list_lookup_fmap, list_lookup_imap in Hi, Hj.
    destruct (split_digits _ !! i) as [p|] eqn:Ep; [|done].
    destruct (split_digits _ !! j) as [q|] eqn:Eq; [|done].
    simpl in Hi, Hj. injection Hi as Hi. injection Hj as Hj.
    apply (formatPart_key_inj i j p q). by rewrite Hi, Hj.
Qed.

Example format_dichromate :
  formatFormula "Cr2O7^2-"
  = {| formattedBase := [Span "base-0" "Cr"; Sub "sub-1" "2"; Span "base-2" "O";
                         Sub "sub-3" "7"; Span "base-4" ""];
       superscript := Some "2-" |}.
Proof. reflexivity. Qed.

(** ** The service *)

Lemma slice_to_take {A : Type} (count : Z) (l : list A) :
  slice_to count l
  = take (Z.to_nat (if bool_decide (count < 0)
                    then Z.of_nat (List.length l) + count else count)) l.
Proof. unfold slice_to. case_bool_decide; f_equal; lia. Qed.

Ltac balanced_for el :=
  cbn [sideAtoms reactants products formula named]; unfold atomCount, reference;
  parse_all; cbn [lookup list_lookup from_option coefficient named];
  rewrite ?get_or0_cons_Fin, ?get_or0_nil;
  repeat case_decide; simplify_eq; simpl; lia.

Lemma fallback_well_formed (topic : EquationTopic) (language : Language) :
  Forall well_formed_equation (getFallbackEquations 3 topic language).
Proof.
  apply Forall_cons; split; [|apply Forall_cons; split; [|apply Forall_cons; split;
    [|done]]].
  - split; [|split; [|split]].
    + simpl. repeat (apply Forall_cons; split; [split; [by apply parsesb_parses|done]|]).
      done.
    + intros el _. balanced_for el.
    + reflexivity.
    + intros d Hd H. rewrite Forall_forall in H.
      assert (d | 1) as Hone by (apply (H (named "O2" "Oxygen" 1)); repeat constructor).
      apply Z.divide_1_r in Hone. lia.
  - split; [|split; [|split]].
    + simpl. repeat (apply Forall_cons; split; [split; [by apply parsesb_parses|done]|]).
      done.
    + intros el _. balanced_for el.
    + reflexivity.
    + intros d Hd H. rewrite Forall_forall in H.
      assert (d | 1) as Hone by (apply (H (named "O2" "Oxygen" 1)); repeat constructor).
      apply Z.divide_1_r in Hone. lia.
  - split; [|split; [|split]].
    + simpl. repeat (apply Forall_cons; split; [split; [by apply parsesb_parses|done]|]).
      done.
    + intros el _. balanced_for el.
    + reflexivity.
    + intros d Hd H. rewrite Forall_forall in H.
      assert (d | 1) as Hone by (apply (H (named "Zn" "Zinc" 1)); repeat constructor).
      apply Z.divide_1_r in Hone. lia.
Qed.

(** X11. The equations of the offline mode.  Whatever the count, the topic
    and the language, the equations returned are the first ones of the
    same three (all three unless the count is below 3, and a negative
    count drops that many from the end), and each of them is well-formed:
    every formula parses, the coefficients are positive, balance every
    element and the charge, and have no common divisor greater than 1. *)
Theorem getFallbackEquations_well_formed (count : Z) (topic : EquationTopic)
    (language : Language) :
  Forall well_formed_equation (getFallbackEquations count topic language) ∧
  getFallbackEquations count topic language
  = take (Z.to_nat (if bool_decide (count < 0) then 3 + count else count))
      (getFallbackEquations 3 METALS EN) ∧
  List.length (getFallbackEquations count topic language)
  = Z.to_nat (if bool_decide (count < 0) then 3 + count else Z.min count 3).
Proof.
  assert (getFallbackEquations count topic language
          = take (Z.to_nat (if bool_decide (count < 0) then 3 + count else count))
              (getFallbackEquations 3 METALS EN)) as Htake.
  { unfold getFallbackEquations at 1. by rewrite slice_to_take. }
  split; [|split; [done|]].
  - rewrite Htake. apply Forall_take, fallback_well_formed.
  - rewrite Htake, length_take. change (List.length (getFallbackEquations 3 METALS EN)) with 3%nat.
    case_bool_decide; lia.
Qed.

Lemma ION_POOL_formulas : NoDup (Ion.formula <$> ION_POOL).
Proof. apply (bool_decide_unpack _). vm_compute. reflexivity. Qed.

Lemma ION_POOL_sound : Forall ion_sound ION_POOL.
Proof.
  unfold ION_POOL.
  repeat (apply Forall_cons; split;
          [split; [reflexivity|split; [split; (done || lia)|split; [split; (done || lia)|done]]]|]).
  by apply Forall_nil.
Qed.

Lemma filter_sublist {A : Type} (f : A → bool) (l : list A) :
  sublist (List.filter f l) l.
Proof.
  induction l as [|x l IH]; [done|]. simpl.
  destruct (f x); [by apply sublist_skip|by apply sublist_cons].
Qed.

Lemma filter_holds {A : Type} (f : A → bool) (l : list A) :
  Forall (λ x, f x = true) (List.filter f l).
Proof.
  induction l as [|x l IH]; [done|]. simpl.
  destruct (f x) eqn:E; [by apply Forall_cons|done].
Qed.

(** X12. Whatever the order the random sort leaves the ions in, as long as
    it keeps the same ions, [generateIons] returns ions of the pool with
    different formulas, all of the requested category unless it is
    [MIXED]; as many as requested when the category has that many, all
    of the category otherwise (28 monoatomic, 18 polyatomic, 46 in
    all), a negative count dropping that many from the end; and the fields
    of each agree: the charge is the one that [getCharge] reads in the
    formula, positive for a cation and negative for an anion. *)
Theorem generateIons_sound (shuffle : list Ion.t → list Ion.t) (count : Z)
    (difficulty : string) (category : IonCategory) :
  (∀ l, shuffle l ≡ₚ l) →
  NoDup (Ion.formula <$> generateIons shuffle count difficulty category) ∧
  generateIons shuffle count difficulty category ⊆ ION_POOL ∧
  Forall (λ i, ion_sound i ∧ (category = MIXED ∨ Ion.category i = category))
    (generateIons shuffle count difficulty category) ∧
  List.length (generateIons shuffle count difficulty category)
  = Z.to_nat (if bool_decide (count < 0) then available category + count
              else Z.min count (available category)).
Proof.
  intros Hperm. unfold generateIons. rewrite slice_to_take.
  set (filtered := match category with
                   | MONO => List.filter (is_category MONO) ION_POOL
                   | POLY => List.filter (is_category POLY) ION_POOL
                   | MIXED => ION_POOL
                   end).
  set (n := Z.to_nat _).
  assert (sublist filtered ION_POOL) as Hsub
    by (destruct category; [apply filter_sublist..|done]).
  assert (Forall (λ i, category = MIXED ∨ Ion.category i = category) filtered) as Hcat.
  { destruct category; [| |apply Forall_forall; by left].
    - eapply Forall_impl; [apply filter_holds|]. intros i Hi. right.
      unfold is_category in Hi. by destruct (Ion.category i).
    - eapply Forall_impl; [apply filter_holds|]. intros i Hi. right.
      unfold is_category in Hi. by destruct (Ion.category i). }
  assert (Z.of_nat (List.length filtered) = available category) as Hlen
    by (by destruct category).
  assert (∀ i, i ∈ take n (shuffle filtered) → i ∈ filtered) as Hfrom.
  { intros i Hi. rewrite <- (Hperm filtered).
    by apply (elem_of_sublist _ _ i Hi), sublist_take. }
  assert (take n (shuffle filtered) ⊆ ION_POOL) as Hin.
  { intros i Hi. exact (elem_of_sublist filtered ION_POOL i (Hfrom i Hi) Hsub). }
  split; [|split; [done|split]].
  - apply (sublist_NoDup _ (Ion.formula <$> shuffle filtered));
      [|apply fmap_sublist, sublist_take].
    rewrite (Hperm filtered).
    apply (sublist_NoDup _ (Ion.formula <$> ION_POOL));
      [apply ION_POOL_formulas|by apply fmap_sublist].
  - apply Forall_forall. intros i Hi. split.
    + pose proof ION_POOL_sound as Hsound. rewrite Forall_forall in Hsound.
      by apply Hsound, Hin.
    + rewrite Forall_forall in Hcat. by apply Hcat, Hfrom.
  - rewrite length_take, (Permutation_length (Hperm filtered)). unfold n.
    rewrite (Permutation_length (Hperm filtered)). case_bool_decide; lia.
Qed.

Lemma generateIons_sound_witness :
  List.length (generateIons reverse 6 "medium" POLY) = 6%nat ∧
  Forall (λ i, Ion.category i = POLY) (generateIons reverse 6 "medium" POLY).
Proof.
  destruct (generateIons_sound reverse 6 "medium" POLY reverse_Permutation)
    as (_ & _ & Hall & Hlen).
  split; [exact Hlen|]. eapply Forall_impl; [exact Hall|].
  intros i [_ [?|?]]; done.
Defined.

(** ** The component *)

Lemma checked_cases (s : Session) :
  language (checked s) = language s ∧ selectedTopic (checked s) = selectedTopic s ∧
  equations (checked s) = equations s ∧ currentIndex (checked s) = currentIndex s ∧
  userCoefficients (checked s) = userCoefficients s ∧
  (checked s = s ∨
   (currentEquation s ≠ None ∧ feedback (checked s) = correct ∧
    hintMessage (checked s) = EmptyString ∧ score (checked s) = score s + 10) ∨
   (feedback (checked s) = incorrect ∧ hintMessage (checked s) ≠ EmptyString ∧
    score (checked s) = score s)).
Proof.
  unfold checked. destruct (checkAnswer s) as [s'|] eqn:Hcheck; [|naive_solver].
  destruct (checkAnswer_frame _ _ Hcheck) as (? & ? & ? & ? & ?).
  repeat (split; [done|]). unfold checkAnswer in Hcheck.
  destruct (currentEquation s) as [eq|]; [|left; by injection Hcheck].
  destruct (evaluate eq (userCoefficients s)) as [b|]; [|done]. cbn [bind] in Hcheck.
  right. destruct (unbalanced b).
  - destruct (strict_ne _ _).
    + injection Hcheck as <-. right. simpl. split; [done|].
      split; [apply chargeMsg_nonempty|done].
    + destruct (isExactMatch _ _); injection Hcheck as <-; [by left|right].
      simpl. by destruct (is_ZH _).
  - injection Hcheck as <-. right. simpl. split; [done|].
    split; [apply unbalancedMsg_nonempty|done].
Qed.

Lemma view_spec (c : Component) :
  match view c with
  | TopicSelection => selectedTopic (session c) = None
  | Spinner => selectedTopic (session c) ≠ None ∧ loading c = true
  | Blank =>
      selectedTopic (session c) ≠ None ∧ loading c = false ∧
      currentEquation (session c) = None
  | Game eq =>
      selectedTopic (session c) ≠ None ∧ loading c = false ∧
      currentEquation (session c) = Some eq
  end.
Proof.
  unfold view. destruct (selectedTopic (session c)); [|done].
  destruct (loading c); [done|]. by destruct (currentEquation (session c)).
Qed.

Lemma answering_spec (c : Component) :
  answering c = true ↔ feedback (session c) ≠ correct ∧ showAnswer c = false.
Proof.
  unfold answering. destruct (feedback (session c)), (showAnswer c); naive_solver.
Qed.

Lemma slice_last_length {A : Type} (n : nat) (l : list A) :
  (List.length (slice_last n l) ≤ n)%nat.
Proof. unfold slice_last. rewrite length_drop. lia. Qed.

Lemma handleCoefficientChange_feedback (id value : string) (s : Session) :
  (feedback (handleCoefficientChange id value s) = feedback s ∧
   hintMessage (handleCoefficientChange id value s) = hintMessage s) ∨
  (feedback s = incorrect ∧ feedback (handleCoefficientChange id value s) = none ∧
   hintMessage (handleCoefficientChange id value s) = EmptyString).
Proof.
  unfold handleCoefficientChange. destruct (_ || _); [|by left].
  destruct (feedback s) eqn:E; simpl; rewrite ?E; auto.
Qed.

(** Every event keeps the state consistent. *)
Lemma handle_consistent (sort : list string → list string) (c c' : Component) (e : Event) :
  consistent c → handle sort c e = Some c' → consistent c'.
Proof.
  intros [Hidx Hcorr Hscore Hhint Hshown Hload Hhist Hvalid] Hh.
  unfold handle in Hh. pose proof (view_spec c) as Hscreen.
  destruct (view c) as [| | |eq], e; try done.
  - destruct (offersStep _ _); [|done]. injection Hh as <-. by split.
  - destruct (offersTopic _ _); [|done]. injection Hh as <-.
    unfold selectTopic, loadData_request. simpl.
    split; simpl; try done; try lia; try (by left).
    + intros Hc. specialize (Hcorr Hc). lia.
    + destruct (feedback (session c)); lia.
  - destruct Hscreen as [_ Hloading]. destruct (Hload Hloading) as (_ & Hzero & Hscore0).
    injection Hh as <-. unfold loadData_answer, resetState.
    split; simpl; try done; try lia; try (by left);
      try (by apply slice_last_length); try apply valid_coefficients_empty.
  - destruct Hscreen as (Htopic & Hloading & Heq).
    destruct (answering c) eqn:Hans; [|done].
    destruct (bool_decide _); [|done]. injection Hh as <-.
    apply answering_spec in Hans as [Hnot Hshow].
    destruct (handleCoefficientChange_frame id value (session c)) as (_ & Ht & He & Hi & Hs).
    pose proof (handleCoefficientChange_valid id value (session c) Hvalid) as Hv.
    pose proof (handleCoefficientChange_feedback id value (session c)) as Hf.
    split; simpl; rewrite ?Ht, ?He, ?Hi, ?Hs; try done.
    + destruct Hf as [[-> _]|(_ & -> & _)]; [done|by intros ?].
    + destruct Hf as [[-> _]|(Hinc & -> & _)]; [done|]. by rewrite Hinc in Hscore.
    + destruct Hf as [[-> ->]|(_ & -> & ->)]; [done|]. naive_solver.
  - destruct Hscreen as (Htopic & Hloading & Heq).
    destruct (answering c) eqn:Hans; [|done]. injection Hh as <-.
    apply answering_spec in Hans as [Hnot Hshow].
    split; simpl; try done; try (by rewrite Hloading).
  - destruct Hscreen as (Htopic & Hloading & Heq).
    destruct (answering c) eqn:Hans; [|done]. injection Hh as <-.
    apply answering_spec in Hans as [Hnot Hshow].
    destruct (checked_cases (session c)) as (_ & Ht & He & Hi & Hu & Hcases).
    assert (currentIndex (session c) < List.length (equations (session c)))%nat as Hin.
    { apply lookup_lt_is_Some. unfold currentEquation in Heq. by rewrite Heq. }
    split; simpl; rewrite ?Ht, ?He, ?Hi, ?Hu; try done.
    + destruct Hcases as [->|[(_ & -> & _ & ->)|(-> & _ & ->)]]; [done|..];
        destruct (feedback (session c)); try done; lia.
    + destruct Hcases as [->|[(_ & -> & -> & _)|(-> & ? & _)]]; [done|naive_solver..].
    + by rewrite Hloading.
  - destruct Hscreen as (Htopic & Hloading & Heq).
    destruct (answering c) eqn:Hans; [done|]. injection Hh as <-.
    assert (currentIndex (session c) < List.length (equations (session c)))%nat as Hin.
    { apply lookup_lt_is_Some. unfold currentEquation in Heq. by rewrite Heq. }
    unfold handleNext. case_bool_decide as Hlast.
    + unfold resetState. split; simpl; try done; try lia;
        try (by rewrite Hloading); try apply valid_coefficients_empty.
      destruct (feedback (session c)); lia.
    + unfold loadData_request. destruct (selectedTopic (session c)) eqn:E; [|done].
      split; simpl; try done; try lia; try (by left).
      * destruct (feedback (session c)); lia.
      * intros _. by rewrite E.
  - destruct Hscreen as (Htopic & Hloading & Heq). injection Hh as <-.
    split; simpl; try done; try (by rewrite Hloading).
Qed.

Lemma mount_consistent (lang : Language) : consistent (mount lang).
Proof.
  split; simpl; try done; try lia; try (by left); try apply valid_coefficients_empty.
Qed.

Lemma replay_consistent (sort : list string → list string) (events : list Event) :
  ∀ c c', consistent c → replay sort c events = Some c' → consistent c'.
Proof.
  induction events as [|e events IH]; intros c c' Hc Hr; simpl in Hr.
  - by injection Hr as <-.
  - destruct (handle sort c e) as [c1|] eqn:Hh; [|done].
    eapply IH; [|exact Hr]. by eapply handle_consistent.
Qed.

(** X13. Whatever happened since the component was mounted, its state is
    consistent: the index is 0 or points into the batch; the score lies
    between 0 and ten points for each equation before the current one, and
    ten more when the current one is answered correctly, so it never
    exceeds ten points for each equation of the batch; a hint is stored
    exactly when the feedback is [incorrect]; a correct answer and the
    shown answer exclude each other; while a batch is loading a topic is
    selected and index and score are 0; the history has at most 30
    entries; and every stored coefficient is the empty text or a positive
    integer without leading zero. *)
Theorem component_consistent (sort : list string → list string) (lang : Language)
    (events : list Event) (c : Component) :
  replay sort (mount lang) events = Some c →
  consistent c ∧
  0 ≤ score (session c) ≤ 10 * Z.of_nat (List.length (equations (session c))).
Proof.
  intros Hr.
  pose proof (replay_consistent sort events _ _ (mount_consistent lang) Hr) as Hc.
  split; [done|].
  destruct Hc as [Hidx Hcorr Hscore _ _ _ _ _].
  destruct (feedback (session c)) eqn:Hf.
  - lia.
  - specialize (Hcorr eq_refl). lia.
  - lia.
Qed.

Lemma component_consistent_witness :
  ∃ c, replay unsorted (mount EN) water_run = Some c ∧
       feedback (session c) = correct ∧ score (session c) = 10 ∧ consistent c.
Proof.
  destruct (replay unsorted (mount EN) water_run) as [c|] eqn:Hr; [|by vm_compute in Hr].
  exists c. split; [done|].
  destruct (component_consistent unsorted EN water_run c Hr) as [Hc _].
  vm_compute in Hr. injection Hr as <-. done.
Defined.

(** X14. Nothing is rendered exactly when a topic is selected, no batch is
    loading and the batch is empty, that is, when the service answered
    with no equation; and then no event is handled any more: there is no
    button, not even the one that goes back to the topics. *)
Theorem blank_view (sort : list string → list string) (lang : Language)
    (events : list Event) (c : Component) :
  replay sort (mount lang) events = Some c →
  (view c = Blank ↔
   selectedTopic (session c) ≠ None ∧ loading c = false ∧ equations (session c) = []) ∧
  (view c = Blank → ∀ more c', replay sort c more = Some c' → more = []).
Proof.
  intros Hr.
  pose proof (replay_consistent sort events _ _ (mount_consistent lang) Hr) as Hc.
  split.
  - split.
    + intros Hblank. pose proof (view_spec c) as Hs. rewrite Hblank in Hs.
      destruct Hs as (Htopic & Hloading & Heq). split; [done|]. split; [done|].
      unfold currentEquation in Heq. apply lookup_ge_None in Heq.
      destruct (index_in_range c Hc) as [Hzero|Hlt]; [|lia].
      rewrite Hzero in Heq. destruct (equations (session c)); [done|simpl in Heq; lia].
    + intros (Htopic & Hloading & Hnil). unfold view, currentEquation.
      destruct (selectedTopic (session c)); [|done]. by rewrite Hloading, Hnil.
  - intros Hblank [|e more] c' Hmore; [done|]. simpl in Hmore.
    unfold handle in Hmore. by rewrite Hblank in Hmore.
Qed.

Lemma blank_view_witness :
  ∃ c, replay unsorted (mount ZH) empty_run = Some c ∧ view c = Blank ∧
       ∀ e, replay unsorted c [e] = None.
Proof.
  destruct (replay unsorted (mount ZH) empty_run) as [c|] eqn:Hr; [|by vm_compute in Hr].
  exists c. split; [done|].
  destruct (blank_view unsorted ZH empty_run c Hr) as [Hiff Hdead].
  assert (view c = Blank) as Hblank by (vm_compute in Hr; by injection Hr as <-).
  split; [done|]. intros e.
  destruct (replay unsorted c [e]) as [c'|] eqn:He; [|done].
  by specialize (Hdead Hblank [e] c' He).
Defined.

(** *** A perfect run *)

Lemma replay_app (sort : list string → list string) (events more : list Event) :
  ∀ c, replay sort c (events ++ more)
       = match replay sort c events with
         | Some c' => replay sort c' more
         | None => None
         end.
Proof.
  induction events as [|e events IH]; intros c; [done|]. simpl.
  destruct (handle sort c e); [apply IH|done].
Qed.

Lemma view_with_session (s : Session) (c : Component) :
  selectedTopic s = selectedTopic (session c) → equations s = equations (session c) →
  currentIndex s = currentIndex (session c) →
  view (with_session s c) = view c.
Proof.
  intros Ht He Hi. unfold view, currentEquation. simpl. by rewrite Ht, He, Hi.
Qed.

Lemma termKey_field (eq : ChemicalEquation) (i : nat) :
  ((i < List.length (reactants eq))%nat → termKey "r" i ∈ fieldIds eq) ∧
  ((i < List.length (products eq))%nat → termKey "p" i ∈ fieldIds eq).
Proof.
  unfold fieldIds. split; intros [r Hr]%lookup_lt_is_Some; apply elem_of_app; [left|right].
  - apply (elem_of_lookup_imap_2 (λ idx _, termKey "r" idx) _ r i Hr).
  - apply (elem_of_lookup_imap_2 (λ idx _, termKey "p" idx) _ r i Hr).
Qed.

Lemma typeTerms_not_correct (k : Z) (side : string) (terms : list EquationComponent) :
  ∀ idx s, feedback s ≠ correct → feedback (typeTerms k side idx terms s) ≠ correct.
Proof.
  induction terms as [|r terms IH]; intros idx s Hs; [done|]. cbn [typeTerms].
  apply IH.
  destruct (handleCoefficientChange_feedback (termKey side idx)
              (pretty (k * coefficient r)) s) as [[-> _]|(_ & -> & _)]; done.
Qed.

(** Typing into the fields of one side is what [typeTerms] does to the
    session. *)
Lemma replay_typing (sort : list string → list string) (k : Z) (side : string)
    (eq : ChemicalEquation) (terms : list EquationComponent) :
  ∀ idx c,
    view c = Game eq → answering c = true →
    (∀ i, (i < List.length terms)%nat → termKey side (idx + i) ∈ fieldIds eq) →
    replay sort c (typing k side idx terms)
    = Some (with_session (typeTerms k side idx terms (session c)) c).
Proof.
  induction terms as [|r terms IH]; intros idx c Hscreen Hans Hids.
  - simpl. by destruct c.
  - cbn [typing replay typeTerms]. unfold handle. rewrite Hscreen, Hans.
    rewrite bool_decide_eq_true_2
      by (rewrite <- (Nat.add_0_r idx); apply Hids; simpl; lia).
    cbn [andb].
    destruct (handleCoefficientChange_frame (termKey side idx)
                (pretty (k * coefficient r)) (session c)) as (_ & Ht & He & Hi & _).
    rewrite IH; [done|..].
    + by rewrite view_with_session.
    + apply answering_spec in Hans as [Hnot Hshow]. apply answering_spec. split; [|done].
      simpl. by apply (typeTerms_not_correct k side [r] idx).
    + intros i Hi'. replace (S idx + i)%nat with (idx + S i)%nat by lia.
      apply Hids. simpl. lia.
Qed.

Lemma typeScaled_correct (s : Session) (eq : ChemicalEquation) :
  currentEquation s = Some eq → well_formed_equation eq → scaled_within_safe 1 eq →
  valid_coefficients (userCoefficients s) →
  checked (typeScaled 1 eq s)
  = with_feedback correct EmptyString
      (with_score (score s + 10) (typeScaled 1 eq s)).
Proof.
  intros Heq Hwf Hscaled Hvalid.
  assert (Forall (λ r, 0 < coefficient r) (reactants eq ++ products eq)) as Hpos.
  { destruct Hwf as [Hterms _]. eapply Forall_impl; [exact Hterms|]. by intros r [_ ?]. }
  pose proof (typeScaled_entered 1 eq s eq_refl Hpos) as Hent.
  pose proof (entered_within_safe 1 eq _ Hent Hscaled) as Hsafe.
  set (t := typeScaled 1 eq s) in *.
  assert (equations t = equations s ∧ currentIndex t = currentIndex s ∧ score t = score s)
    as (Heqs & Hidx & Hscore).
  { unfold t, typeScaled.
    destruct (typeTerms_frame 1 "p" (products eq) 0%nat
                (typeTerms 1 "r" 0 (reactants eq) s)) as (_ & _ & -> & -> & ->).
    destruct (typeTerms_frame 1 "r" (reactants eq) 0%nat s) as (_ & _ & -> & -> & ->).
    done. }
  assert (valid_coefficients (userCoefficients t)) as Hvt
    by (by apply typeTerms_valid, typeTerms_valid).
  assert (currentEquation t = Some eq) as Heqt
    by (unfold currentEquation; by rewrite Heqs, Hidx).
  destruct (entered_balanced 1 eq _ Hwf Hvt Hent Hsafe) as (b & q & Hb & Hun & Hcl & Hcr).
  assert (strict_ne (totalChargeL b) (totalChargeR b) = false) as Hch.
  { rewrite Hcl, Hcr, strict_ne_Fin. by apply bool_decide_eq_false; intros ?. }
  unfold checked. rewrite (checkAnswer_balanced t eq b Heqt Hb Hun Hch).
  rewrite (proj2 (isExactMatch_entered eq _ Hvt Hsafe) Hent). by rewrite Hscore.
Qed.

Lemma replay_solve (sort : list string → list string) (c : Component)
    (eq : ChemicalEquation) :
  view c = Game eq → answering c = true → well_formed_equation eq →
  scaled_within_safe 1 eq →
  valid_coefficients (userCoefficients (session c)) →
  replay sort c (solve eq)
  = Some (with_session
            (with_feedback correct EmptyString
               (with_score (score (session c) + 10) (typeScaled 1 eq (session c)))) c).
Proof.
  intros Hscreen Hans Hwf Hscaled Hvalid. unfold solve.
  pose proof (view_spec c) as Hspec. rewrite Hscreen in Hspec.
  destruct Hspec as (_ & _ & Heq).
  rewrite replay_app, (replay_typing sort 1 "r" eq); [|done|done|]; last first.
  { intros i Hi. by apply termKey_field. }
  set (c1 := with_session (typeTerms 1 "r" 0 (reactants eq) (session c)) c).
  destruct (typeTerms_frame 1 "r" (reactants eq) 0%nat (session c))
    as (_ & Ht1 & He1 & Hi1 & _).
  assert (view c1 = Game eq) as Hscreen1 by (unfold c1; by rewrite view_with_session).
  assert (answering c1 = true) as Hans1.
  { apply answering_spec in Hans as [Hnot Hshow]. apply answering_spec. split; [|done].
    by apply typeTerms_not_correct. }
  rewrite replay_app, (replay_typing sort 1 "p" eq); [|done|done|]; last first.
  { intros i Hi. by apply termKey_field. }
  set (c2 := with_session (typeTerms 1 "p" 0 (products eq) (session c1)) c1).
  destruct (typeTerms_frame 1 "p" (products eq) 0%nat (session c1))
    as (_ & Ht2 & He2 & Hi2 & _).
  assert (view c2 = Game eq) as Hscreen2
    by (unfold c2; rewrite view_with_session; done).
  assert (answering c2 = true) as Hans2.
  { apply answering_spec in Hans1 as [Hnot Hshow]. apply answering_spec. split; [|done].
    by apply typeTerms_not_correct. }
  cbn [replay]. unfold handle. rewrite Hscreen2, Hans2. f_equal.
  change (session c2) with (typeScaled 1 eq (session c)).
  by rewrite (typeScaled_correct (session c) eq Heq Hwf Hscaled Hvalid).
Qed.

Lemma replay_solveAll (sort : list string → list string) (eqs : list ChemicalEquation) :
  ∀ (pre : list ChemicalEquation) (c : Component),
    eqs ≠ [] → Forall well_formed_equation eqs → Forall (scaled_within_safe 1) eqs →
    equations (session c) = pre ++ eqs → currentIndex (session c) = List.length pre →
    selectedTopic (session c) ≠ None → loading c = false → answering c = true →
    valid_coefficients (userCoefficients (session c)) →
    ∃ c', replay sort c (solveAll eqs) = Some c' ∧
          score (session c') = score (session c) + 10 * Z.of_nat (List.length eqs) ∧
          feedback (session c') = correct ∧ showAnswer c' = false ∧
          currentIndex (session c') = (List.length pre + List.length eqs - 1)%nat ∧
          equations (session c') = equations (session c) ∧
          selectedTopic (session c') = selectedTopic (session c) ∧
          loading c' = false.
Proof.
  induction eqs as [|eq eqs IH];
    intros pre c Hne Hwf Hsafe Heqs Hidx Htopic Hloading Hans Hvalid; [done|].
  apply Forall_cons in Hwf as [Hwf Hwfs]. apply Forall_cons in Hsafe as [Hsafe Hsafes].
  assert (view c = Game eq) as Hscreen.
  { unfold view, currentEquation. destruct (selectedTopic (session c)); [|done].
    rewrite Hloading, Heqs, Hidx. by rewrite list_lookup_middle. }
  pose proof (replay_solve sort c eq Hscreen Hans Hwf Hsafe Hvalid) as Hsolve.
  destruct (typeTerms_frame 1 "p" (products eq) 0%nat
              (typeTerms 1 "r" 0 (reactants eq) (session c))) as (_ & Ht2 & He2 & Hi2 & _).
  destruct (typeTerms_frame 1 "r" (reactants eq) 0%nat (session c))
    as (_ & Ht1 & He1 & Hi1 & _).
  fold (typeScaled 1 eq (session c)) in Ht2, He2, Hi2.
  apply answering_spec in Hans as [Hnot Hshow].
  destruct eqs as [|eq' eqs].
  - cbn [solveAll]. eexists. split; [exact Hsolve|]. simpl.
    rewrite Ht2, He2, Hi2, Ht1, He1, Hi1, Hidx. repeat split; try done; lia.
  - change (solveAll (eq :: eq' :: eqs))
      with (solve eq ++ ClickNext :: solveAll (eq' :: eqs)).
    rewrite replay_app, Hsolve. cbn [replay].
    set (c1 := with_session _ c).
    assert (handle sort c1 ClickNext
            = Some (resetState
                      (with_session
                         (with_currentIndex (S (currentIndex (session c1))) (session c1))
                         c1))) as ->.
    { unfold handle.
      replace (view c1) with (Game eq)
        by (symmetry; unfold c1; rewrite view_with_session; simpl; congruence).
      unfold answering, handleNext. simpl.
      rewrite bool_decide_eq_true_2; [done|].
      rewrite He2, He1, Hi2, Hi1, Heqs, Hidx, length_app. simpl. lia. }
    set (c2 := resetState _).
    destruct (IH (pre ++ [eq]) c2) as (c' & Hr & Hs & Hf & Hsh & Hi & He & Ht & Hl).
    + done.
    + done.
    + done.
    + simpl. rewrite He2, He1, Heqs. by rewrite <- app_assoc.
    + simpl. rewrite Hi2, Hi1, Hidx, length_app. simpl. lia.
    + simpl. by rewrite Ht2, Ht1.
    + done.
    + done.
    + apply valid_coefficients_empty.
    + exists c'. split; [done|]. rewrite Hs, Hf, Hsh, Hi, He, Ht, Hl. simpl.
      rewrite Ht2, He2, Ht1, He1, length_app. simpl. repeat split; try done; lia.
Qed.

(** X15. A perfect run.  When a batch of well-formed equations arrives,
    each of which is evaluated within the safe integers under its
    reference coefficients, typing the reference coefficients of each
    equation into its fields, checking, and going on to the next one after
    each equation but the last, is possible all the way, and ends on the
    last equation with the feedback [correct] and ten points for every
    equation of the batch.  Going on from there asks for a new batch: the
    spinner is shown and the score is 0 again. *)
Theorem perfect_run (sort : list string → list string) (lang : Language)
    (events : list Event) (c c1 : Component) (data : list ChemicalEquation)
    (isOffline : bool) :
  replay sort (mount lang) events = Some c →
  handle sort c (Answer data isOffline) = Some c1 →
  data ≠ [] → Forall well_formed_equation data →
  Forall (scaled_within_safe 1) data →
  ∃ c2 c3,
    replay sort c1 (solveAll data) = Some c2 ∧
    score (session c2) = 10 * Z.of_nat (List.length data) ∧
    feedback (session c2) = correct ∧
    currentIndex (session c2) = (List.length data - 1)%nat ∧
    handle sort c2 ClickNext = Some c3 ∧
    view c3 = Spinner ∧ score (session c3) = 0.
Proof.
  intros Hr Hanswer Hne Hwf Hsafe.
  pose proof (replay_consistent sort events _ _ (mount_consistent lang) Hr) as Hc.
  unfold handle in Hanswer. pose proof (view_spec c) as Hview.
  destruct (view c); try done. destruct Hview as [Htopic Hloading].
  destruct (loading_fresh c Hc Hloading) as (_ & Hzero & Hscore).
  injection Hanswer as <-.
  destruct (replay_solveAll sort data [] (loadData_answer sort data isOffline c))
    as (c2 & Hrun & Hs & Hf & Hsh & Hi & He & Ht & Hl);
    [done|done|done|done|done|done|done|done|apply valid_coefficients_empty|].
  simpl in Hs, Hi, He, Ht. rewrite Hscore in Hs.
  exists c2, (loadData_request c2).
  split; [done|]. split; [lia|]. split; [done|]. split; [done|].
  assert (∃ eq, view c2 = Game eq) as [eq Hgame].
  { unfold view, currentEquation. rewrite Ht, Hl, He, Hi.
    destruct (selectedTopic (session c)); [|done].
    destruct (data !! (List.length data - 1)%nat) as [eq|] eqn:Hlast; [by exists eq|].
    apply lookup_ge_None in Hlast. destruct data; [done|simpl in Hlast; lia]. }
  split.
  - unfold handle. rewrite Hgame. unfold answering. rewrite Hf.
    unfold handleNext. rewrite bool_decide_eq_false_2; [done|]. rewrite He, Hi. lia.
  - unfold loadData_request.
    destruct (selectedTopic (session c2)) eqn:E; [|by rewrite <- Ht in Htopic].
    unfold view. simpl. by rewrite E.
Qed.

Lemma fallback_within_safe (topic : EquationTopic) (language : Language) :
  Forall (scaled_within_safe 1) (getFallbackEquations 3 topic language).
Proof.
  apply Forall_cons; split; [within_safe_integers|].
  apply Forall_cons; split; [within_safe_integers|].
  apply Forall_cons; split; [within_safe_integers|done].
Qed.

Lemma perfect_run_witness :
  ∃ c1 c2, replay unsorted (mount EN) (offline_run ++ [Answer offline_batch true]) = Some c1 ∧
           replay unsorted c1 (solveAll offline_batch) = Some c2 ∧
           score (session c2) = 30 ∧ feedback (session c2) = correct.
Proof.
  destruct (replay unsorted (mount EN) offline_run) as [c|] eqn:Hr; [|by vm_compute in Hr].
  destruct (handle unsorted c (Answer offline_batch true)) as [c1|] eqn:Hh;
    [|vm_compute in Hr; injection Hr as <-; by vm_compute in Hh].
  destruct (perfect_run unsorted EN offline_run c c1 offline_batch true Hr Hh)
    as (c2 & _ & Hrun & Hs & Hf & _);
    [done|apply (fallback_well_formed METALS EN)|apply (fallback_within_safe METALS EN)|].
  exists c1, c2. rewrite replay_app, Hr. simpl. rewrite Hh. done.
Defined.

(** *** The history and the helper text *)

Lemma slice_last_suffix {A : Type} (n : nat) (l : list A) :
  slice_last n l `suffix_of` l.
Proof. apply suffix_drop. Qed.

Lemma slice_last_keeps {A : Type} (n : nat) (old new : list A) :
  (List.length new ≤ n)%nat → new `suffix_of` slice_last n (old ++ new).
Proof.
  intros Hn. unfold slice_last. rewrite length_app.
  exists (drop (List.length old + List.length new - n) old).
  rewrite drop_app. f_equal.
  replace (List.length old + List.length new - n - List.length old)%nat with 0%nat by lia.
  done.
Qed.

(** X16. The history keeps the latest signatures.  When a batch arrives,
    the new history is the end of the old history followed by the
    signatures of the batch, in that order: the last 30 of them, or all
    when there are fewer; so the signatures of a batch of at most 30
    equations are all kept, at the end of the history, and the oldest
    entries are the ones dropped. *)
Theorem history_keeps_latest (sort : list string → list string) (c c' : Component)
    (data : list ChemicalEquation) (isOffline : bool) :
  handle sort c (Answer data isOffline) = Some c' →
  history c' `suffix_of` (history c ++ (signature sort <$> data)) ∧
  List.length (history c') = ((List.length (history c) + List.length data) `min` 30)%nat ∧
  ((List.length data ≤ 30)%nat → (signature sort <$> data) `suffix_of` history c').
Proof.
  intros Hh. unfold handle in Hh. destruct (view c); try done. injection Hh as <-.
  unfold loadData_answer, resetState. simpl. split; [apply slice_last_suffix|]. split.
  - unfold slice_last. rewrite length_drop, length_app, length_fmap. lia.
  - intros Hn. apply slice_last_keeps. by rewrite length_fmap.
Qed.

Lemma history_keeps_latest_witness :
  ∃ c c', replay unsorted (mount EN) offline_run = Some c ∧
          handle unsorted c (Answer offline_batch true) = Some c' ∧
          history c' = ["H2+O2"; "Mg+O2"; "Zn+CuSO4"].
Proof.
  destruct (replay unsorted (mount EN) offline_run) as [c|] eqn:Hr; [|by vm_compute in Hr].
  destruct (handle unsorted c (Answer offline_batch true)) as [c'|] eqn:Hh;
    [|vm_compute in Hr; injection Hr as <-; by vm_compute in Hh].
  exists c, c'. split; [done|]. split; [done|].
  destruct (history_keeps_latest unsorted c c' offline_batch true Hh) as (_ & _ & Hkeep).
  vm_compute in Hr. injection Hr as <-. vm_compute in Hh. by injection Hh as <-.
Defined.

(** X17. The helper text below the controls, which says that an empty
    field counts as 1, is never rendered: its condition negates the
    feedback, and every value of the feedback is a text that is not
    empty. *)
Theorem helper_text_never_shown (c : Component) : helperShown c = false.
Proof. unfold helperShown. by destruct (feedback (session c)). Qed.
